(** * async-limiter: a shallow embedding of [src/limiter.ts]

    The development models the [Limiter] class of [src/limiter.ts]
    together with the part of the JavaScript host it talks to (abort
    signals, timers, promises) as a state machine with an explicit store:

    - queue entries and idle waiters are objects with identity, so they
      live in a heap ([entries], [waiters]) and the queue holds references;
    - JavaScript numbers that come from the caller ([limit], [maxQueue],
      the timeouts) are [jsnum]: a finite rational, the infinities or NaN;
      the counters the class maintains itself ([active], array lengths)
      are exact integers;
    - time is abstracted: a pending timer may fire at any moment;
    - each call from outside (a [run] or [onIdle] call, a task finishing,
      an abort event, a timer callback) runs to completion before the
      next one starts, as on the JavaScript event loop; the continuation
      of a [run] call suspended on a promise is taken to resume as soon as
      the promise settles. *)

From Stdlib Require Import ZArith QArith Lia Lqa.
From stdpp Require Import base decidable option list sorting.

Local Close Scope Q_scope.
Local Open Scope nat_scope.

(** ** JavaScript numbers *)

Inductive jsnum : Type :=
| JNum (q : Q)
| JInf
| JNegInf
| JNaN.

Definition Qlt_bool (x y : Q) : bool := negb (Qle_bool y x).

(** [Number.isFinite] *)
Definition isFinite (x : jsnum) : bool :=
  match x with JNum _ => true | _ => false end.

(** [a < b] on numbers: false as soon as one side is NaN. *)
Definition js_lt (a b : jsnum) : bool :=
  match a, b with
  | JNaN, _ | _, JNaN => false
  | JNum x, JNum y => Qlt_bool x y
  | JNum _, JInf => true
  | JNegInf, JNum _ | JNegInf, JInf => true
  | _, _ => false
  end.

(** [a <= b] *)
Definition js_le (a b : jsnum) : bool :=
  match a, b with
  | JNaN, _ | _, JNaN => false
  | JNum x, JNum y => Qle_bool x y
  | _, JInf => true
  | JNegInf, _ => true
  | _, _ => false
  end.

(** [a >= b] *)
Definition js_ge (a b : jsnum) : bool := js_le b a.

(** [a !== b] on numbers (NaN differs from everything). *)
Definition js_neq (a b : jsnum) : bool :=
  match a, b with
  | JNum x, JNum y => negb (Qeq_bool x y)
  | JInf, JInf | JNegInf, JNegInf => false
  | _, _ => true
  end.

Definition js_of_Z (z : Z) : jsnum := JNum (inject_Z z).
Definition js_of_nat (n : nat) : jsnum := JNum (inject_Z (Z.of_nat n)).
Definition js_zero : jsnum := JNum 0%Q.

(** ** Errors, promises, callbacks *)

(** The three messages [AbortError] is raised with. *)
Inductive abort_site : Type :=
| BeforeStart      (* 'Task aborted before start' *)
| WhileWaiting     (* 'Task aborted while waiting in queue' *)
| IdleWait.        (* 'Idle wait aborted' *)

(** The error classes of [errors.ts], the host's [RangeError], and an
    opaque error thrown by a task. *)
Inductive error : Type :=
| RangeError
| AbortError (site : abort_site)
| QueueOverflowError
| QueueTimeoutError
| IdleTimeoutError
| TaskError (tag : nat).

Inductive Promise : Type :=
| Pending
| Fulfilled
| Rejected (err : error).

(** The closures the limiter hands to the host: the abort listener and the
    timer callback of a queue entry, and those of an [onIdle] call. *)
Inductive callback : Type :=
| EntryAbort (e : nat)
| EntryTimeout (e : nat)
| IdleAbort (w : nat)
| IdleTimeout (w : nat).

(** The closures stored in a cleanup list. *)
Inductive Cleanup : Type :=
| RmAbort (sg : nat) (cb : callback)   (* () => signal.removeEventListener('abort', onAbort) *)
| ClearTimeout (t : nat)               (* () => clearTimeout(t) *)
| DeleteWaiter (w : nat).              (* () => this.idleWaiters.delete(waiter) *)

#[global] Instance abort_site_eq_dec : EqDecision abort_site.
Proof. solve_decision. Defined.
#[global] Instance error_eq_dec : EqDecision error.
Proof. solve_decision. Defined.
#[global] Instance Promise_eq_dec : EqDecision Promise.
Proof. solve_decision. Defined.
#[global] Instance callback_eq_dec : EqDecision callback.
Proof. solve_decision. Defined.
#[global] Instance Cleanup_eq_dec : EqDecision Cleanup.
Proof. solve_decision. Defined.

(** What a task does when it finishes. *)
Inductive outcome : Type :=
| Returned (v : nat)
| Threw (err : error).

(** Where a [run] call that got past the synchronous checks stands:
    suspended at [await this.acquire(..)] on the promise of entry [e],
    holding a slot (between [acquire] and the [finally] block), or
    settled. *)
Inductive call_state : Type :=
| CWaiting (e : nat)
| CRunning
| CSettled (o : outcome).

#[global] Instance outcome_eq_dec : EqDecision outcome.
Proof. solve_decision. Defined.
#[global] Instance call_state_eq_dec : EqDecision call_state.
Proof. solve_decision. Defined.

(** ** The store *)

(** A [QueueEntry]. The [Defer] of the source is a pair of closures over
    the local [settled] and over the [resolve]/[reject] of the promise
    that [waitForTurn] returns; the record keeps [settled], the state of
    that promise, and the [run] call suspended on it ([waiter]). *)
Record QueueEntry : Type := mkEntry {
  settled : bool;
  promise : Promise;
  waiter : nat;
  removed : bool;
  cleanup : list Cleanup
}.

(** The closure state of one suspended [onIdle] call: the local [done],
    the local [cleanups] array and the promise under construction. *)
Record IdleWaiter : Type := mkWaiter {
  w_done : bool;
  cleanups : list Cleanup;
  w_promise : Promise
}.

Record State : Type := mkState {
  (* the fields of the class *)
  active : Z;
  queue : list nat;
  limit : jsnum;
  maxQueue : jsnum;
  defaultQueueTimeoutMs : option jsnum;
  defaultSignal : option nat;
  idleWaiters : list nat;
  (* the heap *)
  entries : list QueueEntry;
  waiters : list IdleWaiter;
  calls : list call_state;
  (* the host *)
  aborted : list nat;
  listeners : list (nat * callback);
  timers : list (nat * callback);
  next_timer : nat;
  (* every invocation of a cleanup closure, in order *)
  cleanup_log : list Cleanup
}.

Definition set_active (v : Z) (s : State) : State :=
  mkState v (queue s) (limit s) (maxQueue s) (defaultQueueTimeoutMs s)
    (defaultSignal s) (idleWaiters s) (entries s) (waiters s) (calls s)
    (aborted s) (listeners s) (timers s) (next_timer s) (cleanup_log s).

Definition set_queue (v : list nat) (s : State) : State :=
  mkState (active s) v (limit s) (maxQueue s) (defaultQueueTimeoutMs s)
    (defaultSignal s) (idleWaiters s) (entries s) (waiters s) (calls s)
    (aborted s) (listeners s) (timers s) (next_timer s) (cleanup_log s).

Definition set_idleWaiters (v : list nat) (s : State) : State :=
  mkState (active s) (queue s) (limit s) (maxQueue s) (defaultQueueTimeoutMs s)
    (defaultSignal s) v (entries s) (waiters s) (calls s)
    (aborted s) (listeners s) (timers s) (next_timer s) (cleanup_log s).

Definition set_entries (v : list QueueEntry) (s : State) : State :=
  mkState (active s) (queue s) (limit s) (maxQueue s) (defaultQueueTimeoutMs s)
    (defaultSignal s) (idleWaiters s) v (waiters s) (calls s)
    (aborted s) (listeners s) (timers s) (next_timer s) (cleanup_log s).

Definition set_waiters (v : list IdleWaiter) (s : State) : State :=
  mkState (active s) (queue s) (limit s) (maxQueue s) (defaultQueueTimeoutMs s)
    (defaultSignal s) (idleWaiters s) (entries s) v (calls s)
    (aborted s) (listeners s) (timers s) (next_timer s) (cleanup_log s).

Definition set_calls (v : list call_state) (s : State) : State :=
  mkState (active s) (queue s) (limit s) (maxQueue s) (defaultQueueTimeoutMs s)
    (defaultSignal s) (idleWaiters s) (entries s) (waiters s) v
    (aborted s) (listeners s) (timers s) (next_timer s) (cleanup_log s).

Definition set_aborted (v : list nat) (s : State) : State :=
  mkState (active s) (queue s) (limit s) (maxQueue s) (defaultQueueTimeoutMs s)
    (defaultSignal s) (idleWaiters s) (entries s) (waiters s) (calls s)
    v (listeners s) (timers s) (next_timer s) (cleanup_log s).

Definition set_listeners (v : list (nat * callback)) (s : State) : State :=
  mkState (active s) (queue s) (limit s) (maxQueue s) (defaultQueueTimeoutMs s)
    (defaultSignal s) (idleWaiters s) (entries s) (waiters s) (calls s)
    (aborted s) v (timers s) (next_timer s) (cleanup_log s).

Definition set_timers (v : list (nat * callback)) (s : State) : State :=
  mkState (active s) (queue s) (limit s) (maxQueue s) (defaultQueueTimeoutMs s)
    (defaultSignal s) (idleWaiters s) (entries s) (waiters s) (calls s)
    (aborted s) (listeners s) v (next_timer s) (cleanup_log s).

Definition set_next_timer (v : nat) (s : State) : State :=
  mkState (active s) (queue s) (limit s) (maxQueue s) (defaultQueueTimeoutMs s)
    (defaultSignal s) (idleWaiters s) (entries s) (waiters s) (calls s)
    (aborted s) (listeners s) (timers s) v (cleanup_log s).

Definition set_cleanup_log (v : list Cleanup) (s : State) : State :=
  mkState (active s) (queue s) (limit s) (maxQueue s) (defaultQueueTimeoutMs s)
    (defaultSignal s) (idleWaiters s) (entries s) (waiters s) (calls s)
    (aborted s) (listeners s) (timers s) (next_timer s) v.

(** ** Options *)

Record LimiterOptions : Type := mkLimiterOptions {
  lo_maxQueue : option jsnum;
  lo_queueTimeoutMs : option jsnum;
  lo_signal : option nat
}.

Record RunOptions : Type := mkRunOptions {
  ro_signal : option nat;
  ro_queueTimeoutMs : option jsnum
}.

Record IdleOptions : Type := mkIdleOptions {
  io_signal : option nat;
  io_timeoutMs : option jsnum
}.

(** [a ?? b] *)
Definition nullish {A : Type} (a b : option A) : option A :=
  match a with Some x => Some x | None => b end.

(** ** Validation *)

(** Each [assert...] returns [Some RangeError] when the source throws. *)
Definition assertValidLimit (l : jsnum) : option error :=
  if negb (isFinite l) || js_le l js_zero then Some RangeError else None.

Definition assertValidMaxQueue (m : jsnum) : option error :=
  if (js_neq m JInf && negb (isFinite m)) || js_lt m js_zero
  then Some RangeError else None.

Definition assertValidTimeoutMs (ms : option jsnum) : option error :=
  match ms with
  | None => None
  | Some x => if negb (isFinite x) || js_lt x js_zero then Some RangeError else None
  end.

(** ** The host: signals and timers *)

(** [signal?.aborted] *)
Definition signal_aborted (signal : option nat) (s : State) : bool :=
  match signal with
  | Some sg => bool_decide (sg ∈ aborted s)
  | None => false
  end.

Definition addEventListener (sg : nat) (cb : callback) (s : State) : State :=
  set_listeners (listeners s ++ [(sg, cb)]) s.

Definition removeEventListener (sg : nat) (cb : callback) (s : State) : State :=
  set_listeners (filter (λ p, p ≠ (sg, cb)) (listeners s)) s.

(** [setTimeout] returns the new timer's handle. *)
Definition setTimeout (cb : callback) (s : State) : State * nat :=
  (set_next_timer (S (next_timer s))
     (set_timers (timers s ++ [(next_timer s, cb)]) s),
   next_timer s).

Definition clearTimeout (t : nat) (s : State) : State :=
  set_timers (filter (λ p, p.1 ≠ t) (timers s)) s.

(** Calling a cleanup closure; the call is recorded in [cleanup_log]. *)
Definition call_cleanup (s : State) (f : Cleanup) : State :=
  let s' :=
    match f with
    | RmAbort sg cb => removeEventListener sg cb s
    | ClearTimeout t => clearTimeout t s
    | DeleteWaiter w => set_idleWaiters (filter (λ x, x ≠ w) (idleWaiters s)) s
    end in
  set_cleanup_log (cleanup_log s' ++ [f]) s'.

(** [addAbortHandler] *)
Definition addAbortHandler (signal : option nat) (onAbort : callback) (s : State)
  : State * option Cleanup :=
  match signal with
  | None => (s, None)
  | Some sg => (addEventListener sg onAbort s, Some (RmAbort sg onAbort))
  end.

(** ** Queue entries *)

(** [makeQueueEntry]: the entry is allocated at the end of the heap. *)
Definition makeQueueEntry (c : nat) (s : State) : State * nat :=
  (set_entries (entries s ++ [mkEntry false Pending c false []]) s,
   length (entries s)).

(** [entry.remove()] *)
Definition entry_remove (e : nat) (s : State) : State :=
  match entries s !! e with
  | None => s
  | Some ent =>
      if removed ent then s
      else
        foldl call_cleanup
          (set_entries
             (<[e := mkEntry (settled ent) (promise ent) (waiter ent) true []]>
                (entries s)) s)
          (cleanup ent)
  end.

(** [entry.cleanup.push(f)] *)
Definition cleanup_push (e : nat) (f : Cleanup) (s : State) : State :=
  match entries s !! e with
  | None => s
  | Some ent =>
      set_entries
        (<[e := mkEntry (settled ent) (promise ent) (waiter ent) (removed ent)
                  (cleanup ent ++ [f])]> (entries s)) s
  end.

(** [entry.defer.resolve()]: resolving the promise resumes the suspended
    [run] call, which now holds the slot. *)
Definition defer_resolve (e : nat) (s : State) : State * bool :=
  match entries s !! e with
  | None => (s, false)
  | Some ent =>
      if settled ent then (s, false)
      else
        (set_calls (<[waiter ent := CRunning]> (calls s))
           (set_entries
              (<[e := mkEntry true Fulfilled (waiter ent) (removed ent) (cleanup ent)]>
                 (entries s)) s),
         true)
  end.

(** [entry.defer.reject(err)]: the suspended [run] call fails with [err]
    at [await this.acquire(..)], outside the [try] block. *)
Definition defer_reject (e : nat) (err : error) (s : State) : State * bool :=
  match entries s !! e with
  | None => (s, false)
  | Some ent =>
      if settled ent then (s, false)
      else
        (set_calls (<[waiter ent := CSettled (Threw err)]> (calls s))
           (set_entries
              (<[e := mkEntry true (Rejected err) (waiter ent) (removed ent) (cleanup ent)]>
                 (entries s)) s),
         true)
  end.

(** ** Idle waiters *)

(** [finish(err)] of the [onIdle] call [w]. *)
Definition finish (w : nat) (err : option error) (s : State) : State :=
  match waiters s !! w with
  | None => s
  | Some r =>
      if w_done r then s
      else
        let s1 := set_waiters (<[w := mkWaiter true [] (w_promise r)]> (waiters s)) s in
        let s2 := foldl call_cleanup s1 (cleanups r) in
        match waiters s2 !! w with
        | None => s2
        | Some r2 =>
            set_waiters
              (<[w := mkWaiter (w_done r2) (cleanups r2)
                        (match err with Some x => Rejected x | None => Fulfilled end)]>
                 (waiters s2)) s2
        end
  end.

(** [emitIdleIfNeeded] *)
Definition emitIdleIfNeeded (s : State) : State :=
  if negb (active s =? 0)%Z || negb (length (queue s) =? 0) then s
  else foldl (λ st w, finish w None st) s (idleWaiters s).

(** ** The private methods *)

(** [Array.prototype.indexOf] *)
Fixpoint indexOf (x : nat) (l : list nat) : option nat :=
  match l with
  | [] => None
  | y :: l' => if decide (y = x) then Some 0 else S <$> indexOf x l'
  end.

(** [removeFromQueue] of the entry [e]. *)
Definition removeFromQueue (e : nat) (s : State) : State :=
  match entries s !! e with
  | None => s
  | Some ent =>
      if removed ent then s
      else
        let s1 := entry_remove e s in
        let s2 :=
          match indexOf e (queue s1) with
          | Some idx => set_queue (delete idx (queue s1)) s1
          | None => s1
          end in
        emitIdleIfNeeded s2
  end.

(** The loop of [shiftNext] over the queue array. *)
Fixpoint shiftNext_from (es : list QueueEntry) (q : list nat) : option nat * list nat :=
  match q with
  | [] => (None, [])
  | e :: q' =>
      match es !! e with
      | Some ent => if removed ent then shiftNext_from es q' else (Some e, q')
      | None => (Some e, q')
      end
  end.

Definition shiftNext (s : State) : State * option nat :=
  let '(next, q') := shiftNext_from (entries s) (queue s) in
  (set_queue q' s, next).

(** The loop of [release]; every iteration shifts the queue, so
    [S (length (queue s))] iterations are enough. *)
Fixpoint release_loop (fuel : nat) (s : State) : option State :=
  match fuel with
  | 0 => None
  | S n =>
      match shiftNext s with
      | (s1, None) => Some (emitIdleIfNeeded (set_active (active s1 - 1)%Z s1))
      | (s1, Some next) =>
          let s2 := entry_remove next s1 in
          match defer_resolve next s2 with
          | (s3, true) => Some s3
          | (s3, false) => release_loop n s3
          end
      end
  end.

Definition release (s : State) : State :=
  default s (release_loop (S (length (queue s))) s).

(** [waitForTurn] for the [run] call [c]: an immediate rejection, or the
    new entry. *)
Definition waitForTurn (signal : option nat) (queueTimeoutMs : option jsnum)
    (c : nat) (s : State) : State * (error + nat) :=
  if signal_aborted signal s then (s, inl (AbortError WhileWaiting))
  else
    let '(s1, e) := makeQueueEntry c s in
    let '(s2, rmAbort) := addAbortHandler signal (EntryAbort e) s1 in
    let s3 := match rmAbort with Some f => cleanup_push e f s2 | None => s2 end in
    let s4 :=
      match queueTimeoutMs with
      | Some _ =>
          let '(s', t) := setTimeout (EntryTimeout e) s3 in
          cleanup_push e (ClearTimeout t) s'
      | None => s3
      end in
    (set_queue (queue s4 ++ [e]) s4, inr e).

(** The three ways [acquire] ends its synchronous part. *)
Inductive acquired : Type :=
| AcqThrew (err : error)
| AcqGranted
| AcqWaiting (e : nat).

Definition acquire (signal : option nat) (queueTimeoutMs : option jsnum)
    (c : nat) (s : State) : State * acquired :=
  if signal_aborted signal s then (s, AcqThrew (AbortError BeforeStart))
  else if js_lt (js_of_Z (active s)) (limit s) then
    (set_active (active s + 1)%Z s, AcqGranted)
  else if js_ge (js_of_nat (length (queue s))) (maxQueue s) then
    (s, AcqThrew QueueOverflowError)
  else
    match waitForTurn signal queueTimeoutMs c s with
    | (s', inl err) => (s', AcqThrew err)
    | (s', inr e) => (s', AcqWaiting e)
    end.

(** ** The public methods *)

(** What the caller of [run] holds once the synchronous part is over: a
    promise already rejected, or the call [c], running or queued behind
    entry [e]. *)
Inductive run_result : Type :=
| RunRejected (err : error)
| RunAdmitted (c : nat)
| RunQueued (c e : nat).

(** [run], up to and including the synchronous part of [acquire]. *)
Definition run (o : RunOptions) (s : State) : State * run_result :=
  let signal := nullish (ro_signal o) (defaultSignal s) in
  let queueTimeoutMs := nullish (ro_queueTimeoutMs o) (defaultQueueTimeoutMs s) in
  match assertValidTimeoutMs queueTimeoutMs with
  | Some err => (s, RunRejected err)
  | None =>
      if signal_aborted signal s then (s, RunRejected (AbortError BeforeStart))
      else
        let c := length (calls s) in
        match acquire signal queueTimeoutMs c s with
        | (s', AcqThrew err) => (s', RunRejected err)
        | (s', AcqGranted) => (set_calls (calls s' ++ [CRunning]) s', RunAdmitted c)
        | (s', AcqWaiting e) => (set_calls (calls s' ++ [CWaiting e]) s', RunQueued c e)
        end
  end.

(** The rest of [run] for a call that holds a slot: the task finishes
    with [o] (it returned or threw), the [finally] block calls
    [release], and the call settles with [o]. *)
Definition complete (c : nat) (o : outcome) (s : State) : State :=
  match calls s !! c with
  | Some CRunning =>
      let s1 := release s in
      set_calls (<[c := CSettled o]> (calls s1)) s1
  | _ => s
  end.

Inductive idle_result : Type :=
| IdleRejected (err : error)
| IdleResolved
| IdleWaiting (w : nat).

(** [cleanups.push(f)] inside [onIdle] *)
Definition cleanups_push (w : nat) (f : Cleanup) (s : State) : State :=
  match waiters s !! w with
  | None => s
  | Some r =>
      set_waiters (<[w := mkWaiter (w_done r) (cleanups r ++ [f]) (w_promise r)]> (waiters s)) s
  end.

(** [onIdle], up to the end of the promise executor. *)
Definition onIdle (o : IdleOptions) (s : State) : State * idle_result :=
  match assertValidTimeoutMs (io_timeoutMs o) with
  | Some err => (s, IdleRejected err)
  | None =>
      if signal_aborted (io_signal o) s then (s, IdleRejected (AbortError IdleWait))
      else if (active s =? 0)%Z && (length (queue s) =? 0) then (s, IdleResolved)
      else
        let w := length (waiters s) in
        let s1 := set_waiters (waiters s ++ [mkWaiter false [] Pending]) s in
        let s2 := set_idleWaiters (idleWaiters s1 ++ [w]) s1 in
        let s3 := cleanups_push w (DeleteWaiter w) s2 in
        let '(s4, rmAbort) := addAbortHandler (io_signal o) (IdleAbort w) s3 in
        let s5 := match rmAbort with Some f => cleanups_push w f s4 | None => s4 end in
        let s6 :=
          match io_timeoutMs o with
          | Some _ =>
              let '(s', t) := setTimeout (IdleTimeout w) s5 in
              cleanups_push w (ClearTimeout t) s'
          | None => s5
          end in
        (emitIdleIfNeeded s6, IdleWaiting w)
  end.

(** ** The host calling back *)

(** The body of each closure given to the host. *)
Definition invoke (cb : callback) (s : State) : State :=
  match cb with
  | EntryAbort e => fst (defer_reject e (AbortError WhileWaiting) (removeFromQueue e s))
  | EntryTimeout e => fst (defer_reject e QueueTimeoutError (removeFromQueue e s))
  | IdleAbort w => finish w (Some (AbortError IdleWait)) s
  | IdleTimeout w => finish w (Some IdleTimeoutError) s
  end.

(** One listener of an abort event: it runs unless it was removed since
    the event started, and being registered with [once] it is removed
    before it runs. *)
Definition dispatch_one (sg : nat) (s : State) (cb : callback) : State :=
  if bool_decide ((sg, cb) ∈ listeners s)
  then invoke cb (removeEventListener sg cb s)
  else s.

(** The signal [sg] aborts: nothing happens if it already has; otherwise
    the listeners registered at that moment are called in order. *)
Definition abort (sg : nat) (s : State) : State :=
  if bool_decide (sg ∈ aborted s) then s
  else
    foldl (dispatch_one sg) (set_aborted (sg :: aborted s) s)
      (snd <$> filter (λ p, p.1 = sg) (listeners s)).

Fixpoint lookup_timer (t : nat) (l : list (nat * callback)) : option callback :=
  match l with
  | [] => None
  | (t', cb) :: l' => if decide (t' = t) then Some cb else lookup_timer t l'
  end.

(** The timer [t] fires, if it is still pending. *)
Definition fire (t : nat) (s : State) : State :=
  match lookup_timer t (timers s) with
  | None => s
  | Some cb => invoke cb (clearTimeout t s)
  end.

(** ** Construction *)

Definition new_Limiter (l : jsnum) (o : LimiterOptions) : error + State :=
  match assertValidLimit l with
  | Some err => inl err
  | None =>
      let mq := default JInf (lo_maxQueue o) in
      match assertValidMaxQueue mq with
      | Some err => inl err
      | None =>
          match assertValidTimeoutMs (lo_queueTimeoutMs o) with
          | Some err => inl err
          | None =>
              inr (mkState 0%Z [] l mq (lo_queueTimeoutMs o) (lo_signal o) []
                     [] [] [] [] [] [] 0 [])
          end
      end
  end.

(** [activeCount] and [pendingCount] *)
Definition activeCount (s : State) : Z := active s.
Definition pendingCount (s : State) : nat := length (queue s).

(** ** Executions *)

(** What can happen to a limiter: a caller calls [run] or [onIdle], a
    task finishes, a signal aborts, a timer fires. *)
Inductive event : Type :=
| EvRun (o : RunOptions)
| EvComplete (c : nat) (o : outcome)
| EvAbort (sg : nat)
| EvTimer (t : nat)
| EvOnIdle (o : IdleOptions).

Definition apply (s : State) (ev : event) : State :=
  match ev with
  | EvRun o => fst (run o s)
  | EvComplete c o => complete c o s
  | EvAbort sg => abort sg s
  | EvTimer t => fire t s
  | EvOnIdle o => fst (onIdle o s)
  end.

Definition exec (s : State) (evs : list event) : State := foldl apply s evs.

Inductive reachable : State → Prop :=
| reachable_new l o s : new_Limiter l o = inr s → reachable s
| reachable_step s ev : reachable s → reachable (apply s ev).

(** ** Concrete limiters *)

Definition no_opts : LimiterOptions := mkLimiterOptions None None None.
Definition plain : RunOptions := mkRunOptions None None.
Definition lim (l : Q) (o : LimiterOptions) : State :=
  match new_Limiter (JNum l) o with
  | inr s => s
  | inl _ => mkState 0%Z [] JNaN JNaN None None [] [] [] [] [] [] [] 0 []
  end.

Definition timed : RunOptions := mkRunOptions (Some 7) (Some (JNum 50)).

Definition no_idle_opts : IdleOptions := mkIdleOptions None None.

(** Three calls on a limiter of limit 2.5. *)
Definition two_and_a_half : State :=
  exec (lim (5 # 2) no_opts) [EvRun plain; EvRun plain; EvRun plain].

(** Limit 1: one call running, the others queued. *)
Definition one_running_two_queued : State :=
  exec (lim 1 no_opts) [EvRun plain; EvRun plain; EvRun plain].

Definition one_running_one_timed : State :=
  exec (lim 1 no_opts) [EvRun plain; EvRun timed].

(** One task running and one [onIdle] call waiting for it. *)
Definition one_running_one_idle_wait : State :=
  exec (lim 1 no_opts) [EvRun plain; EvOnIdle no_idle_opts].

(** ** Vocabulary of the properties *)

(** No task running and none queued. *)
Definition idle (s : State) : Prop := active s = 0%Z ∧ queue s = [].

(** A queue entry is live when it has been neither removed nor settled. *)
Definition live (es : list QueueEntry) (e : nat) : Prop :=
  ∃ ent, es !! e = Some ent ∧ removed ent = false ∧ settled ent = false.

(** [live] as a test. *)
Definition live_b (es : list QueueEntry) (e : nat) : bool :=
  match es !! e with
  | Some ent => negb (removed ent) && negb (settled ent)
  | None => false
  end.

(** The first live entry of a queue and what follows it. *)
Fixpoint first_live (es : list QueueEntry) (q : list nat) : option (nat * list nat) :=
  match q with
  | [] => None
  | e :: q' => if live_b es e then Some (e, q') else first_live es q'
  end.

(** Whether the queue slot [e] refers to an entry marked removed. *)
Definition tombstoned (es : list QueueEntry) (e : nat) : bool :=
  match es !! e with
  | Some ent => removed ent
  | None => false
  end.

(** What [resolve] and [reject] decide about an entry. *)
Definition settlement (ent : QueueEntry) : bool * Promise * nat :=
  (settled ent, promise ent, waiter ent).

(** The queue after [indexOf] and [splice(idx, 1)]. *)
Definition spliced (e : nat) (q : list nat) : list nat :=
  match indexOf e q with
  | Some idx => delete idx q
  | None => q
  end.

(** The number of [run] calls that hold a slot. *)
Definition count_running (cs : list call_state) : nat :=
  length (filter (λ c, c = CRunning) cs).

(** The calls made on one [Defer]. *)
Inductive defer_call : Type :=
| CallResolve
| CallReject (err : error).

Definition do_call (e : nat) (s : State) (c : defer_call) : State * bool :=
  match c with
  | CallResolve => defer_resolve e s
  | CallReject err => defer_reject e err s
  end.

Fixpoint do_calls (e : nat) (s : State) (cs : list defer_call) : State * list bool :=
  match cs with
  | [] => (s, [])
  | c :: cs' =>
      let '(s1, b) := do_call e s c in
      let '(s2, bs) := do_calls e s1 cs' in
      (s2, b :: bs)
  end.

(** The cleanup list [waitForTurn] gives the entry it creates. *)
Definition entry_cleanups (signal : option nat) (queueTimeoutMs : option jsnum)
    (e t : nat) : list Cleanup :=
  match signal with Some sg => [RmAbort sg (EntryAbort e)] | None => [] end ++
  match queueTimeoutMs with Some _ => [ClearTimeout t] | None => [] end.

(** The cleanup list [onIdle] builds for the waiter it registers. *)
Definition idle_cleanups (signal : option nat) (timeoutMs : option jsnum)
    (w t : nat) : list Cleanup :=
  [DeleteWaiter w] ++
  match signal with Some sg => [RmAbort sg (IdleAbort w)] | None => [] end ++
  match timeoutMs with Some _ => [ClearTimeout t] | None => [] end.

(** How many times the closure [f] has been called. *)
Definition times_called (f : Cleanup) (s : State) : nat :=
  length (filter (λ g, g = f) (cleanup_log s)).

(** The gate proper is untouched between [s] and [s']. *)
Definition gate_eq (s s' : State) : Prop :=
  active s' = active s ∧ queue s' = queue s ∧ entries s' = entries s ∧
  calls s' = calls s ∧ limit s' = limit s.

(** The invariant of the gate proper: counters, queue, entries, calls. *)
Record gate_inv (a : Z) (q : list nat) (es : list QueueEntry)
    (cs : list call_state) (l : jsnum) : Prop := mkGateInv {
  gi_limit : ∃ x, l = JNum x ∧ (0 < x)%Q;
  gi_count : a = Z.of_nat (count_running cs);
  gi_upper : ∀ x, l = JNum x → (inject_Z a < x + 1)%Q;
  gi_busy : q ≠ [] → js_lt (js_of_Z a) l = false;
  gi_sorted : StronglySorted lt q;
  gi_queued : ∀ e, e ∈ q → live es e;
  gi_gone : ∀ e ent, es !! e = Some ent → e ∉ q → removed ent = true;
  gi_settled : ∀ e ent, es !! e = Some ent → settled ent = removed ent;
  gi_promise : ∀ e ent, es !! e = Some ent →
               (settled ent = false ↔ promise ent = Pending);
  gi_waiter : ∀ e ent, es !! e = Some ent → settled ent = false →
              cs !! waiter ent = Some (CWaiting e);
  gi_fifo : ∀ e1 e2 ent1 ent2, e1 < e2 →
            es !! e1 = Some ent1 → es !! e2 = Some ent2 →
            promise ent2 = Fulfilled → removed ent1 = true
}.

Definition GateInv (s : State) : Prop :=
  gate_inv (active s) (queue s) (entries s) (calls s) (limit s).

(** The invariant of the idle registry: the registered waiters are the
    [onIdle] calls that are not done, each still holds the closure that
    deregisters it, and only that one. *)
Record idle_reg (ws : list IdleWaiter) (iw : list nat) : Prop := mkIdleReg {
  ir_registered : ∀ w, w ∈ iw →
      ∃ r, ws !! w = Some r ∧ w_done r = false ∧ DeleteWaiter w ∈ cleanups r;
  ir_pending : ∀ w r, ws !! w = Some r → w_done r = false → w ∈ iw;
  ir_promise : ∀ w r, ws !! w = Some r → (w_done r = false ↔ w_promise r = Pending);
  ir_own : ∀ w r w', ws !! w = Some r → DeleteWaiter w' ∈ cleanups r → w' = w
}.

(** No queue entry holds a closure that deregisters an idle waiter. *)
Definition no_delete (es : list QueueEntry) : Prop :=
  ∀ e ent w, es !! e = Some ent → DeleteWaiter w ∉ cleanup ent.

Definition IdleInv (s : State) : Prop :=
  idle_reg (waiters s) (idleWaiters s) ∧ no_delete (entries s) ∧
  (idle s → idleWaiters s = []).

(** Every cleanup closure there is: those still held by an entry or by an
    idle waiter, and those already called. *)
Definition all_closures (s : State) : list Cleanup :=
  concat (cleanup <$> entries s) ++ concat (cleanups <$> waiters s) ++ cleanup_log s.

(** A closure can only mention objects that exist. *)
Definition closure_bounded (s : State) (f : Cleanup) : Prop :=
  match f with
  | RmAbort _ (EntryAbort e) | RmAbort _ (EntryTimeout e) => e < length (entries s)
  | RmAbort _ (IdleAbort w) | RmAbort _ (IdleTimeout w) => w < length (waiters s)
  | ClearTimeout t => t < next_timer s
  | DeleteWaiter w => w < length (waiters s)
  end.

Record CleanupInv (s : State) : Prop := mkCleanupInv {
  ci_nodup : NoDup (all_closures s);
  ci_bounded : ∀ f, f ∈ all_closures s → closure_bounded s f;
  ci_removed : ∀ e ent, entries s !! e = Some ent → removed ent = true → cleanup ent = []
}.

(** From [s] to [s'] cleanup closures were only called, never forgotten:
    the log grew, and an entry either kept its flag and its list or went
    from not removed to removed with every closure of its list called. *)
Definition cleanup_step (s s' : State) : Prop :=
  (∃ l, cleanup_log s' = cleanup_log s ++ l) ∧
  ∀ e ent, entries s !! e = Some ent →
    ∃ ent', entries s' !! e = Some ent' ∧
      ((removed ent' = removed ent ∧ cleanup ent' = cleanup ent) ∨
       (removed ent = false ∧ removed ent' = true ∧
        ∀ f, f ∈ cleanup ent → f ∈ cleanup_log s')).

(** From [s] to [s'] an [onIdle] promise was fulfilled only if the gate
    is idle in [s']. *)
Definition fulfil_step (s s' : State) : Prop :=
  ∀ w r', waiters s' !! w = Some r' → w_promise r' = Fulfilled →
    (∃ r, waiters s !! w = Some r ∧ w_promise r = Fulfilled) ∨ idle s'.

(** The same, and an idle gate stayed idle. *)
Definition idle_step (s s' : State) : Prop :=
  fulfil_step s s' ∧ (idle s → idle s').

(** From [s] to [s'] no entry was admitted: every promise fulfilled in
    [s'] was fulfilled in [s]. *)
Definition no_admit (s s' : State) : Prop :=
  ∀ e ent', entries s' !! e = Some ent' → promise ent' = Fulfilled →
    ∃ ent, entries s !! e = Some ent ∧ promise ent = Fulfilled.

(** What a limiter is configured with, and the signals aborted so far:
    the fields the class declares [readonly], and the host's record of
    abort events. *)
Definition config (s : State) : jsnum * jsnum * option jsnum * option nat :=
  (limit s, maxQueue s, defaultQueueTimeoutMs s, defaultSignal s).

(** A number accepted as a timeout: [undefined], or finite and [>= 0]. *)
Definition timeout_ok (ms : option jsnum) : Prop :=
  match ms with
  | None => True
  | Some (JNum t) => (0 <= t)%Q
  | Some _ => False
  end.

(** A number accepted as [maxQueue]: [Infinity], or finite and [>= 0]. *)
Definition maxQueue_ok (m : jsnum) : Prop :=
  match m with
  | JInf => True
  | JNum x => (0 <= x)%Q
  | _ => False
  end.

(** The configuration together with the signals that have aborted. *)
Definition static (s : State)
  : jsnum * jsnum * option jsnum * option nat * list nat :=
  (config s, aborted s).

(** From [s] to [s'] nothing decided was undone and the queue did not
    grow: a settled entry kept its promise, and a call that was running
    or settled stayed as it was. *)
Definition quiet_step (s s' : State) : Prop :=
  (∀ e ent, entries s !! e = Some ent → promise ent ≠ Pending →
     ∃ ent', entries s' !! e = Some ent' ∧ promise ent' = promise ent) ∧
  (∀ c st, calls s !! c = Some st → (∀ e, st ≠ CWaiting e) → calls s' !! c = Some st) ∧
  length (queue s') ≤ length (queue s).

(** The queue holds no more than [maxQueue] allows, rounded up. *)
Definition queue_bounded (s : State) : Prop :=
  ∀ m, maxQueue s = JNum m →
    (inject_Z (Z.of_nat (length (queue s))) < m + 1)%Q.

(** A limiter that queues nothing: limit 1, [maxQueue: 0], one task
    running. *)
Definition no_queue_busy : State :=
  exec (lim 1 (mkLimiterOptions (Some (JNum 0)) None None)) [EvRun plain].

(** Who a registered abort listener belongs to: a queue entry not yet
    removed or an [onIdle] call not yet done, which still holds the
    closure that detaches the listener. *)
Definition listener_owned (s : State) (sg : nat) (cb : callback) : Prop :=
  match cb with
  | EntryAbort e =>
      ∃ ent, entries s !! e = Some ent ∧ removed ent = false ∧
             RmAbort sg cb ∈ cleanup ent
  | IdleAbort w =>
      ∃ r, waiters s !! w = Some r ∧ w_done r = false ∧ RmAbort sg cb ∈ cleanups r
  | EntryTimeout _ | IdleTimeout _ => False
  end.

(** Who a pending timer belongs to, likewise. *)
Definition timer_owned (s : State) (t : nat) (cb : callback) : Prop :=
  match cb with
  | EntryTimeout e =>
      ∃ ent, entries s !! e = Some ent ∧ removed ent = false ∧
             ClearTimeout t ∈ cleanup ent
  | IdleTimeout w =>
      ∃ r, waiters s !! w = Some r ∧ w_done r = false ∧ ClearTimeout t ∈ cleanups r
  | EntryAbort _ | IdleAbort _ => False
  end.

(** Nothing is left attached to the host without an owner. *)
Record HostInv (s : State) : Prop := mkHostInv {
  hi_listeners : ∀ sg cb, (sg, cb) ∈ listeners s → listener_owned s sg cb;
  hi_timers : ∀ t cb, (t, cb) ∈ timers s → timer_owned s t cb
}.

(** One task running, one call queued with a signal and a timeout, and
    one [onIdle] call waiting with a timeout. *)
Definition busy_with_timers : State :=
  exec (lim 1 no_opts)
    [EvRun plain; EvRun timed; EvOnIdle (mkIdleOptions None (Some (JNum 5)))].

(** From [s] to [s'] every [onIdle] call that was done is as it was. *)
Definition waiters_kept (s s' : State) : Prop :=
  ∀ w r, waiters s !! w = Some r → w_done r = true → waiters s' !! w = Some r.

(** One task running and one [onIdle] call waiting with a signal. *)
Definition idle_wait_with_signal : State :=
  exec (lim 1 no_opts) [EvRun plain; EvOnIdle (mkIdleOptions (Some 3) None)].

(** * Proofs *)

(** ** Numbers *)

Lemma Qlt_bool_iff x y : Qlt_bool x y = true ↔ (x < y)%Q.
Proof.
  unfold Qlt_bool. rewrite negb_true_iff. split.
  - intros H. apply Qnot_le_lt. intros Hle.
    apply Qle_bool_iff in Hle. congruence.
  - intros H. destruct (Qle_bool y x) eqn:E; [|done].
    apply Qle_bool_iff in E. exfalso. eapply Qlt_not_le; eauto.
Qed.

Lemma Qlt_bool_false x y : Qlt_bool x y = false ↔ (y <= x)%Q.
Proof.
  unfold Qlt_bool. rewrite negb_false_iff. apply Qle_bool_iff.
Qed.

Lemma js_ge_not_lt a b : js_ge a b = true → js_lt a b = false.
Proof.
  unfold js_ge, js_le, js_lt.
  destruct a, b; try done.
  intros H. apply Qlt_bool_false. by apply Qle_bool_iff.
Qed.

Lemma inject_Z_succ a : (inject_Z (a + 1) == inject_Z a + 1)%Q.
Proof. rewrite inject_Z_plus. reflexivity. Qed.

Lemma inject_Z_pred a : (inject_Z (a - 1) == inject_Z a - 1)%Q.
Proof.
  replace (a - 1)%Z with (a + -1)%Z by lia.
  rewrite inject_Z_plus. reflexivity.
Qed.

(** ** Lists *)

Lemma count_running_app cs cs' :
  count_running (cs ++ cs') = count_running cs + count_running cs'.
Proof. unfold count_running. by rewrite filter_app, length_app. Qed.

Lemma count_running_snoc cs c :
  count_running (cs ++ [c])
  = count_running cs + (if decide (c = CRunning) then 1 else 0).
Proof.
  rewrite count_running_app. f_equal. unfold count_running.
  rewrite filter_cons, filter_nil. by case_decide.
Qed.

Lemma count_running_insert cs i c c' :
  cs !! i = Some c →
  count_running (<[i := c']> cs) + (if decide (c = CRunning) then 1 else 0)
  = count_running cs + (if decide (c' = CRunning) then 1 else 0).
Proof.
  intros Hi.
  rewrite <- (take_drop_middle cs i c Hi) at 2.
  rewrite insert_take_drop by (by eapply lookup_lt_Some).
  rewrite !count_running_app.
  change (c' :: drop (S i) cs) with ([c'] ++ drop (S i) cs).
  change (c :: drop (S i) cs) with ([c] ++ drop (S i) cs).
  rewrite !count_running_app.
  unfold count_running at 2 5.
  rewrite !filter_cons, !filter_nil.
  repeat case_decide; simpl; lia.
Qed.

Lemma indexOf_Some x l i : indexOf x l = Some i → l !! i = Some x.
Proof.
  revert i. induction l as [|y l IH]; intros i; simpl; [done|].
  case_decide as Hy.
  - intros [= <-]. by subst.
  - destruct (indexOf x l) as [j|] eqn:E; simpl; [|done].
    intros [= <-]. simpl. by apply IH.
Qed.

Lemma indexOf_None x l : indexOf x l = None → x ∉ l.
Proof.
  induction l as [|y l IH]; simpl.
  - intros _. apply not_elem_of_nil.
  - case_decide as Hy; [done|].
    destruct (indexOf x l) eqn:E; simpl; [done|].
    intros _. rewrite not_elem_of_cons. split; [congruence|by apply IH].
Qed.

Lemma spliced_sublist e q : spliced e q `sublist_of` q.
Proof.
  unfold spliced. destruct (indexOf e q); [apply sublist_delete|done].
Qed.

Lemma StronglySorted_sublist (l k : list nat) :
  l `sublist_of` k → StronglySorted lt k → StronglySorted lt l.
Proof.
  induction 1 as [|x l k Hs IH|x l k Hs IH]; intros Hk.
  - constructor.
  - apply StronglySorted_inv in Hk as [Hk Hx]. constructor; [by apply IH|].
    eapply Forall_forall. intros y Hy.
    eapply Forall_forall in Hx; [exact Hx|]. by eapply (sublist_subseteq _ _ Hs).
  - apply StronglySorted_inv in Hk as [Hk _]. by apply IH.
Qed.

Lemma StronglySorted_lt_NoDup (l : list nat) : StronglySorted lt l → NoDup l.
Proof.
  induction 1 as [|x l Hl IH Hx]; constructor; [|done].
  intros Hin. eapply Forall_forall in Hx; [|exact Hin]. lia.
Qed.

Lemma elem_of_spliced e q x :
  NoDup q → x ∈ spliced e q ↔ x ∈ q ∧ x ≠ e.
Proof.
  unfold spliced. destruct (indexOf e q) as [i|] eqn:E.
  - apply indexOf_Some in E. intros Hnd.
    rewrite <- (take_drop_middle q i e E) in Hnd |- *.
    assert (length (take i q) = i) as Hlen.
    { rewrite length_take. apply lookup_lt_Some in E. lia. }
    assert (delete i (take i q ++ e :: drop (S i) q) = take i q ++ drop (S i) q) as ->.
    { rewrite <- Hlen at 1. by rewrite delete_middle. }
    apply NoDup_app in Hnd as (_ & Hd & Hnd'). apply NoDup_cons in Hnd' as [Hni _].
    rewrite !elem_of_app, elem_of_cons. split.
    + intros [Hx|Hx]; (split; [tauto|]); intros ->; [by eapply Hd; [|left]|done].
    + intros [[Hx|[->|Hx]] Hne]; tauto.
  - apply indexOf_None in E. intros _. split; [|tauto].
    intros Hx. split; [done|]. by intros ->.
Qed.

(** ** Transitions of the gate invariant *)

Lemma gate_inv_waiter_ne a q es cs l e e' ent ent' :
  gate_inv a q es cs l →
  es !! e = Some ent → es !! e' = Some ent' →
  settled ent = false → settled ent' = false →
  e ≠ e' → waiter ent ≠ waiter ent'.
Proof.
  intros Hinv He He' Hs Hs' Hne Heq.
  pose proof (gi_waiter _ _ _ _ _ Hinv _ _ He Hs) as H1.
  pose proof (gi_waiter _ _ _ _ _ Hinv _ _ He' Hs') as H2.
  rewrite Heq in H1. congruence.
Qed.

Lemma gate_inv_admit a q es cs l :
  gate_inv a q es cs l → js_lt (js_of_Z a) l = true →
  gate_inv (a + 1) q es (cs ++ [CRunning]) l.
Proof.
  intros [Hl Hc Hu Hb Hs Hq Hg Hse Hp Hw Hf] Hlt. split; try done.
  - rewrite count_running_snoc, Hc. case_decide; [lia|done].
  - intros x ->. simpl in Hlt. apply Qlt_bool_iff in Hlt.
    rewrite inject_Z_succ. lra.
  - intros Hne. specialize (Hb Hne). congruence.
  - intros e ent He Hst. by apply lookup_app_l_Some, (Hw e).
Qed.


Lemma gate_inv_enqueue a q es cs l cl :
  gate_inv a q es cs l → js_lt (js_of_Z a) l = false →
  gate_inv a (q ++ [length es])
    (es ++ [mkEntry false Pending (length cs) false cl])
    (cs ++ [CWaiting (length es)]) l.
Proof.
  intros [Hl Hc Hu Hb Hs Hq Hg Hse Hp Hw Hf] Hlt.
  assert (∀ e ent, (es ++ [mkEntry false Pending (length cs) false cl]) !! e = Some ent →
            (es !! e = Some ent) ∨
            (e = length es ∧ ent = mkEntry false Pending (length cs) false cl)) as Hcase.
  { intros e ent He. apply lookup_snoc_Some in He as [[_ ?]|[-> <-]]; [by left|by right]. }
  split.
  - done.
  - rewrite count_running_snoc, Hc. case_decide; [done|lia].
  - done.
  - done.
  - apply StronglySorted_app_2; [|done|repeat constructor].
    intros x y Hx Hy. apply list_elem_of_singleton in Hy as ->.
    destruct (Hq _ Hx) as (ent & He & _). by eapply lookup_lt_Some.
  - intros e He. apply elem_of_app in He as [He|He].
    + destruct (Hq _ He) as (ent & Hent & ? & ?).
      exists ent. split_and!; try done. by apply lookup_app_l_Some.
    + apply list_elem_of_singleton in He as ->.
      eexists. split_and!; [apply list_lookup_middle; done|done|done].
  - intros e ent He Hni. rewrite not_elem_of_app in Hni. destruct Hni as [Hni Hne].
    destruct (Hcase _ _ He) as [Hold|[-> _]]; [by eapply Hg|].
    exfalso. apply Hne. by apply list_elem_of_singleton.
  - intros e ent He. destruct (Hcase _ _ He) as [Hold|[_ ->]]; [by eapply Hse|done].
  - intros e ent He. destruct (Hcase _ _ He) as [Hold|[_ ->]]; [by eapply Hp|done].
  - intros e ent He Hst. destruct (Hcase _ _ He) as [Hold|[-> ->]].
    + by apply lookup_app_l_Some, (Hw e).
    + simpl. by apply list_lookup_middle.
  - intros e1 e2 ent1 ent2 Hlt12 H1 H2 Hful.
    destruct (Hcase _ _ H2) as [Hold2|[-> ->]]; [|done].
    destruct (Hcase _ _ H1) as [Hold1|[-> _]]; [by eapply Hf|].
    apply lookup_lt_Some in Hold2. lia.
Qed.

Lemma gate_inv_elem_removed a q es cs l e ent :
  gate_inv a q es cs l → es !! e = Some ent → removed ent = false → e ∈ q.
Proof.
  intros Hinv He Hr. destruct (decide (e ∈ q)) as [|Hni]; [done|].
  pose proof (gi_gone _ _ _ _ _ Hinv _ _ He Hni). congruence.
Qed.

Lemma insert_lookup_cases (es : list QueueEntry) e new e' ent' :
  e < length es →
  <[e := new]> es !! e' = Some ent' →
  (e' ≠ e ∧ es !! e' = Some ent') ∨ (e' = e ∧ ent' = new).
Proof.
  intros Hlen H. destruct (decide (e = e')) as [<-|Hne].
  - rewrite list_lookup_insert_eq in H by done. right. split; congruence.
  - rewrite list_lookup_insert_ne in H by done. left. split; [congruence|done].
Qed.

Lemma gate_inv_reject a q es cs l e ent err cl :
  gate_inv a q es cs l → es !! e = Some ent → removed ent = false →
  gate_inv a (spliced e q)
    (<[e := mkEntry true (Rejected err) (waiter ent) true cl]> es)
    (<[waiter ent := CSettled (Threw err)]> cs) l.
Proof.
  intros Hinv He Hr.
  pose proof Hinv as [Hl Hc Hu Hb Hs Hq Hg Hse Hp Hw Hf].
  assert (settled ent = false) as Hst by (by rewrite (Hse _ _ He)).
  pose proof (Hw _ _ He Hst) as Hwe.
  pose proof (StronglySorted_lt_NoDup _ Hs) as Hnd.
  pose proof (insert_lookup_cases es e
    (mkEntry true (Rejected err) (waiter ent) true cl)) as Hcase.
  specialize (λ e' ent', Hcase e' ent' (lookup_lt_Some _ _ _ He)).
  split.
  - done.
  - pose proof (count_running_insert cs _ _ (CSettled (Threw err)) Hwe) as H.
    repeat case_decide; try done. lia.
  - done.
  - intros Hne. apply Hb. intros ->. unfold spliced in Hne. by simpl in Hne.
  - eapply StronglySorted_sublist; [apply spliced_sublist|done].
  - intros e' He'. apply elem_of_spliced in He' as [He' Hne]; [|done].
    destruct (Hq _ He') as (ent' & ? & ? & ?). exists ent'.
    split_and!; try done. by rewrite list_lookup_insert_ne.
  - intros e' ent' H Hni. destruct (Hcase _ _ H) as [[Hne Hold]|[_ ->]]; [|done].
    eapply Hg; [done|]. intros Hin. apply Hni. by apply elem_of_spliced.
  - intros e' ent' H. destruct (Hcase _ _ H) as [[Hne Hold]|[_ ->]]; [by eapply Hse|done].
  - intros e' ent' H. destruct (Hcase _ _ H) as [[Hne Hold]|[_ ->]]; [by eapply Hp|done].
  - intros e' ent' H Hst'. destruct (Hcase _ _ H) as [[Hne Hold]|[_ ->]]; [|done].
    rewrite list_lookup_insert_ne; [by eapply Hw|].
    by eapply (gate_inv_waiter_ne _ _ _ _ _ e e').
  - intros e1 e2 ent1 ent2 Hlt H1 H2 Hful.
    destruct (Hcase _ _ H2) as [[Hne2 Hold2]|[_ ->]]; [|done].
    destruct (Hcase _ _ H1) as [[Hne1 Hold1]|[_ ->]]; [by eapply Hf|done].
Qed.

Lemma gate_inv_handoff a h q es cs l ent cl c o :
  gate_inv a (h :: q) es cs l → es !! h = Some ent → cs !! c = Some CRunning →
  gate_inv a q
    (<[h := mkEntry true Fulfilled (waiter ent) true cl]> es)
    (<[c := CSettled o]> (<[waiter ent := CRunning]> cs)) l.
Proof.
  intros Hinv He Hc0.
  pose proof Hinv as [Hl Hc Hu Hb Hs Hq Hg Hse Hp Hw Hf].
  destruct (Hq h) as (ent0 & He0 & Hr & Hst); [by left|].
  assert (ent0 = ent) as -> by congruence.
  pose proof (Hw _ _ He Hst) as Hwe.
  assert (c ≠ waiter ent) as Hcw by (intros ->; congruence).
  apply StronglySorted_inv in Hs as [Hs Hmin].
  pose proof (insert_lookup_cases es h
    (mkEntry true Fulfilled (waiter ent) true cl)) as Hcase.
  specialize (λ e' ent', Hcase e' ent' (lookup_lt_Some _ _ _ He)).
  assert (h ∉ q) as Hhq.
  { intros Hin. eapply Forall_forall in Hmin; [|exact Hin]. lia. }
  split.
  - done.
  - pose proof (count_running_insert cs _ _ CRunning Hwe) as H1.
    pose proof (count_running_insert (<[waiter ent := CRunning]> cs) c CRunning (CSettled o)) as H2.
    rewrite list_lookup_insert_ne in H2 by done. specialize (H2 Hc0).
    repeat case_decide; try done. lia.
  - done.
  - intros Hne. by apply Hb.
  - done.
  - intros e' He'. destruct (Hq e') as (ent' & ? & ? & ?); [by right|].
    exists ent'. split_and!; try done. rewrite list_lookup_insert_ne; [done|].
    intros ->. done.
  - intros e' ent' H Hni. destruct (Hcase _ _ H) as [[Hne Hold]|[_ ->]]; [|done].
    eapply Hg; [done|]. rewrite not_elem_of_cons. done.
  - intros e' ent' H. destruct (Hcase _ _ H) as [[Hne Hold]|[_ ->]]; [by eapply Hse|done].
  - intros e' ent' H. destruct (Hcase _ _ H) as [[Hne Hold]|[_ ->]]; [by eapply Hp|done].
  - intros e' ent' H Hst'. destruct (Hcase _ _ H) as [[Hne Hold]|[_ ->]]; [|done].
    pose proof (Hw _ _ Hold Hst') as Hw'.
    rewrite !list_lookup_insert_ne; [done| |].
    + by eapply (gate_inv_waiter_ne _ _ _ _ _ h e').
    + intros ->. congruence.
  - intros e1 e2 ent1 ent2 Hlt H1 H2 Hful.
    destruct (Hcase _ _ H1) as [[Hne1 Hold1]|[_ ->]]; [|done].
    destruct (Hcase _ _ H2) as [[Hne2 Hold2]|[-> _]]; [by eapply Hf|].
    eapply Hg; [done|]. rewrite not_elem_of_cons. split; [done|].
    intros Hin. eapply Forall_forall in Hmin; [|exact Hin]. lia.
Qed.

Lemma gate_inv_free a es cs l c o :
  gate_inv a [] es cs l → cs !! c = Some CRunning →
  gate_inv (a - 1) [] es (<[c := CSettled o]> cs) l.
Proof.
  intros Hinv Hc0.
  pose proof Hinv as [Hl Hc Hu Hb Hs Hq Hg Hse Hp Hw Hf].
  split; try done.
  - pose proof (count_running_insert cs c CRunning (CSettled o) Hc0) as H.
    repeat case_decide; try done. lia.
  - intros x Hx. specialize (Hu x Hx). rewrite inject_Z_pred. lra.
  - intros e ent He Hst. rewrite list_lookup_insert_ne; [by eapply Hw|].
    intros Heq. specialize (Hw _ _ He Hst). congruence.
Qed.

(** ** What each operation leaves alone *)

Lemma gate_eq_refl s : gate_eq s s.
Proof. by repeat split. Qed.

Lemma gate_eq_trans s1 s2 s3 : gate_eq s1 s2 → gate_eq s2 s3 → gate_eq s1 s3.
Proof.
  intros (? & ? & ? & ? & ?) (? & ? & ? & ? & ?).
  repeat split; congruence.
Qed.

Lemma gate_eq_inv s s' : gate_eq s s' → GateInv s → GateInv s'.
Proof.
  intros (Ha & Hq & He & Hc & Hl). unfold GateInv.
  by rewrite Ha, Hq, He, Hc, Hl.
Qed.

Lemma filter_all {A} (P : A → Prop) `{!∀ x, Decision (P x)} (l : list A) :
  (∀ x, x ∈ l → P x) → filter P l = l.
Proof.
  induction l as [|x l IH]; intros HP; [done|].
  rewrite filter_cons_True by (apply HP; left).
  f_equal. apply IH. intros y Hy. apply HP. by right.
Qed.

Lemma call_cleanup_frame s f :
  gate_eq s (call_cleanup s f) ∧
  waiters (call_cleanup s f) = waiters s ∧
  next_timer (call_cleanup s f) = next_timer s ∧
  cleanup_log (call_cleanup s f) = cleanup_log s ++ [f] ∧
  idleWaiters (call_cleanup s f) = filter (λ w, DeleteWaiter w ≠ f) (idleWaiters s).
Proof.
  destruct f as [sg cb|t|w]; simpl; (split; [by repeat split|]);
    split_and!; try done.
  - symmetry. by apply filter_all.
  - symmetry. by apply filter_all.
  - apply list_filter_iff. intros x. split; congruence.
Qed.

Lemma foldl_call_cleanup_frame fs s :
  gate_eq s (foldl call_cleanup s fs) ∧
  waiters (foldl call_cleanup s fs) = waiters s ∧
  next_timer (foldl call_cleanup s fs) = next_timer s ∧
  cleanup_log (foldl call_cleanup s fs) = cleanup_log s ++ fs ∧
  idleWaiters (foldl call_cleanup s fs)
  = filter (λ w, DeleteWaiter w ∉ fs) (idleWaiters s).
Proof.
  revert s. induction fs as [|f fs IH]; intros s; simpl.
  - split; [apply gate_eq_refl|]. split_and!; try done.
    + by rewrite app_nil_r.
    + symmetry. apply filter_all. intros x _. apply not_elem_of_nil.
  - destruct (IH (call_cleanup s f)) as (Hg & Hw & Ht & Hl & Hi).
    destruct (call_cleanup_frame s f) as (Hg' & Hw' & Ht' & Hl' & Hi').
    split; [by eapply gate_eq_trans|]. split_and!; try congruence.
    + rewrite Hl, Hl'. by rewrite <- app_assoc.
    + rewrite Hi, Hi', list_filter_filter. apply list_filter_iff.
      intros x. rewrite not_elem_of_cons. tauto.
Qed.

Lemma entry_remove_noop e s :
  (∀ ent, entries s !! e = Some ent → removed ent = true) →
  entry_remove e s = s.
Proof.
  intros H. unfold entry_remove. destruct (entries s !! e) as [ent|]; [|done].
  by rewrite (H ent).
Qed.

Lemma entry_remove_spec e ent s :
  entries s !! e = Some ent → removed ent = false →
  let s' := entry_remove e s in
  active s' = active s ∧ queue s' = queue s ∧ calls s' = calls s ∧
  limit s' = limit s ∧ waiters s' = waiters s ∧ next_timer s' = next_timer s ∧
  entries s' = <[e := mkEntry (settled ent) (promise ent) (waiter ent) true []]> (entries s) ∧
  cleanup_log s' = cleanup_log s ++ cleanup ent ∧
  idleWaiters s' = filter (λ w, DeleteWaiter w ∉ cleanup ent) (idleWaiters s).
Proof.
  intros He Hr. unfold entry_remove. rewrite He, Hr. simpl.
  match goal with |- context [foldl call_cleanup ?s0 ?fs] =>
    destruct (foldl_call_cleanup_frame fs s0) as ((Ha & Hq & Hes & Hc & Hl) & Hw & Ht & Hlog & Hi)
  end.
  simpl in *. by split_and!.
Qed.

Lemma defer_resolve_spec e s :
  match entries s !! e with
  | Some ent =>
      if settled ent then defer_resolve e s = (s, false)
      else ∃ s', defer_resolve e s = (s', true) ∧
        active s' = active s ∧ queue s' = queue s ∧ limit s' = limit s ∧
        entries s' = <[e := mkEntry true Fulfilled (waiter ent) (removed ent) (cleanup ent)]> (entries s) ∧
        calls s' = <[waiter ent := CRunning]> (calls s) ∧
        waiters s' = waiters s ∧ idleWaiters s' = idleWaiters s ∧
        next_timer s' = next_timer s ∧ cleanup_log s' = cleanup_log s
  | None => defer_resolve e s = (s, false)
  end.
Proof.
  unfold defer_resolve. destruct (entries s !! e) as [ent|]; [|done].
  destruct (settled ent); [done|]. eexists. split; [done|]. by split_and!.
Qed.

Lemma defer_reject_spec e err s :
  match entries s !! e with
  | Some ent =>
      if settled ent then defer_reject e err s = (s, false)
      else ∃ s', defer_reject e err s = (s', true) ∧
        active s' = active s ∧ queue s' = queue s ∧ limit s' = limit s ∧
        entries s' = <[e := mkEntry true (Rejected err) (waiter ent) (removed ent) (cleanup ent)]> (entries s) ∧
        calls s' = <[waiter ent := CSettled (Threw err)]> (calls s) ∧
        waiters s' = waiters s ∧ idleWaiters s' = idleWaiters s ∧
        next_timer s' = next_timer s ∧ cleanup_log s' = cleanup_log s
  | None => defer_reject e err s = (s, false)
  end.
Proof.
  unfold defer_reject. destruct (entries s !! e) as [ent|]; [|done].
  destruct (settled ent); [done|]. eexists. split; [done|]. by split_and!.
Qed.

Lemma finish_frame w err s :
  gate_eq s (finish w err s) ∧ next_timer (finish w err s) = next_timer s.
Proof.
  unfold finish. destruct (waiters s !! w) as [r|]; [|split; [apply gate_eq_refl|done]].
  destruct (w_done r); [split; [apply gate_eq_refl|done]|].
  match goal with |- context [foldl call_cleanup ?s0 ?fs] =>
    destruct (foldl_call_cleanup_frame fs s0) as (Hg & Hw & Ht & Hlog & Hi);
    set (s2 := foldl call_cleanup s0 fs) in *
  end.
  destruct (waiters s2 !! w) as [r2|]; simpl; [|by split].
  destruct Hg as (? & ? & ? & ? & ?). by repeat split.
Qed.

Lemma foldl_finish_frame ws err s :
  gate_eq s (foldl (λ st w, finish w err st) s ws) ∧
  next_timer (foldl (λ st w, finish w err st) s ws) = next_timer s.
Proof.
  revert s. induction ws as [|w ws IH]; intros s; simpl.
  - split; [apply gate_eq_refl|done].
  - destruct (IH (finish w err s)) as [Hg Ht].
    destruct (finish_frame w err s) as [Hg' Ht'].
    split; [by eapply gate_eq_trans|congruence].
Qed.

Lemma emitIdleIfNeeded_frame s :
  gate_eq s (emitIdleIfNeeded s) ∧ next_timer (emitIdleIfNeeded s) = next_timer s.
Proof.
  unfold emitIdleIfNeeded.
  destruct (negb _ || negb _); [split; [apply gate_eq_refl|done]|].
  apply foldl_finish_frame.
Qed.

(** ** The release loop *)

Lemma live_b_spec es e : live_b es e = true ↔ live es e.
Proof.
  unfold live_b, live. destruct (es !! e) as [ent|]; split.
  - intros H. apply andb_true_iff in H as [H1 H2].
    apply negb_true_iff in H1, H2. by exists ent.
  - intros (ent' & [= <-] & -> & ->). done.
  - done.
  - by intros (? & ? & _).
Qed.

Lemma first_live_Some es q e post :
  first_live es q = Some (e, post) ↔
  ∃ pre, q = pre ++ e :: post ∧ (∀ x, x ∈ pre → ¬ live es x) ∧ live es e.
Proof.
  revert e post. induction q as [|x q IH]; intros e post; simpl.
  - split; [done|]. intros (pre & H & _). by destruct pre.
  - destruct (live_b es x) eqn:E.
    + apply live_b_spec in E. split.
      * intros [= -> ->]. exists []. split_and!; [done| |done].
        intros y Hy. by apply elem_of_nil in Hy.
      * intros ([|y pre] & Heq & Hpre & Hl); simplify_eq/=; [done|].
        exfalso. apply (Hpre y); [by left|done].
    + assert (¬ live es x) as Hx.
      { intros H. apply live_b_spec in H. congruence. }
      rewrite IH. split.
      * intros (pre & -> & Hpre & Hl). exists (x :: pre). split_and!; [done| |done].
        intros y Hy. apply elem_of_cons in Hy as [->|Hy]; [done|by apply Hpre].
      * intros ([|y pre] & Heq & Hpre & Hl); simplify_eq/=; [done|].
        exists pre. split_and!; [done| |done].
        intros z Hz. apply Hpre. by right.
Qed.

Lemma first_live_None es q :
  first_live es q = None ↔ ∀ x, x ∈ q → ¬ live es x.
Proof.
  induction q as [|x q IH]; simpl.
  - split; [|done]. intros _ y Hy. by apply elem_of_nil in Hy.
  - destruct (live_b es x) eqn:E.
    + apply live_b_spec in E. split; [done|]. intros H. exfalso. apply (H x); [by left|done].
    + rewrite IH. split.
      * intros H y Hy. apply elem_of_cons in Hy as [->|Hy]; [|by apply H].
        intros Hl. apply live_b_spec in Hl. congruence.
      * intros H y Hy. apply H. by right.
Qed.

Lemma first_live_ext es es' q :
  (∀ x, x ∈ q → live_b es' x = live_b es x) →
  first_live es' q = first_live es q.
Proof.
  induction q as [|x q IH]; intros H; simpl; [done|].
  rewrite (H x) by (by left). rewrite IH; [done|].
  intros y Hy. apply H. by right.
Qed.

Lemma release_loop_nil n s :
  queue s = [] →
  release_loop (S n) s = Some (emitIdleIfNeeded (set_active (active s - 1) (set_queue [] s))).
Proof. intros Hq. simpl. unfold shiftNext. rewrite Hq. done. Qed.

Lemma release_loop_tombstone n s x q ent :
  queue s = x :: q → entries s !! x = Some ent → removed ent = true →
  release_loop (S n) s = release_loop (S n) (set_queue q s).
Proof.
  intros Hq He Hr. simpl. unfold shiftNext. rewrite Hq. simpl. rewrite He, Hr.
  by destruct (shiftNext_from (entries s) q) as [[next|] q'].
Qed.

Lemma release_loop_head n s x q :
  queue s = x :: q →
  (∀ ent, entries s !! x = Some ent → removed ent = false) →
  release_loop (S n) s =
    match defer_resolve x (entry_remove x (set_queue q s)) with
    | (s3, true) => Some s3
    | (s3, false) => release_loop n s3
    end.
Proof.
  intros Hq Hr. simpl. unfold shiftNext. rewrite Hq. simpl.
  destruct (entries s !! x) as [ent|] eqn:He; [rewrite (Hr ent)|]; done.
Qed.


Lemma release_loop_spec q : ∀ s n, queue s = q → length q < n →
  match first_live (entries s) q with
  | Some (e, post) =>
      ∃ s' ent, release_loop n s = Some s' ∧ entries s !! e = Some ent ∧
        active s' = active s ∧ queue s' = post ∧ limit s' = limit s ∧
        entries s' !! e = Some (mkEntry true Fulfilled (waiter ent) true []) ∧
        calls s' = <[waiter ent := CRunning]> (calls s) ∧
        (∀ e', e' ≠ e → settlement <$> entries s' !! e' = settlement <$> entries s !! e')
  | None =>
      ∃ s1, release_loop n s = Some (emitIdleIfNeeded (set_active (active s - 1) s1)) ∧
        queue s1 = [] ∧ active s1 = active s ∧ limit s1 = limit s ∧
        calls s1 = calls s ∧
        (∀ e', settlement <$> entries s1 !! e' = settlement <$> entries s !! e')
  end.
Proof.
  induction q as [|x q IH]; intros s n Hq Hn.
  - destruct n as [|n]; [simpl in Hn; lia|]. simpl first_live.
    rewrite (release_loop_nil _ _ Hq). exists (set_queue [] s). by split_and!.
  - destruct n as [|n]; [simpl in Hn; lia|]. simpl in Hn. simpl first_live.
    destruct (entries s !! x) as [ent|] eqn:He.
    + destruct (removed ent) eqn:Hr.
      * (* a tombstone: skipped by shiftNext *)
        rewrite (release_loop_tombstone _ _ _ _ _ Hq He Hr).
        assert (live_b (entries s) x = false) as -> by (unfold live_b; by rewrite He, Hr).
        specialize (IH (set_queue q s) (S n) eq_refl ltac:(lia)). exact IH.
      * rewrite (release_loop_head _ _ _ _ Hq) by (intros ? ?; congruence).
        destruct (entry_remove_spec x ent (set_queue q s) He Hr)
          as (Ha & Hqq & Hc & Hl & Hw & Ht & Hes & Hlog & Hi).
        set (s2 := entry_remove x (set_queue q s)) in *. simpl in Ha, Hqq, Hc, Hl, Hes.
        assert (entries s2 !! x
                = Some (mkEntry (settled ent) (promise ent) (waiter ent) true [])) as He2.
        { rewrite Hes. apply list_lookup_insert_eq. by eapply lookup_lt_Some. }
        pose proof (defer_resolve_spec x s2) as Hres. rewrite He2 in Hres. simpl in Hres.
        destruct (settled ent) eqn:Hst.
        -- (* settled already: resolve fails, the loop goes on *)
           rewrite Hres.
           assert (live_b (entries s) x = false) as Hlx
             by (unfold live_b; by rewrite He, Hr, Hst).
           rewrite Hlx.
           assert (first_live (entries s2) q = first_live (entries s) q) as Hfl.
           { apply first_live_ext. intros y _. unfold live_b. rewrite Hes.
             destruct (decide (x = y)) as [<-|Hne].
             - rewrite list_lookup_insert_eq by (by eapply lookup_lt_Some).
               rewrite He. simpl. rewrite Hr, Hst. reflexivity.
             - by rewrite list_lookup_insert_ne. }
           assert (∀ e', settlement <$> entries s2 !! e' = settlement <$> entries s !! e') as Hsame.
           { intros e'. rewrite Hes. destruct (decide (x = e')) as [<-|Hne].
             - rewrite list_lookup_insert_eq by (by eapply lookup_lt_Some).
               rewrite He. unfold settlement. simpl. by rewrite Hst.
             - by rewrite list_lookup_insert_ne. }
           specialize (IH s2 n Hqq ltac:(lia)). rewrite Hfl in IH.
           destruct (first_live (entries s) q) as [[e post]|].
           ++ destruct IH as (s' & ent' & Hrl & He' & Ha' & Hq' & Hl' & Hee & Hc' & Hothers).
              pose proof (Hsame e) as Hse. rewrite He' in Hse.
              destruct (entries s !! e) as [ent0|] eqn:He0; [|done].
              simpl in Hse. injection Hse as _ _ Hwt.
              exists s', ent0. rewrite <- Hwt.
              split_and!; [done|done|congruence|done|congruence|done|congruence|].
              intros e' Hne. rewrite Hothers by done. apply Hsame.
           ++ destruct IH as (s1 & Hrl & Hq1 & Ha1 & Hl1 & Hc1 & Hsame1).
              exists s1. rewrite Hrl, Ha.
              split_and!; [done|done|congruence|congruence|congruence|].
              intros e'. rewrite Hsame1. apply Hsame.
        -- (* live: the slot is handed over *)
           destruct Hres as (s' & Hrs & Ha' & Hq' & Hl' & Hes' & Hc' & _).
           rewrite Hrs.
           assert (live_b (entries s) x = true) as ->
             by (unfold live_b; by rewrite He, Hr, Hst).
           exists s', ent. simpl in Hes'.
           split_and!; [done|done|congruence|congruence|congruence| |congruence|].
           ++ rewrite Hes'. apply list_lookup_insert_eq.
              rewrite Hes, length_insert. by eapply lookup_lt_Some.
           ++ intros e' Hne. rewrite Hes', Hes.
              by rewrite !list_lookup_insert_ne.
    + (* a reference to no entry: nothing to resolve *)
      rewrite (release_loop_head _ _ _ _ Hq) by (intros ? ?; congruence).
      assert (live_b (entries s) x = false) as -> by (unfold live_b; by rewrite He).
      rewrite (entry_remove_noop x (set_queue q s)) by (simpl; intros ? ?; congruence).
      pose proof (defer_resolve_spec x (set_queue q s)) as Hres. simpl in Hres.
      rewrite He in Hres. rewrite Hres.
      specialize (IH (set_queue q s) n eq_refl ltac:(lia)). exact IH.
Qed.

Lemma release_loop_total s : is_Some (release_loop (S (length (queue s))) s).
Proof.
  pose proof (release_loop_spec (queue s) s (S (length (queue s))) eq_refl ltac:(lia)) as H.
  destruct (first_live (entries s) (queue s)) as [[e post]|].
  - destruct H as (s' & ent & -> & _). by eexists.
  - destruct H as (s1 & -> & _). by eexists.
Qed.

Lemma release_loop_mono n : ∀ s s' m,
  release_loop n s = Some s' → n ≤ m → release_loop m s = Some s'.
Proof.
  induction n as [|n IH]; intros s s' m H Hm; [done|].
  destruct m as [|m]; [lia|]. simpl in *.
  destruct (shiftNext s) as [s1 [next|]]; [|done].
  destruct (defer_resolve next (entry_remove next s1)) as [s3 []]; [done|].
  apply IH; [done|lia].
Qed.

(** ** The operations on a state that satisfies the invariant *)

Lemma set_queue_id s : set_queue (queue s) s = s.
Proof. by destruct s. Qed.

Lemma release_nil s :
  queue s = [] → release s = emitIdleIfNeeded (set_active (active s - 1) s).
Proof.
  intros Hq. unfold release. rewrite Hq. simpl length.
  rewrite (release_loop_nil _ _ Hq). simpl. by rewrite <- Hq, set_queue_id.
Qed.

Lemma release_live s h q ent :
  queue s = h :: q → entries s !! h = Some ent →
  removed ent = false → settled ent = false →
  active (release s) = active s ∧ queue (release s) = q ∧
  limit (release s) = limit s ∧
  entries (release s) = <[h := mkEntry true Fulfilled (waiter ent) true []]> (entries s) ∧
  calls (release s) = <[waiter ent := CRunning]> (calls s) ∧
  waiters (release s) = waiters s ∧ next_timer (release s) = next_timer s ∧
  cleanup_log (release s) = cleanup_log s ++ cleanup ent ∧
  idleWaiters (release s) = filter (λ w, DeleteWaiter w ∉ cleanup ent) (idleWaiters s).
Proof.
  intros Hq He Hr Hst. unfold release. rewrite Hq. simpl length.
  rewrite (release_loop_head _ _ _ _ Hq) by (intros ? ?; congruence).
  destruct (entry_remove_spec h ent (set_queue q s) He Hr)
    as (Ha & Hqq & Hc & Hl & Hw & Ht & Hes & Hlog & Hi).
  set (s2 := entry_remove h (set_queue q s)) in *.
  simpl in Ha, Hqq, Hc, Hl, Hes, Hw, Ht, Hlog, Hi.
  assert (entries s2 !! h
          = Some (mkEntry (settled ent) (promise ent) (waiter ent) true [])) as He2.
  { rewrite Hes. apply list_lookup_insert_eq. by eapply lookup_lt_Some. }
  pose proof (defer_resolve_spec h s2) as Hres. rewrite He2 in Hres. simpl in Hres.
  rewrite Hst in Hres.
  destruct Hres as (s' & -> & Ha' & Hq' & Hl' & Hes' & Hc' & Hw' & Hi' & Ht' & Hlog').
  simpl in *. rewrite Hes, list_insert_insert_eq in Hes'.
  split_and!; congruence.
Qed.

Lemma removeFromQueue_noop e s :
  (∀ ent, entries s !! e = Some ent → removed ent = true) →
  removeFromQueue e s = s.
Proof.
  intros H. unfold removeFromQueue. destruct (entries s !! e) as [ent|]; [|done].
  by rewrite (H ent).
Qed.

Lemma removeFromQueue_eq e ent s :
  entries s !! e = Some ent → removed ent = false →
  removeFromQueue e s
  = emitIdleIfNeeded (set_queue (spliced e (queue s)) (entry_remove e s)).
Proof.
  intros He Hr. unfold removeFromQueue. rewrite He, Hr.
  destruct (entry_remove_spec e ent s He Hr) as (_ & Hq & _).
  unfold spliced. rewrite <- Hq.
  destruct (indexOf e (queue (entry_remove e s))); [done|].
  by rewrite set_queue_id.
Qed.

(** The abort listener and the timer callback of an entry that is still
    queued: the entry leaves the queue, rejected. *)
Lemma reject_queued e ent err s :
  entries s !! e = Some ent → removed ent = false → settled ent = false →
  let s' := fst (defer_reject e err (removeFromQueue e s)) in
  active s' = active s ∧ queue s' = spliced e (queue s) ∧ limit s' = limit s ∧
  entries s' = <[e := mkEntry true (Rejected err) (waiter ent) true []]> (entries s) ∧
  calls s' = <[waiter ent := CSettled (Threw err)]> (calls s) ∧
  next_timer s' = next_timer s.
Proof.
  intros He Hr Hst. rewrite (removeFromQueue_eq _ _ _ He Hr).
  destruct (entry_remove_spec e ent s He Hr)
    as (Ha & Hq & Hc & Hl & Hw & Ht & Hes & Hlog & Hi).
  match goal with |- context [emitIdleIfNeeded ?m] =>
    destruct (emitIdleIfNeeded_frame m) as ((Ha1 & Hq1 & Hes1 & Hc1 & Hl1) & Ht1);
    set (s1 := emitIdleIfNeeded m) in *
  end.
  simpl in Ha1, Hq1, Hes1, Hc1, Hl1, Ht1.
  assert (entries s1 !! e
          = Some (mkEntry (settled ent) (promise ent) (waiter ent) true [])) as He1.
  { rewrite Hes1, Hes. apply list_lookup_insert_eq. by eapply lookup_lt_Some. }
  pose proof (defer_reject_spec e err s1) as Hrej. rewrite He1 in Hrej. simpl in Hrej.
  rewrite Hst in Hrej.
  destruct Hrej as (s' & -> & Ha' & Hq' & Hl' & Hes' & Hc' & Hw' & Hi' & Ht' & Hlog').
  simpl in *. rewrite Hes1, Hes, list_insert_insert_eq in Hes'.
  split_and!; congruence.
Qed.

Lemma reject_gone e err s :
  (∀ ent, entries s !! e = Some ent → removed ent = true ∧ settled ent = true) →
  fst (defer_reject e err (removeFromQueue e s)) = s.
Proof.
  intros H. rewrite removeFromQueue_noop by (intros ent He; by apply H).
  pose proof (defer_reject_spec e err s) as Hrej.
  destruct (entries s !! e) as [ent|] eqn:He.
  - destruct (H ent eq_refl) as [_ Hst]. rewrite Hst in Hrej. by rewrite Hrej.
  - by rewrite Hrej.
Qed.

Lemma cleanup_push_last s es ent f :
  entries s = es ++ [ent] →
  cleanup_push (length es) f s
  = set_entries
      (es ++ [mkEntry (settled ent) (promise ent) (waiter ent) (removed ent)
                (cleanup ent ++ [f])]) s.
Proof.
  intros He. unfold cleanup_push. rewrite He.
  rewrite list_lookup_middle by done. f_equal.
  rewrite <- (Nat.add_0_r (length es)). by rewrite insert_app_r.
Qed.

Lemma waitForTurn_spec signal qt c s :
  signal_aborted signal s = false →
  ∃ s', waitForTurn signal qt c s = (s', inr (length (entries s))) ∧
    active s' = active s ∧ queue s' = queue s ++ [length (entries s)] ∧
    limit s' = limit s ∧
    entries s' = entries s ++
      [mkEntry false Pending c false
         (entry_cleanups signal qt (length (entries s)) (next_timer s))] ∧
    calls s' = calls s ∧
    waiters s' = waiters s ∧ idleWaiters s' = idleWaiters s ∧
    cleanup_log s' = cleanup_log s ∧
    next_timer s' = match qt with Some _ => S (next_timer s) | None => next_timer s end.
Proof.
  intros Hab. unfold waitForTurn. rewrite Hab.
  unfold makeQueueEntry, addAbortHandler, setTimeout, entry_cleanups.
  destruct signal as [sg|], qt as [ms|]; simpl.
  all: repeat match goal with
       | |- context [cleanup_push (length ?es) ?f ?st] =>
           lazymatch st with
           | context [cleanup_push] => fail
           | _ => rewrite (cleanup_push_last st es _ f eq_refl); simpl
           end
       end.
  all: eexists; split; [reflexivity|]; by split_and!.
Qed.

(** The synchronous part of [run], case by case. *)
Lemma run_cases o s :
  (∃ err, run o s = (s, RunRejected err)) ∨
  (js_lt (js_of_Z (active s)) (limit s) = true ∧
   run o s = (set_calls (calls s ++ [CRunning]) (set_active (active s + 1) s),
              RunAdmitted (length (calls s)))) ∨
  (js_lt (js_of_Z (active s)) (limit s) = false ∧
   ∃ s' signal qt, run o s = (s', RunQueued (length (calls s)) (length (entries s))) ∧
     active s' = active s ∧ queue s' = queue s ++ [length (entries s)] ∧
     limit s' = limit s ∧
     entries s' = entries s ++
       [mkEntry false Pending (length (calls s)) false
          (entry_cleanups signal qt (length (entries s)) (next_timer s))] ∧
     calls s' = calls s ++ [CWaiting (length (entries s))] ∧
     waiters s' = waiters s ∧ idleWaiters s' = idleWaiters s ∧
     cleanup_log s' = cleanup_log s ∧
     next_timer s' = match qt with Some _ => S (next_timer s) | None => next_timer s end).
Proof.
  unfold run.
  destruct (assertValidTimeoutMs _) as [err|]; [left; by eexists|].
  destruct (signal_aborted _ s) eqn:Hab; [left; by eexists|].
  unfold acquire. rewrite Hab.
  destruct (js_lt (js_of_Z (active s)) (limit s)) eqn:Hlt.
  { right; left. done. }
  destruct (js_ge _ _); [left; by eexists|].
  right; right. split; [done|].
  match goal with |- context [waitForTurn ?sg ?qt ?c s] =>
    destruct (waitForTurn_spec sg qt c s Hab)
      as (s' & -> & Ha & Hq & Hl & He & Hc & Hw & Hi & Hlog & Ht);
    exists (set_calls (calls s' ++ [CWaiting (length (entries s))]) s'), sg, qt
  end.
  simpl. rewrite Hc. by split_and!.
Qed.

(** ** The gate invariant holds in every reachable state *)

Lemma assertValidLimit_ok l :
  assertValidLimit l = None → ∃ x, l = JNum x ∧ (0 < x)%Q.
Proof.
  unfold assertValidLimit. destruct l as [x| | |]; simpl; try done.
  destruct (Qle_bool x 0) eqn:E; [done|]. intros _. exists x. split; [done|].
  apply Qnot_le_lt. intros Hle. apply Qle_bool_iff in Hle. congruence.
Qed.

Lemma GateInv_new l o s : new_Limiter l o = inr s → GateInv s.
Proof.
  unfold new_Limiter. destruct (assertValidLimit l) eqn:Hl; [done|].
  destruct (assertValidMaxQueue _); [done|].
  destruct (assertValidTimeoutMs _); [done|]. intros [= <-].
  apply assertValidLimit_ok in Hl as (x & -> & Hx).
  unfold GateInv. simpl. split.
  - by exists x.
  - done.
  - intros y [= <-]. simpl. unfold inject_Z. lra.
  - done.
  - constructor.
  - intros e He. by apply elem_of_nil in He.
  - intros e ent He. by rewrite lookup_nil in He.
  - intros e ent He. by rewrite lookup_nil in He.
  - intros e ent He. by rewrite lookup_nil in He.
  - intros e ent He. by rewrite lookup_nil in He.
  - intros e1 e2 ent1 ent2 _ He. by rewrite lookup_nil in He.
Qed.

Lemma GateInv_run o s : GateInv s → GateInv (fst (run o s)).
Proof.
  intros Hinv. destruct (run_cases o s) as [[err ->]|[[Hlt ->]|[Hlt H]]]; [done| |].
  - unfold GateInv. simpl. by apply gate_inv_admit.
  - destruct H as (s' & sg & qt & -> & Ha & Hq & Hl & He & Hc & _).
    unfold GateInv. simpl. rewrite Ha, Hq, Hl, He, Hc.
    by apply gate_inv_enqueue.
Qed.

Lemma GateInv_complete c o s : GateInv s → GateInv (complete c o s).
Proof.
  intros Hinv. unfold complete.
  destruct (calls s !! c) as [[e| |o']|] eqn:Hc; try done.
  destruct (queue s) as [|h q] eqn:Hq.
  - rewrite (release_nil _ Hq).
    match goal with |- context [emitIdleIfNeeded ?m] =>
      destruct (emitIdleIfNeeded_frame m) as ((Ha1 & Hq1 & Hes1 & Hc1 & Hl1) & _)
    end.
    unfold GateInv. simpl. rewrite Ha1, Hq1, Hes1, Hc1, Hl1. simpl. rewrite Hq.
    apply gate_inv_free; [|done]. unfold GateInv in Hinv. by rewrite Hq in Hinv.
  - destruct (gi_queued _ _ _ _ _ Hinv h) as (ent & He & Hr & Hst).
    { rewrite Hq. by left. }
    destruct (release_live s h q ent Hq He Hr Hst) as (Ha & Hq' & Hl & Hes & Hcs & _).
    unfold GateInv. simpl. rewrite Ha, Hq', Hl, Hes, Hcs.
    apply gate_inv_handoff; [|done|done]. unfold GateInv in Hinv. by rewrite Hq in Hinv.
Qed.

Lemma GateInv_invoke cb s : GateInv s → GateInv (invoke cb s).
Proof.
  intros Hinv.
  assert (∀ e err, GateInv (fst (defer_reject e err (removeFromQueue e s)))) as Hent.
  { intros e err. destruct (entries s !! e) as [ent|] eqn:He.
    - destruct (removed ent) eqn:Hr.
      + rewrite reject_gone; [done|]. intros ent' He'. simplify_eq.
        split; [done|]. by rewrite (gi_settled _ _ _ _ _ Hinv _ _ He).
      + assert (settled ent = false) as Hst
          by (by rewrite (gi_settled _ _ _ _ _ Hinv _ _ He)).
        destruct (reject_queued e ent err s He Hr Hst) as (Ha & Hq & Hl & Hes & Hc & _).
        unfold GateInv. rewrite Ha, Hq, Hl, Hes, Hc. by apply gate_inv_reject.
    - rewrite reject_gone; [done|]. intros ent' He'. congruence. }
  destruct cb as [e|e|w|w]; simpl; try apply Hent.
  - eapply gate_eq_inv; [apply finish_frame|done].
  - eapply gate_eq_inv; [apply finish_frame|done].
Qed.

Lemma GateInv_dispatch sg cbs : ∀ s,
  GateInv s → GateInv (foldl (dispatch_one sg) s cbs).
Proof.
  induction cbs as [|cb cbs IH]; intros s Hinv; simpl; [done|].
  apply IH. unfold dispatch_one. case_bool_decide; [|done].
  apply GateInv_invoke. eapply gate_eq_inv; [|done]. by repeat split.
Qed.

Lemma GateInv_abort sg s : GateInv s → GateInv (abort sg s).
Proof.
  intros Hinv. unfold abort. case_bool_decide; [done|].
  apply GateInv_dispatch. eapply gate_eq_inv; [|done]. by repeat split.
Qed.

Lemma GateInv_fire t s : GateInv s → GateInv (fire t s).
Proof.
  intros Hinv. unfold fire. destruct (lookup_timer t (timers s)); [|done].
  apply GateInv_invoke. eapply gate_eq_inv; [|done]. by repeat split.
Qed.

Lemma cleanups_push_frame w f s :
  gate_eq s (cleanups_push w f s) ∧
  idleWaiters (cleanups_push w f s) = idleWaiters s ∧
  next_timer (cleanups_push w f s) = next_timer s ∧
  cleanup_log (cleanups_push w f s) = cleanup_log s.
Proof.
  unfold cleanups_push. destruct (waiters s !! w); by repeat split.
Qed.

Lemma onIdle_gate_eq o s : gate_eq s (fst (onIdle o s)).
Proof.
  unfold onIdle. destruct (assertValidTimeoutMs _); [apply gate_eq_refl|].
  destruct (signal_aborted _ s); [apply gate_eq_refl|].
  destruct (_ && _); [apply gate_eq_refl|].
  unfold addAbortHandler, setTimeout.
  destruct (io_signal o) as [sg|], (io_timeoutMs o) as [ms|]; simpl.
  all: eapply gate_eq_trans; [|apply emitIdleIfNeeded_frame].
  all: repeat (eapply gate_eq_trans; [|apply cleanups_push_frame]; simpl).
  all: by repeat split.
Qed.

Lemma GateInv_apply s ev : GateInv s → GateInv (apply s ev).
Proof.
  intros Hinv. destruct ev as [o|c o|sg|t|o]; simpl.
  - by apply GateInv_run.
  - by apply GateInv_complete.
  - by apply GateInv_abort.
  - by apply GateInv_fire.
  - eapply gate_eq_inv; [apply onIdle_gate_eq|done].
Qed.

Lemma reachable_GateInv s : reachable s → GateInv s.
Proof.
  induction 1 as [l o s Hnew|s ev _ IH].
  - by eapply GateInv_new.
  - by apply GateInv_apply.
Qed.

Lemma reachable_exec s evs : reachable s → reachable (exec s evs).
Proof.
  revert s. induction evs as [|ev evs IH]; intros s Hs; simpl; [done|].
  apply IH. by constructor.
Qed.

(** ** Only [release] admits *)

Lemma no_admit_refl s : no_admit s s.
Proof. intros e ent He Hf. by exists ent. Qed.

Lemma no_admit_trans s1 s2 s3 : no_admit s1 s2 → no_admit s2 s3 → no_admit s1 s3.
Proof.
  intros H1 H2 e ent3 He Hf. destruct (H2 e ent3 He Hf) as (ent2 & He2 & Hf2).
  by apply (H1 e ent2).
Qed.

Lemma no_admit_same s s' : entries s' = entries s → no_admit s s'.
Proof. intros Hes e ent He Hf. exists ent. by rewrite <- Hes. Qed.

Lemma no_admit_insert s s' e ent ent' :
  entries s !! e = Some ent → entries s' = <[e := ent']> (entries s) →
  (promise ent' = Fulfilled → promise ent = Fulfilled) → no_admit s s'.
Proof.
  intros He Hes Hp e' x Hx Hf. rewrite Hes in Hx.
  destruct (decide (e = e')) as [<-|Hne].
  - rewrite list_lookup_insert_eq in Hx by (by eapply lookup_lt_Some).
    simplify_eq. exists ent. split; [done|by apply Hp].
  - rewrite list_lookup_insert_ne in Hx by done. by exists x.
Qed.

Lemma entry_remove_no_admit e s : no_admit s (entry_remove e s).
Proof.
  destruct (entries s !! e) as [ent|] eqn:He.
  - destruct (removed ent) eqn:Hr.
    + rewrite entry_remove_noop by (intros; congruence). apply no_admit_refl.
    + destruct (entry_remove_spec e ent s He Hr) as (_ & _ & _ & _ & _ & _ & Hes & _).
      by eapply (no_admit_insert s _ e ent).
  - rewrite entry_remove_noop by (intros; congruence). apply no_admit_refl.
Qed.

Lemma defer_reject_no_admit e err s : no_admit s (fst (defer_reject e err s)).
Proof.
  pose proof (defer_reject_spec e err s) as H.
  destruct (entries s !! e) as [ent|] eqn:He; [|rewrite H; apply no_admit_refl].
  destruct (settled ent); [rewrite H; apply no_admit_refl|].
  destruct H as (s' & -> & _ & _ & _ & Hes & _). simpl.
  by eapply (no_admit_insert s s' e ent).
Qed.

Lemma removeFromQueue_no_admit e s : no_admit s (removeFromQueue e s).
Proof.
  destruct (entries s !! e) as [ent|] eqn:He.
  - destruct (removed ent) eqn:Hr.
    + rewrite removeFromQueue_noop by (intros; congruence). apply no_admit_refl.
    + rewrite (removeFromQueue_eq _ _ _ He Hr).
      eapply no_admit_trans; [apply (entry_remove_no_admit e)|].
      apply no_admit_same.
      match goal with |- context [emitIdleIfNeeded ?m] =>
        by destruct (emitIdleIfNeeded_frame m) as ((_ & _ & -> & _) & _)
      end.
  - rewrite removeFromQueue_noop by (intros; congruence). apply no_admit_refl.
Qed.

Lemma invoke_no_admit cb s : no_admit s (invoke cb s).
Proof.
  destruct cb as [e|e|w|w]; simpl.
  - eapply no_admit_trans; [apply removeFromQueue_no_admit|apply defer_reject_no_admit].
  - eapply no_admit_trans; [apply removeFromQueue_no_admit|apply defer_reject_no_admit].
  - apply no_admit_same. by destruct (finish_frame w (Some (AbortError IdleWait)) s)
      as ((_ & _ & -> & _) & _).
  - apply no_admit_same. by destruct (finish_frame w (Some IdleTimeoutError) s)
      as ((_ & _ & -> & _) & _).
Qed.

Lemma dispatch_no_admit sg cbs : ∀ s, no_admit s (foldl (dispatch_one sg) s cbs).
Proof.
  induction cbs as [|cb cbs IH]; intros s; simpl; [apply no_admit_refl|].
  eapply no_admit_trans; [|apply IH].
  unfold dispatch_one. case_bool_decide; [|apply no_admit_refl].
  eapply no_admit_trans; [|apply invoke_no_admit]. by apply no_admit_same.
Qed.

(** An event admits an entry only if it is a task finishing while that
    entry is the head of the queue. *)
Lemma apply_admits_head s ev e ent' :
  GateInv s →
  entries (apply s ev) !! e = Some ent' → promise ent' = Fulfilled →
  (∃ ent, entries s !! e = Some ent ∧ promise ent = Fulfilled) ∨
  (∃ c o q, ev = EvComplete c o ∧ calls s !! c = Some CRunning ∧ queue s = e :: q).
Proof.
  intros Hg He Hf. destruct ev as [o|c o|sg|t|o]; simpl in He.
  - left. destruct (run_cases o s) as [[err Hrun]|[[Hlt Hrun]|[Hlt H]]].
    + rewrite Hrun in He. by exists ent'.
    + rewrite Hrun in He. by exists ent'.
    + destruct H as (s' & sg & qt & Hrun & _ & _ & _ & Hes & _).
      rewrite Hrun in He. simpl in He. rewrite Hes in He.
      apply lookup_snoc_Some in He as [[_ He]|[_ <-]]; [by exists ent'|done].
  - unfold complete in He.
    destruct (calls s !! c) as [[e0| |o']|] eqn:Hc; try (left; by exists ent').
    simpl in He. destruct (queue s) as [|h q] eqn:Hq.
    + left. rewrite (release_nil _ Hq) in He.
      match type of He with context [emitIdleIfNeeded ?m] =>
        destruct (emitIdleIfNeeded_frame m) as ((_ & _ & Hes & _) & _)
      end.
      rewrite Hes in He. by exists ent'.
    + destruct (gi_queued _ _ _ _ _ Hg h) as (ent & Hh & Hr & Hse).
      { rewrite Hq. by left. }
      destruct (release_live s h q ent Hq Hh Hr Hse) as (_ & _ & _ & Hes & _).
      rewrite Hes in He. destruct (decide (h = e)) as [->|Hne].
      * right. by exists c, o, q.
      * left. rewrite list_lookup_insert_ne in He by done. by exists ent'.
  - left. unfold abort in He. case_bool_decide; [by exists ent'|].
    eapply (no_admit_trans s); [|apply dispatch_no_admit|exact He|exact Hf].
    by apply no_admit_same.
  - left. unfold fire in He. destruct (lookup_timer t (timers s)); [|by exists ent'].
    eapply (no_admit_trans s); [|apply invoke_no_admit|exact He|exact Hf].
    by apply no_admit_same.
  - left. destruct (onIdle_gate_eq o s) as (_ & _ & Hes & _).
    rewrite Hes in He. by exists ent'.
Qed.

(** ** The claims about the gate *)

Lemma release_spec s :
  match first_live (entries s) (queue s) with
  | Some (e, post) =>
      ∃ ent, entries s !! e = Some ent ∧
        active (release s) = active s ∧ queue (release s) = post ∧
        limit (release s) = limit s ∧
        entries (release s) !! e = Some (mkEntry true Fulfilled (waiter ent) true []) ∧
        calls (release s) = <[waiter ent := CRunning]> (calls s) ∧
        (∀ e', e' ≠ e →
           settlement <$> entries (release s) !! e' = settlement <$> entries s !! e')
  | None =>
      ∃ s1, release s = emitIdleIfNeeded (set_active (active s - 1) s1) ∧
        queue s1 = [] ∧ active s1 = active s ∧
        active (release s) = (active s - 1)%Z ∧ queue (release s) = [] ∧
        limit (release s) = limit s ∧ calls (release s) = calls s ∧
        (∀ e', settlement <$> entries (release s) !! e' = settlement <$> entries s !! e')
  end.
Proof.
  pose proof (release_loop_spec (queue s) s (S (length (queue s))) eq_refl ltac:(lia)) as H.
  unfold release. destruct (first_live (entries s) (queue s)) as [[e post]|].
  - destruct H as (s' & ent & -> & He & H). exists ent. by split.
  - destruct H as (s1 & -> & Hq & Ha & Hl & Hc & Hs). exists s1. simpl.
    match goal with |- context [emitIdleIfNeeded ?m] =>
      destruct (emitIdleIfNeeded_frame m) as ((Ha1 & Hq1 & Hes1 & Hc1 & Hl1) & _)
    end.
    simpl in *. rewrite Ha1, Hq1, Hes1, Hc1, Hl1. by split_and!.
Qed.

Lemma release_active s :
  active (release s) = active s ∨ active (release s) = (active s - 1)%Z.
Proof.
  pose proof (release_spec s) as H.
  destruct (first_live (entries s) (queue s)) as [[e post]|].
  - destruct H as (ent & _ & Ha & _). by left.
  - destruct H as (s1 & _ & _ & _ & Ha & _). by right.
Qed.

Lemma run_active o s :
  active (fst (run o s)) = active s ∨
  (js_lt (js_of_Z (active s)) (limit s) = true ∧
   active (fst (run o s)) = (active s + 1)%Z).
Proof.
  destruct (run_cases o s) as [[err ->]|[[Hlt ->]|[Hlt H]]].
  - by left.
  - by right.
  - destruct H as (s' & sg & qt & -> & Ha & _). by left.
Qed.

Lemma reachable_two_and_a_half : reachable two_and_a_half.
Proof. apply reachable_exec. by eapply (reachable_new (JNum (5 # 2)) no_opts). Qed.

Lemma reachable_one_running_two_queued : reachable one_running_two_queued.
Proof. apply reachable_exec. by eapply (reachable_new (JNum 1) no_opts). Qed.

Lemma reachable_one_running_one_timed : reachable one_running_one_timed.
Proof. apply reachable_exec. by eapply (reachable_new (JNum 1) no_opts). Qed.

(** C1: the code breaks the bound at a limit that is not an integer.
    [new Limiter(2.5)] passes [assertValidLimit], and after three [run]
    calls three tasks hold a slot, which is more than the limit, against
    the README ("The concurrency limit is never exceeded"), the docstring
    of [run] and the test "never exceeds limit". *)
Lemma active_exceeds_fractional_limit :
  ∃ s l, reachable s ∧ limit s = JNum l ∧ active s = 3%Z ∧
         ¬ (inject_Z (active s) <= l)%Q.
Proof.
  exists two_and_a_half, (5 # 2)%Q.
  split; [apply reachable_two_and_a_half|].
  split; [reflexivity|]. split; [reflexivity|].
  intros H. vm_compute in H. by apply H.
Qed.

(** X20: what the gate keeps whatever the limit. In every reachable
    state [0 <= active < limit + 1], so the bound [active <= limit] holds
    whenever the limit is an integer; [run] increments [active] only when
    [active < limit], and [release] (handing the slot over or freeing it)
    never increments it. *)
Theorem active_within_limit s :
  reachable s →
  (0 <= active s)%Z ∧
  (∃ l, limit s = JNum l ∧ (inject_Z (active s) < l + 1)%Q ∧
        ∀ n : Z, (l == inject_Z n)%Q → (active s <= n)%Z) ∧
  (∀ o, active (fst (run o s)) = active s ∨
        (js_lt (js_of_Z (active s)) (limit s) = true ∧
         active (fst (run o s)) = (active s + 1)%Z)) ∧
  (active (release s) = active s ∨ active (release s) = (active s - 1)%Z).
Proof.
  intros Hr. pose proof (reachable_GateInv s Hr) as Hinv.
  split_and!.
  - rewrite (gi_count _ _ _ _ _ Hinv). lia.
  - destruct (gi_limit _ _ _ _ _ Hinv) as (l & Hl & Hpos).
    exists l. split; [done|].
    pose proof (gi_upper _ _ _ _ _ Hinv l Hl) as Hu. split; [done|].
    intros n Hn. rewrite Hn in Hu.
    rewrite <- inject_Z_succ in Hu. rewrite <- Zlt_Qlt in Hu. lia.
  - intros o. apply run_active.
  - apply release_active.
Qed.

Lemma active_within_limit_witness :
  reachable one_running_two_queued ∧ (0 <= active one_running_two_queued)%Z.
Proof.
  split; [apply reachable_one_running_two_queued|].
  apply (active_within_limit one_running_two_queued reachable_one_running_two_queued).
Defined.

(** C8: in every reachable state no entry in the queue array is marked
    removed, so [pendingCount], the length of the array, is the number of
    entries in it that are not removed. *)
Theorem pendingCount_counts_live s :
  reachable s →
  (∀ e, e ∈ queue s → ∃ ent, entries s !! e = Some ent ∧ removed ent = false) ∧
  pendingCount s = length (filter (λ e, tombstoned (entries s) e = false) (queue s)).
Proof.
  intros Hr. pose proof (reachable_GateInv s Hr) as Hinv.
  assert (∀ e, e ∈ queue s → ∃ ent, entries s !! e = Some ent ∧ removed ent = false) as H.
  { intros e He. destruct (gi_queued _ _ _ _ _ Hinv e He) as (ent & ? & ? & _).
    by exists ent. }
  split; [done|]. unfold pendingCount. rewrite filter_all; [done|].
  intros e He. destruct (H e He) as (ent & Hent & Hrm).
  unfold tombstoned. by rewrite Hent.
Qed.

Lemma pendingCount_counts_live_witness :
  reachable one_running_two_queued ∧ pendingCount one_running_two_queued = 2.
Proof.
  split; [apply reachable_one_running_two_queued|].
  apply (pendingCount_counts_live one_running_two_queued
           reachable_one_running_two_queued).
Defined.

(** C2: arrival order is heap order ([run] gives a queued call the next
    entry and appends it at the tail), the queue is sorted by arrival and
    holds exactly the entries whose promise is pending, [release] fulfils
    the head, and nothing else fulfils an entry; hence when an entry is
    admitted every entry that arrived before it has already been admitted
    or rejected. *)
Theorem fifo_admission s :
  reachable s →
  StronglySorted lt (queue s) ∧
  (∀ e ent, entries s !! e = Some ent → (e ∈ queue s ↔ promise ent = Pending)) ∧
  (∀ o c e, snd (run o s) = RunQueued c e →
     e = length (entries s) ∧ queue (fst (run o s)) = queue s ++ [e]) ∧
  (∀ h q, queue s = h :: q →
     (∃ ent, entries s !! h = Some ent ∧ queue (release s) = q ∧
        entries (release s)
        = <[h := mkEntry true Fulfilled (waiter ent) true []]> (entries s)) ∧
     (∀ e1 ent1, e1 < h → entries s !! e1 = Some ent1 → promise ent1 ≠ Pending)) ∧
  (∀ e1 e2 ent1 ent2, e1 < e2 →
     entries s !! e1 = Some ent1 → entries s !! e2 = Some ent2 →
     promise ent2 = Fulfilled → promise ent1 ≠ Pending) ∧
  (∀ ev e ent',
     entries (apply s ev) !! e = Some ent' → promise ent' = Fulfilled →
     (∃ ent, entries s !! e = Some ent ∧ promise ent = Fulfilled) ∨
     (∃ c o q, ev = EvComplete c o ∧ calls s !! c = Some CRunning ∧
        queue s = e :: q)).
Proof.
  intros Hr. pose proof (reachable_GateInv s Hr) as Hinv.
  assert (∀ e ent, entries s !! e = Some ent →
            (e ∈ queue s ↔ promise ent = Pending)) as Hpend.
  { intros e ent He. rewrite <- (gi_promise _ _ _ _ _ Hinv _ _ He). split.
    - intros Hin. destruct (gi_queued _ _ _ _ _ Hinv e Hin) as (ent' & ? & _ & ?).
      congruence.
    - intros Hst. eapply gate_inv_elem_removed; [done..|].
      by rewrite <- (gi_settled _ _ _ _ _ Hinv _ _ He). }
  assert (∀ e ent, entries s !! e = Some ent → removed ent = true →
            promise ent ≠ Pending) as Hrem.
  { intros e ent He Hrm Hp. apply (gi_promise _ _ _ _ _ Hinv _ _ He) in Hp.
    rewrite (gi_settled _ _ _ _ _ Hinv _ _ He) in Hp. congruence. }
  split_and!.
  - apply (gi_sorted _ _ _ _ _ Hinv).
  - done.
  - intros o c e Hres.
    destruct (run_cases o s) as [[err Hrun]|[[Hlt Hrun]|[Hlt H]]].
    + rewrite Hrun in Hres. done.
    + rewrite Hrun in Hres. done.
    + destruct H as (s' & sg & qt & Hrun & Ha & Hq & _).
      rewrite Hrun in Hres |- *. simpl in *. by injection Hres as _ <-.
  - intros h q Hq. pose proof (gi_sorted _ _ _ _ _ Hinv) as Hs. rewrite Hq in Hs.
    apply StronglySorted_inv in Hs as [_ Hmin].
    destruct (gi_queued _ _ _ _ _ Hinv h) as (ent & He & Hrm & Hst).
    { rewrite Hq. by left. }
    split.
    + destruct (release_live s h q ent Hq He Hrm Hst) as (_ & Hq' & _ & Hes & _).
      by exists ent.
    + intros e1 ent1 Hlt He1. eapply Hrem; [done|].
      eapply (gi_gone _ _ _ _ _ Hinv); [done|]. rewrite Hq.
      rewrite not_elem_of_cons. split; [lia|].
      intros Hin. eapply Forall_forall in Hmin; [|exact Hin]. lia.
  - intros e1 e2 ent1 ent2 Hlt He1 He2 Hful. eapply Hrem; [done|].
    by eapply (gi_fifo _ _ _ _ _ Hinv e1 e2).
  - intros ev e ent' He Hful. by eapply apply_admits_head.
Qed.

Lemma fifo_admission_witness :
  reachable one_running_two_queued ∧ StronglySorted lt (queue one_running_two_queued).
Proof.
  split; [apply reachable_one_running_two_queued|].
  apply (fifo_admission one_running_two_queued reachable_one_running_two_queued).
Defined.

(** C3: [release], from any state. The loop ends within one iteration
    per queue slot and one more. If the queue holds a live entry, the
    entries in front of the first live one are dropped (tombstones are
    skipped, an entry whose [resolve] fails is passed over), that entry
    is resolved and nothing else is, the queue keeps what followed it and
    [active] is unchanged. If the queue holds no live entry, it is
    emptied, nothing is resolved, [active] is decremented and the idle
    check runs. *)
Theorem release_handoff s :
  (∃ s', release_loop (S (length (queue s))) s = Some s' ∧ release s = s') ∧
  (∀ pre e post,
     queue s = pre ++ e :: post →
     (∀ x, x ∈ pre → ¬ live (entries s) x) → live (entries s) e →
     active (release s) = active s ∧ queue (release s) = post ∧
     (∃ ent, entries s !! e = Some ent ∧
        entries (release s) !! e = Some (mkEntry true Fulfilled (waiter ent) true []) ∧
        calls (release s) = <[waiter ent := CRunning]> (calls s)) ∧
     (∀ e', e' ≠ e →
        settlement <$> entries (release s) !! e' = settlement <$> entries s !! e')) ∧
  ((∀ x, x ∈ queue s → ¬ live (entries s) x) →
     (∃ s1, release s = emitIdleIfNeeded (set_active (active s - 1) s1) ∧
        queue s1 = [] ∧ active s1 = active s) ∧
     active (release s) = (active s - 1)%Z ∧ queue (release s) = [] ∧
     calls (release s) = calls s ∧
     (∀ e', settlement <$> entries (release s) !! e' = settlement <$> entries s !! e')).
Proof.
  pose proof (release_spec s) as H. split_and!.
  - destruct (release_loop_total s) as [s' Hs']. exists s'.
    split; [done|]. unfold release. by rewrite Hs'.
  - intros pre e post Hq Hpre Hlive.
    assert (first_live (entries s) (queue s) = Some (e, post)) as Hfl.
    { apply first_live_Some. by exists pre. }
    rewrite Hfl in H. destruct H as (ent & He & Ha & Hq' & _ & Hee & Hc & Hoth).
    split_and!; [done|done| |done]. by exists ent.
  - intros Hnone. apply first_live_None in Hnone. rewrite Hnone in H.
    destruct H as (s1 & Hrel & Hq1 & Ha1 & Ha & Hq & _ & Hc & Hs).
    split_and!; try done. by exists s1.
Qed.

Lemma release_handoff_witness :
  queue (release one_running_two_queued) = [1] ∧
  active (release one_running_two_queued) = active one_running_two_queued.
Proof.
  destruct (proj1 (proj2 (release_handoff one_running_two_queued)) [] 0 [1])
    as (Ha & Hq & _).
  - reflexivity.
  - intros x Hx. by apply elem_of_nil in Hx.
  - eexists. split; [reflexivity|]. by split.
  - by split.
Defined.

(** C4, as stated, fails: [run] checks the effective [queueTimeoutMs]
    before the signal and before [acquire]. With [queueTimeoutMs: -1] a
    call whose signal is already aborted, and a call that finds no free
    slot and a full queue, are both rejected with [RangeError], not with
    [AbortError] or [QueueOverflowError]. *)
Lemma run_refused_invalid_timeout :
  (let s := exec (lim 1 no_opts) [EvAbort 4] in
   let o := mkRunOptions (Some 4) (Some (JNum (-1))) in
   reachable s ∧
   signal_aborted (nullish (ro_signal o) (defaultSignal s)) s = true ∧
   snd (run o s) = RunRejected RangeError ∧
   snd (run o s) ≠ RunRejected (AbortError BeforeStart)) ∧
  (let s := no_queue_busy in
   let o := mkRunOptions None (Some (JNum (-1))) in
   reachable s ∧
   signal_aborted (nullish (ro_signal o) (defaultSignal s)) s = false ∧
   js_ge (js_of_Z (active s)) (limit s) = true ∧
   js_ge (js_of_nat (length (queue s))) (maxQueue s) = true ∧
   snd (run o s) = RunRejected RangeError ∧
   snd (run o s) ≠ RunRejected QueueOverflowError).
Proof.
  split; cbv zeta.
  - split_and!; [|by vm_compute..].
    apply reachable_exec. by eapply (reachable_new (JNum 1) no_opts).
  - split_and!; [|by vm_compute..].
    apply reachable_exec.
    by eapply (reachable_new (JNum 1) (mkLimiterOptions (Some (JNum 0)) None None)).
Qed.

(** C4, amended: with a valid queue timeout, a [run] call whose signal is
    already aborted is rejected with [AbortError], and otherwise a call
    that finds no free slot and a full queue is rejected with
    [QueueOverflowError]; either way the state is the one before the
    call. *)
Theorem run_refused o s :
  assertValidTimeoutMs (nullish (ro_queueTimeoutMs o) (defaultQueueTimeoutMs s)) = None →
  (signal_aborted (nullish (ro_signal o) (defaultSignal s)) s = true →
   run o s = (s, RunRejected (AbortError BeforeStart))) ∧
  (signal_aborted (nullish (ro_signal o) (defaultSignal s)) s = false →
   js_ge (js_of_Z (active s)) (limit s) = true →
   js_ge (js_of_nat (length (queue s))) (maxQueue s) = true →
   run o s = (s, RunRejected QueueOverflowError)).
Proof.
  intros Hvalid. unfold run. rewrite Hvalid. split.
  - by intros ->.
  - intros Hab Hfull Hover. rewrite Hab. unfold acquire. rewrite Hab.
    by rewrite (js_ge_not_lt _ _ Hfull), Hover.
Qed.

Lemma run_refused_witness :
  run plain (exec (lim 1 (mkLimiterOptions (Some (JNum 0)) None None)) [EvRun plain])
  = (exec (lim 1 (mkLimiterOptions (Some (JNum 0)) None None)) [EvRun plain],
     RunRejected QueueOverflowError) ∧
  run (mkRunOptions (Some 4) None) (exec (lim 1 no_opts) [EvAbort 4])
  = (exec (lim 1 no_opts) [EvAbort 4], RunRejected (AbortError BeforeStart)).
Proof.
  split.
  - apply (run_refused plain
             (exec (lim 1 (mkLimiterOptions (Some (JNum 0)) None None)) [EvRun plain]));
      reflexivity.
  - apply (run_refused (mkRunOptions (Some 4) None) (exec (lim 1 no_opts) [EvAbort 4]));
      reflexivity.
Defined.

(** C10: [run] validates the effective [queueTimeoutMs] first: when it is
    negative or not finite the call is rejected with [RangeError] and the
    state is the one before the call, whatever the signal and however
    many slots are free. *)
Theorem run_invalid_timeout o s x :
  nullish (ro_queueTimeoutMs o) (defaultQueueTimeoutMs s) = Some x →
  (isFinite x = false ∨ ∃ q, x = JNum q ∧ (q < 0)%Q) →
  run o s = (s, RunRejected RangeError).
Proof.
  intros Heff Hbad. unfold run. rewrite Heff.
  assert (assertValidTimeoutMs (Some x) = Some RangeError) as ->; [|done].
  unfold assertValidTimeoutMs. destruct Hbad as [->|(q & -> & Hq)]; [done|].
  simpl. apply Qlt_bool_iff in Hq. by rewrite Hq.
Qed.

Lemma run_invalid_timeout_witness :
  run (mkRunOptions (Some 4) (Some (JNum (-1)))) (exec (lim 3 no_opts) [EvAbort 4])
  = (exec (lim 3 no_opts) [EvAbort 4], RunRejected RangeError) ∧
  run (mkRunOptions None (Some JNaN)) (lim 3 no_opts)
  = (lim 3 no_opts, RunRejected RangeError).
Proof.
  split.
  - apply (run_invalid_timeout _ _ (JNum (-1))); [reflexivity|].
    right. exists (-1)%Q. split; reflexivity.
  - apply (run_invalid_timeout _ _ JNaN); [reflexivity|]. by left.
Defined.

Lemma do_call_settled e ent s c :
  entries s !! e = Some ent → settled ent = true → do_call e s c = (s, false).
Proof.
  intros He Hst. destruct c as [|err]; simpl.
  - pose proof (defer_resolve_spec e s) as H. by rewrite He, Hst in H.
  - pose proof (defer_reject_spec e err s) as H. by rewrite He, Hst in H.
Qed.

Lemma do_calls_settled e ent s cs :
  entries s !! e = Some ent → settled ent = true →
  do_calls e s cs = (s, replicate (length cs) false).
Proof.
  intros He Hst. induction cs as [|c cs IH]; simpl; [done|].
  by rewrite (do_call_settled _ _ _ _ He Hst), IH.
Qed.

(** C6: on a waiter that is not settled yet, the first call of [resolve]
    or [reject] returns true and settles it accordingly; every later
    call, whichever it is, returns false and changes nothing. *)
Theorem defer_settles_once e ent s c cs :
  entries s !! e = Some ent → settled ent = false →
  snd (do_call e s c) = true ∧
  (∃ ent', entries (fst (do_call e s c)) !! e = Some ent' ∧ settled ent' = true ∧
     promise ent' = match c with
                    | CallResolve => Fulfilled
                    | CallReject err => Rejected err
                    end) ∧
  do_calls e s (c :: cs) = (fst (do_call e s c), true :: replicate (length cs) false).
Proof.
  intros He Hst.
  assert (∃ s' ent', do_call e s c = (s', true) ∧ entries s' !! e = Some ent' ∧
            settled ent' = true ∧
            promise ent' = match c with
                           | CallResolve => Fulfilled
                           | CallReject err => Rejected err
                           end) as (s' & ent' & Hcall & He' & Hst' & Hp).
  { destruct c as [|err]; simpl.
    - pose proof (defer_resolve_spec e s) as H. rewrite He, Hst in H.
      destruct H as (s' & -> & _ & _ & _ & Hes & _). eexists _, _.
      split; [done|]. rewrite Hes.
      split; [apply list_lookup_insert_eq; by eapply lookup_lt_Some|done].
    - pose proof (defer_reject_spec e err s) as H. rewrite He, Hst in H.
      destruct H as (s' & -> & _ & _ & _ & Hes & _). eexists _, _.
      split; [done|]. rewrite Hes.
      split; [apply list_lookup_insert_eq; by eapply lookup_lt_Some|done]. }
  simpl do_calls. rewrite Hcall. simpl. split; [done|].
  split; [by exists ent'|].
  by rewrite (do_calls_settled _ _ _ _ He' Hst').
Qed.

Lemma defer_settles_once_witness :
  do_calls 0 one_running_two_queued
    [CallReject QueueTimeoutError; CallResolve; CallReject (AbortError WhileWaiting)]
  = (fst (do_call 0 one_running_two_queued (CallReject QueueTimeoutError)),
     [true; false; false]).
Proof.
  apply (defer_settles_once 0 (mkEntry false Pending 1 false [])
           one_running_two_queued (CallReject QueueTimeoutError)
           [CallResolve; CallReject (AbortError WhileWaiting)]); reflexivity.
Defined.

(** C9, as stated, fails: when a live waiter is queued the finished task's
    slot is handed over and [active] is not decremented. *)
Lemma completion_with_waiter_keeps_active :
  ∃ s c o, reachable s ∧ calls s !! c = Some CRunning ∧
           active (complete c o s) = active s ∧
           active (complete c o s) ≠ (active s - 1)%Z.
Proof.
  exists one_running_two_queued, 0, (Returned 0).
  split; [apply reachable_one_running_two_queued|].
  split; [reflexivity|]. split; [reflexivity|]. vm_compute. done.
Qed.

(** C9, amended: when the task of a call that holds a slot finishes,
    returning or throwing, [release] runs once and the call settles with
    exactly what the task produced; [release] decrements [active] when
    the queue is empty and otherwise hands the slot to the head of the
    queue with [active] unchanged. *)
Theorem completion_releases s c o :
  reachable s → calls s !! c = Some CRunning →
  complete c o s = set_calls (<[c := CSettled o]> (calls (release s))) (release s) ∧
  calls (complete c o s) !! c = Some (CSettled o) ∧
  ((queue s = [] ∧ active (complete c o s) = (active s - 1)%Z ∧
    queue (complete c o s) = []) ∨
   (∃ h q ent, queue s = h :: q ∧ entries s !! h = Some ent ∧
      calls s !! waiter ent = Some (CWaiting h) ∧
      active (complete c o s) = active s ∧ queue (complete c o s) = q ∧
      calls (complete c o s) !! waiter ent = Some CRunning)).
Proof.
  intros Hr Hc. pose proof (reachable_GateInv s Hr) as Hinv.
  unfold complete. rewrite Hc. split; [done|]. simpl.
  pose proof (lookup_lt_Some _ _ _ Hc) as Hlen.
  destruct (queue s) as [|h q] eqn:Hq.
  - rewrite (release_nil _ Hq).
    match goal with |- context [emitIdleIfNeeded ?m] =>
      destruct (emitIdleIfNeeded_frame m) as ((Ha1 & Hq1 & Hes1 & Hc1 & Hl1) & _)
    end.
    rewrite Ha1, Hq1, Hc1. simpl. split.
    + by apply list_lookup_insert_eq.
    + left. by rewrite Hq.
  - destruct (gi_queued _ _ _ _ _ Hinv h) as (ent & He & Hrm & Hst).
    { rewrite Hq. by left. }
    destruct (release_live s h q ent Hq He Hrm Hst) as (Ha & Hq' & _ & _ & Hcs & _).
    pose proof (gi_waiter _ _ _ _ _ Hinv _ _ He Hst) as Hw.
    rewrite Ha, Hq', Hcs. split.
    + apply list_lookup_insert_eq. by rewrite length_insert.
    + right. exists h, q, ent. split_and!; try done.
      rewrite list_lookup_insert_ne by (intros ->; congruence).
      apply list_lookup_insert_eq. by eapply lookup_lt_Some.
Qed.

Lemma completion_releases_witness :
  reachable one_running_two_queued ∧
  calls (complete 0 (Threw (TaskError 5)) one_running_two_queued) !! 0
  = Some (CSettled (Threw (TaskError 5))).
Proof.
  split; [apply reachable_one_running_two_queued|].
  apply (completion_releases one_running_two_queued 0 (Threw (TaskError 5))
           reachable_one_running_two_queued eq_refl).
Defined.

(** ** The idle registry *)

Lemma idle_test s :
  negb (active s =? 0)%Z || negb (length (queue s) =? 0) = false ↔ idle s.
Proof.
  unfold idle. rewrite orb_false_iff, !negb_false_iff, Z.eqb_eq, Nat.eqb_eq.
  split; intros [Ha Hq]; (split; [done|]).
  - by destruct (queue s).
  - by rewrite Hq.
Qed.

Lemma emitIdleIfNeeded_busy s : ¬ idle s → emitIdleIfNeeded s = s.
Proof.
  intros Hn. unfold emitIdleIfNeeded.
  destruct (negb _ || negb _) eqn:E; [done|]. by apply idle_test in E.
Qed.

Lemma emitIdleIfNeeded_idle s :
  idle s → emitIdleIfNeeded s = foldl (λ st w, finish w None st) s (idleWaiters s).
Proof.
  intros Hi. unfold emitIdleIfNeeded. apply idle_test in Hi. by rewrite Hi.
Qed.

Lemma gate_eq_idle s s' : gate_eq s s' → idle s' ↔ idle s.
Proof. intros (Ha & Hq & _). unfold idle. by rewrite Ha, Hq. Qed.

Lemma finish_noop w err s :
  (∀ r, waiters s !! w = Some r → w_done r = true) → finish w err s = s.
Proof.
  intros H. unfold finish. destruct (waiters s !! w) as [r|]; [|done].
  by rewrite (H r).
Qed.

Lemma finish_spec w r err s :
  waiters s !! w = Some r → w_done r = false →
  let s' := finish w err s in
  waiters s'
  = <[w := mkWaiter true []
             (match err with Some x => Rejected x | None => Fulfilled end)]> (waiters s) ∧
  idleWaiters s' = filter (λ x, DeleteWaiter x ∉ cleanups r) (idleWaiters s) ∧
  cleanup_log s' = cleanup_log s ++ cleanups r.
Proof.
  intros Hw Hd. unfold finish. rewrite Hw, Hd. cbv zeta.
  match goal with |- context [foldl call_cleanup ?s0 ?fs] =>
    destruct (foldl_call_cleanup_frame fs s0) as (_ & Hws & _ & Hlog & Hi);
    generalize dependent (foldl call_cleanup s0 fs)
  end.
  simpl. intros s2 Hws Hlog Hi. rewrite Hws.
  rewrite list_lookup_insert_eq by (by eapply lookup_lt_Some). simpl.
  by rewrite list_insert_insert_eq.
Qed.

Lemma idle_reg_finish ws iw w r res :
  idle_reg ws iw → ws !! w = Some r → w_done r = false → res ≠ Pending →
  filter (λ x, DeleteWaiter x ∉ cleanups r) iw = filter (λ x, x ≠ w) iw ∧
  idle_reg (<[w := mkWaiter true [] res]> ws) (filter (λ x, x ≠ w) iw).
Proof.
  intros [Hreg Hpend Hprom Hown] Hw Hd Hres.
  pose proof (Hpend _ _ Hw Hd) as Hin.
  destruct (Hreg _ Hin) as (r' & Hr' & _ & Hdel). simplify_eq.
  split.
  - apply list_filter_iff. intros x. split.
    + intros Hx ->. done.
    + intros Hx Hx'. apply Hx. by eapply Hown.
  - assert (∀ x rx, <[w := mkWaiter true [] res]> ws !! x = Some rx →
              (x ≠ w ∧ ws !! x = Some rx) ∨ (x = w ∧ rx = mkWaiter true [] res)) as Hcase.
    { intros x rx H. destruct (decide (w = x)) as [<-|Hne].
      - rewrite list_lookup_insert_eq in H by (by eapply lookup_lt_Some).
        right. split; congruence.
      - rewrite list_lookup_insert_ne in H by done. left. split; [congruence|done]. }
    split.
    + intros x Hx. apply list_elem_of_filter in Hx as [Hne Hx].
      destruct (Hreg _ Hx) as (rx & ? & ? & ?). exists rx.
      by rewrite list_lookup_insert_ne.
    + intros x rx H Hdx. destruct (Hcase _ _ H) as [[Hne Hold]|[_ ->]]; [|done].
      apply list_elem_of_filter. split; [done|]. by eapply Hpend.
    + intros x rx H. destruct (Hcase _ _ H) as [[Hne Hold]|[_ ->]]; [by eapply Hprom|].
      simpl. split; [done|]. intros; by subst.
    + intros x rx w' H Hdel'. destruct (Hcase _ _ H) as [[Hne Hold]|[_ ->]].
      * by eapply Hown.
      * simpl in Hdel'. by apply elem_of_nil in Hdel'.
Qed.

Lemma finish_idle w err s :
  idle_reg (waiters s) (idleWaiters s) →
  idle_reg (waiters (finish w err s)) (idleWaiters (finish w err s)) ∧
  idleWaiters (finish w err s) = filter (λ x, x ≠ w) (idleWaiters s).
Proof.
  intros Hreg. destruct (waiters s !! w) as [r|] eqn:Hw.
  - destruct (w_done r) eqn:Hd.
    + rewrite finish_noop by (intros; congruence). split; [done|].
      symmetry. apply filter_all. intros x Hx ->.
      destruct (ir_registered _ _ Hreg _ Hx) as (r' & ? & ? & _). congruence.
    + destruct (finish_spec w r err s Hw Hd) as (Hws & Hi & _).
      destruct (idle_reg_finish _ _ w r
        (match err with Some x => Rejected x | None => Fulfilled end) Hreg Hw Hd)
        as [Hf Hreg']; [by destruct err|].
      rewrite Hws, Hi, Hf. done.
  - rewrite finish_noop by (intros; congruence). split; [done|].
    symmetry. apply filter_all. intros x Hx ->.
    destruct (ir_registered _ _ Hreg _ Hx) as (r' & ? & _). congruence.
Qed.

Lemma filter_not_elem (l k : list nat) :
  (∀ x, x ∈ k → x ∈ l) → filter (λ x, x ∉ l) k = [].
Proof.
  induction k as [|y k IH]; intros H; [done|].
  rewrite filter_cons_False by (intros Hn; apply Hn, H; left).
  apply IH. intros x Hx. apply H. by right.
Qed.

Lemma foldl_finish_idle ws err : ∀ s,
  idle_reg (waiters s) (idleWaiters s) →
  let s' := foldl (λ st w, finish w err st) s ws in
  idle_reg (waiters s') (idleWaiters s') ∧
  idleWaiters s' = filter (λ x, x ∉ ws) (idleWaiters s).
Proof.
  induction ws as [|w ws IH]; intros s Hreg; simpl.
  - split; [done|]. symmetry. apply filter_all. intros x _. apply not_elem_of_nil.
  - destruct (finish_idle w err s Hreg) as [Hreg' Hi].
    destruct (IH _ Hreg') as [Hreg'' Hi'']. split; [done|].
    rewrite Hi'', Hi, list_filter_filter. apply list_filter_iff.
    intros x. rewrite not_elem_of_cons. tauto.
Qed.

Lemma emitIdleIfNeeded_idle_reg s :
  idle_reg (waiters s) (idleWaiters s) →
  idle_reg (waiters (emitIdleIfNeeded s)) (idleWaiters (emitIdleIfNeeded s)) ∧
  (idle s → idleWaiters (emitIdleIfNeeded s) = []).
Proof.
  intros Hreg. destruct (decide (active s = 0%Z ∧ queue s = [])) as [Hi|Hn].
  - rewrite (emitIdleIfNeeded_idle s Hi).
    destruct (foldl_finish_idle (idleWaiters s) None s Hreg) as [Hreg' Hiw].
    split; [done|]. intros _. rewrite Hiw. apply filter_not_elem; by intros.
  - rewrite (emitIdleIfNeeded_busy s Hn). split; [done|]. intros Hi. by destruct Hn.
Qed.

Lemma IdleInv_emit s :
  idle_reg (waiters s) (idleWaiters s) → no_delete (entries s) →
  IdleInv (emitIdleIfNeeded s).
Proof.
  intros Hreg Hnd. destruct (emitIdleIfNeeded_idle_reg s Hreg) as [Hreg' Hdr].
  destruct (emitIdleIfNeeded_frame s) as [Hg _].
  split; [done|]. split.
  - destruct Hg as (_ & _ & -> & _). done.
  - intros Hi. apply Hdr. by apply (gate_eq_idle _ _ Hg).
Qed.

Lemma IdleInv_frame s s' :
  active s' = active s → queue s' = queue s →
  waiters s' = waiters s → idleWaiters s' = idleWaiters s →
  no_delete (entries s') → IdleInv s → IdleInv s'.
Proof.
  intros Ha Hq Hw Hi Hnd (Hreg & _ & Hdr). unfold IdleInv, idle.
  rewrite Ha, Hq, Hw, Hi. by split_and!.
Qed.

Lemma no_delete_insert es e ent ent' :
  no_delete es → es !! e = Some ent → cleanup ent' ⊆ cleanup ent →
  no_delete (<[e := ent']> es).
Proof.
  intros Hnd He Hsub e' x w Hx Hin.
  destruct (decide (e = e')) as [<-|Hne].
  - rewrite list_lookup_insert_eq in Hx by (by eapply lookup_lt_Some).
    simplify_eq. apply (Hnd e ent w He). by apply Hsub.
  - rewrite list_lookup_insert_ne in Hx by done. by apply (Hnd e' x w).
Qed.

Lemma entry_remove_idle e s :
  no_delete (entries s) →
  waiters (entry_remove e s) = waiters s ∧
  idleWaiters (entry_remove e s) = idleWaiters s ∧
  no_delete (entries (entry_remove e s)).
Proof.
  intros Hnd. destruct (entries s !! e) as [ent|] eqn:He.
  - destruct (removed ent) eqn:Hr.
    + by rewrite entry_remove_noop by (intros; congruence).
    + destruct (entry_remove_spec e ent s He Hr) as (_ & _ & _ & _ & Hw & _ & Hes & _ & Hi).
      split; [done|]. split.
      * rewrite Hi. apply filter_all. intros w _. by apply (Hnd e ent w).
      * rewrite Hes. eapply no_delete_insert; [done..|]. simpl.
        intros x Hx. by apply elem_of_nil in Hx.
  - by rewrite entry_remove_noop by (intros; congruence).
Qed.

Lemma defer_reject_idle e err s :
  IdleInv s → IdleInv (fst (defer_reject e err s)).
Proof.
  intros Hinv. pose proof (defer_reject_spec e err s) as H.
  destruct (entries s !! e) as [ent|] eqn:He; [|by rewrite H].
  destruct (settled ent); [by rewrite H|].
  destruct H as (s' & -> & Ha & Hq & _ & Hes & _ & Hw & Hi & _). simpl.
  eapply IdleInv_frame; try done. rewrite Hes.
  eapply no_delete_insert; [apply Hinv|done|done].
Qed.

Lemma removeFromQueue_idle e s : IdleInv s → IdleInv (removeFromQueue e s).
Proof.
  intros (Hreg & Hnd & Hdr). destruct (entries s !! e) as [ent|] eqn:He.
  - destruct (removed ent) eqn:Hr.
    + by rewrite removeFromQueue_noop by (intros; congruence).
    + rewrite (removeFromQueue_eq _ _ _ He Hr).
      destruct (entry_remove_idle e s Hnd) as (Hw & Hi & Hnd').
      apply IdleInv_emit; simpl; [by rewrite Hw, Hi|done].
  - by rewrite removeFromQueue_noop by (intros; congruence).
Qed.

Lemma finish_IdleInv w err s : IdleInv s → IdleInv (finish w err s).
Proof.
  intros (Hreg & Hnd & Hdr).
  destruct (finish_idle w err s Hreg) as [Hreg' Hi].
  destruct (finish_frame w err s) as [Hg _].
  split; [done|]. split.
  - destruct Hg as (_ & _ & -> & _). done.
  - intros Hidle. apply (gate_eq_idle _ _ Hg) in Hidle.
    rewrite Hi, (Hdr Hidle). done.
Qed.

Lemma IdleInv_invoke cb s : IdleInv s → IdleInv (invoke cb s).
Proof.
  intros Hinv. destruct cb as [e|e|w|w]; simpl.
  - by apply defer_reject_idle, removeFromQueue_idle.
  - by apply defer_reject_idle, removeFromQueue_idle.
  - by apply finish_IdleInv.
  - by apply finish_IdleInv.
Qed.

Lemma IdleInv_dispatch sg cbs : ∀ s,
  IdleInv s → IdleInv (foldl (dispatch_one sg) s cbs).
Proof.
  induction cbs as [|cb cbs IH]; intros s Hinv; simpl; [done|].
  apply IH. unfold dispatch_one. case_bool_decide; [|done].
  apply IdleInv_invoke. eapply IdleInv_frame; try done. apply Hinv.
Qed.

Lemma IdleInv_abort sg s : IdleInv s → IdleInv (abort sg s).
Proof.
  intros Hinv. unfold abort. case_bool_decide; [done|].
  apply IdleInv_dispatch. eapply IdleInv_frame; try done. apply Hinv.
Qed.

Lemma IdleInv_fire t s : IdleInv s → IdleInv (fire t s).
Proof.
  intros Hinv. unfold fire. destruct (lookup_timer t (timers s)); [|done].
  apply IdleInv_invoke. eapply IdleInv_frame; try done. apply Hinv.
Qed.

Lemma IdleInv_new l o s : new_Limiter l o = inr s → IdleInv s.
Proof.
  unfold new_Limiter. destruct (assertValidLimit l); [done|].
  destruct (assertValidMaxQueue _); [done|].
  destruct (assertValidTimeoutMs _); [done|]. intros [= <-].
  split; [|split]; simpl; [|by intros e ent w He; rewrite lookup_nil in He|done].
  split; simpl.
  - intros w Hw. by apply elem_of_nil in Hw.
  - intros w r Hw. by rewrite lookup_nil in Hw.
  - intros w r Hw. by rewrite lookup_nil in Hw.
  - intros w r w' Hw. by rewrite lookup_nil in Hw.
Qed.

Lemma entry_cleanups_no_delete signal qt e t w :
  DeleteWaiter w ∉ entry_cleanups signal qt e t.
Proof.
  unfold entry_cleanups. destruct signal, qt; simpl; intros H;
    repeat (apply elem_of_cons in H as [H|H]; [discriminate|]);
    by apply elem_of_nil in H.
Qed.

Lemma IdleInv_run o s : GateInv s → IdleInv s → IdleInv (fst (run o s)).
Proof.
  intros Hg Hinv. pose proof Hinv as (Hreg & Hnd & Hdr).
  destruct (run_cases o s) as [[err ->]|[[Hlt ->]|[Hlt H]]]; [done| |].
  - split; [done|]. split; [done|]. unfold idle. simpl. intros [Ha _].
    pose proof (gi_count _ _ _ _ _ Hg). lia.
  - destruct H as (s' & sg & qt & -> & Ha & Hq & Hl & He & Hc & Hw & Hi & _).
    unfold IdleInv, idle. simpl. rewrite Hw, Hi, Hq, He. split_and!; [done| |].
    + intros e ent w Hx. apply lookup_snoc_Some in Hx as [[_ Hx]|[_ <-]].
      * by apply (Hnd e ent w).
      * apply entry_cleanups_no_delete.
    + intros [_ Hq']. by destruct (queue s).
Qed.

Lemma IdleInv_complete c o s : GateInv s → IdleInv s → IdleInv (complete c o s).
Proof.
  intros Hg Hinv. pose proof Hinv as (Hreg & Hnd & Hdr). unfold complete.
  destruct (calls s !! c) as [[e| |o']|] eqn:Hc; try done.
  match goal with |- IdleInv (set_calls ?cs ?st) =>
    assert (IdleInv st) as Hst;
      [|eapply IdleInv_frame; try done; apply Hst]
  end.
  destruct (queue s) as [|h q] eqn:Hq.
  - rewrite (release_nil _ Hq). by apply IdleInv_emit.
  - destruct (gi_queued _ _ _ _ _ Hg h) as (ent & He & Hr & Hse).
    { rewrite Hq. by left. }
    destruct (release_live s h q ent Hq He Hr Hse)
      as (Ha & Hq' & _ & Hes & _ & Hw & _ & _ & Hi).
    assert (idleWaiters (release s) = idleWaiters s) as Hi'.
    { rewrite Hi. apply filter_all. intros w _. by apply (Hnd h ent w). }
    unfold IdleInv, idle. rewrite Hw, Hi', Ha, Hq', Hes. split_and!; [done| |].
    + eapply no_delete_insert; [done..|]. intros x Hx. by apply elem_of_nil in Hx.
    + intros [Ha0 _]. exfalso.
      destruct (gi_limit _ _ _ _ _ Hg) as (x & Hl & Hpos).
      pose proof (gi_busy _ _ _ _ _ Hg) as Hb. rewrite Hq, Hl, Ha0 in Hb.
      specialize (Hb ltac:(done)). simpl in Hb.
      apply Qlt_bool_false in Hb. unfold inject_Z in Hb. lra.
Qed.

Lemma cleanups_push_last s ws r f :
  waiters s = ws ++ [r] →
  cleanups_push (length ws) f s
  = set_waiters (ws ++ [mkWaiter (w_done r) (cleanups r ++ [f]) (w_promise r)]) s.
Proof.
  intros Hw. unfold cleanups_push. rewrite Hw.
  rewrite list_lookup_middle by done. f_equal.
  rewrite <- (Nat.add_0_r (length ws)). by rewrite insert_app_r.
Qed.

Lemma idle_test_and s :
  (active s =? 0)%Z && (length (queue s) =? 0) = true ↔ idle s.
Proof.
  rewrite <- idle_test. destruct (active s =? 0)%Z, (length (queue s) =? 0); simpl;
    split; congruence.
Qed.

(** [onIdle], case by case. *)
Lemma onIdle_cases o s :
  (∃ err, onIdle o s = (s, IdleRejected err)) ∨
  (idle s ∧ onIdle o s = (s, IdleResolved)) ∨
  (¬ idle s ∧
   ∃ s6, onIdle o s = (emitIdleIfNeeded s6, IdleWaiting (length (waiters s))) ∧
     gate_eq s s6 ∧
     waiters s6 = waiters s ++
       [mkWaiter false
          (idle_cleanups (io_signal o) (io_timeoutMs o) (length (waiters s)) (next_timer s))
          Pending] ∧
     idleWaiters s6 = idleWaiters s ++ [length (waiters s)] ∧
     cleanup_log s6 = cleanup_log s ∧
     next_timer s6 = match io_timeoutMs o with
                     | Some _ => S (next_timer s)
                     | None => next_timer s
                     end).
Proof.
  unfold onIdle.
  destruct (assertValidTimeoutMs _) as [err|]; [left; by eexists|].
  destruct (signal_aborted _ s); [left; by eexists|].
  destruct (_ && _) eqn:Hidle.
  { right; left. split; [by apply idle_test_and|done]. }
  right; right. split.
  { intros Hi. apply idle_test_and in Hi. congruence. }
  unfold addAbortHandler, setTimeout, idle_cleanups.
  destruct (io_signal o) as [sg|], (io_timeoutMs o) as [ms|]; simpl.
  all: repeat match goal with
       | |- context [cleanups_push (length ?ws) ?f ?st] =>
           lazymatch st with
           | context [cleanups_push] => fail
           | _ => rewrite (cleanups_push_last st ws _ f eq_refl); simpl
           end
       end.
  all: eexists; split; [reflexivity|]; by repeat split.
Qed.

Lemma IdleInv_onIdle o s : IdleInv s → IdleInv (fst (onIdle o s)).
Proof.
  intros Hinv. pose proof Hinv as (Hreg & Hnd & Hdr).
  destruct (onIdle_cases o s) as [[err ->]|[[_ ->]|[Hbusy H]]]; [done|done|].
  destruct H as (s6 & -> & Hg & Hw & Hi & _). simpl.
  apply IdleInv_emit; [|by destruct Hg as (_ & _ & -> & _)].
  rewrite Hw, Hi. destruct Hreg as [Hregd Hpend Hprom Hown].
  set (w := length (waiters s)) in *.
  set (cl := idle_cleanups _ _ _ _).
  assert (DeleteWaiter w ∈ cl) as Hdel by (by left).
  assert (∀ w', DeleteWaiter w' ∈ cl → w' = w) as Hdel'.
  { intros w' H. unfold cl, idle_cleanups in H.
    apply elem_of_cons in H as [[= ->]|H]; [done|]. exfalso.
    destruct (io_signal o), (io_timeoutMs o); simpl in H;
      repeat (apply elem_of_cons in H as [H|H]; [discriminate|]);
      by apply elem_of_nil in H. }
  split.
  - intros x Hx. apply elem_of_app in Hx as [Hx|Hx].
    + destruct (Hregd _ Hx) as (r & ? & ? & ?). exists r.
      split; [by apply lookup_app_l_Some|done].
    + apply list_elem_of_singleton in Hx as ->. eexists.
      split; [by apply list_lookup_middle|done].
  - intros x r Hx Hd. apply elem_of_app.
    apply lookup_snoc_Some in Hx as [[_ Hx]|[-> _]].
    + left. by eapply Hpend.
    + right. by apply list_elem_of_singleton.
  - intros x r Hx. apply lookup_snoc_Some in Hx as [[_ Hx]|[_ <-]]; [by eapply Hprom|done].
  - intros x r w' Hx Hin. apply lookup_snoc_Some in Hx as [[_ Hx]|[-> <-]].
    + by eapply Hown.
    + by apply Hdel'.
Qed.

Lemma IdleInv_apply s ev : GateInv s → IdleInv s → IdleInv (apply s ev).
Proof.
  intros Hg Hinv. destruct ev as [o|c o|sg|t|o]; simpl.
  - by apply IdleInv_run.
  - by apply IdleInv_complete.
  - by apply IdleInv_abort.
  - by apply IdleInv_fire.
  - by apply IdleInv_onIdle.
Qed.

Lemma reachable_IdleInv s : reachable s → IdleInv s.
Proof.
  induction 1 as [l o s Hnew|s ev Hr IH].
  - by eapply IdleInv_new.
  - apply IdleInv_apply; [by apply reachable_GateInv|done].
Qed.

(** ** [onIdle] promises are fulfilled only when the gate is idle *)

Lemma idle_step_refl s : idle_step s s.
Proof. split; [|done]. intros w r' Hw Hf. left. by exists r'. Qed.

Lemma idle_step_trans s1 s2 s3 : idle_step s1 s2 → idle_step s2 s3 → idle_step s1 s3.
Proof.
  intros [Hf1 Hi1] [Hf2 Hi2]. split; [|by auto].
  intros w r3 Hw Hful. destruct (Hf2 w r3 Hw Hful) as [(r2 & Hw2 & Hful2)|Hidle]; [|by right].
  destruct (Hf1 w r2 Hw2 Hful2) as [?|Hidle]; [by left|]. right. by apply Hi2.
Qed.

Lemma fulfil_idle_step s1 s2 s3 : fulfil_step s1 s2 → idle_step s2 s3 → fulfil_step s1 s3.
Proof.
  intros Hf1 [Hf2 Hi2] w r3 Hw Hful.
  destruct (Hf2 w r3 Hw Hful) as [(r2 & Hw2 & Hful2)|Hidle]; [|by right].
  destruct (Hf1 w r2 Hw2 Hful2) as [?|Hidle]; [by left|]. right. by apply Hi2.
Qed.

Lemma idle_step_frame s s' :
  waiters s' = waiters s → (idle s → idle s') → idle_step s s'.
Proof.
  intros Hw Hi. split; [|done]. intros w r' Hw' Hf. left. exists r'. by rewrite <- Hw.
Qed.

Lemma idle_step_idle s s' : idle s' → idle_step s s'.
Proof. intros Hi. split; [|done]. intros w r' _ _. by right. Qed.

Lemma finish_idle_step w x s : idle_step s (finish w (Some x) s).
Proof.
  destruct (finish_frame w (Some x) s) as [Hg _].
  split; [|by intros Hi; apply (gate_eq_idle _ _ Hg)].
  intros w' r' Hw' Hful. left.
  destruct (waiters s !! w) as [r|] eqn:Hw.
  - destruct (w_done r) eqn:Hd.
    + rewrite finish_noop in Hw' by (intros; congruence). by exists r'.
    + destruct (finish_spec w r (Some x) s Hw Hd) as (Hws & _).
      rewrite Hws in Hw'. destruct (decide (w = w')) as [<-|Hne].
      * rewrite list_lookup_insert_eq in Hw' by (by eapply lookup_lt_Some).
        by simplify_eq.
      * rewrite list_lookup_insert_ne in Hw' by done. by exists r'.
  - rewrite finish_noop in Hw' by (intros; congruence). by exists r'.
Qed.

Lemma emitIdleIfNeeded_idle_step s : idle_step s (emitIdleIfNeeded s).
Proof.
  destruct (decide (active s = 0%Z ∧ queue s = [])) as [Hi|Hn].
  - apply idle_step_idle. by apply (gate_eq_idle _ _ (proj1 (emitIdleIfNeeded_frame s))).
  - rewrite (emitIdleIfNeeded_busy s Hn). apply idle_step_refl.
Qed.

Lemma entry_remove_waiters e s : waiters (entry_remove e s) = waiters s.
Proof.
  destruct (entries s !! e) as [ent|] eqn:He.
  - destruct (removed ent) eqn:Hr.
    + by rewrite entry_remove_noop by (intros; congruence).
    + by destruct (entry_remove_spec e ent s He Hr) as (_ & _ & _ & _ & Hw & _).
  - by rewrite entry_remove_noop by (intros; congruence).
Qed.

Lemma removeFromQueue_idle_step e s : idle_step s (removeFromQueue e s).
Proof.
  destruct (entries s !! e) as [ent|] eqn:He.
  - destruct (removed ent) eqn:Hr.
    + rewrite removeFromQueue_noop by (intros; congruence). apply idle_step_refl.
    + rewrite (removeFromQueue_eq _ _ _ He Hr).
      eapply idle_step_trans; [|apply emitIdleIfNeeded_idle_step].
      apply idle_step_frame; simpl; [apply entry_remove_waiters|].
      destruct (entry_remove_spec e ent s He Hr) as (Ha & _).
      unfold idle. simpl. rewrite Ha. intros [-> ->]. done.
  - rewrite removeFromQueue_noop by (intros; congruence). apply idle_step_refl.
Qed.

Lemma defer_reject_idle_step e err s : idle_step s (fst (defer_reject e err s)).
Proof.
  pose proof (defer_reject_spec e err s) as H.
  destruct (entries s !! e) as [ent|]; [|rewrite H; apply idle_step_refl].
  destruct (settled ent); [rewrite H; apply idle_step_refl|].
  destruct H as (s' & -> & Ha & Hq & _ & _ & _ & Hw & _). simpl.
  apply idle_step_frame; [done|]. unfold idle. by rewrite Ha, Hq.
Qed.

Lemma invoke_idle_step cb s : idle_step s (invoke cb s).
Proof.
  destruct cb as [e|e|w|w]; simpl.
  - eapply idle_step_trans; [apply removeFromQueue_idle_step|apply defer_reject_idle_step].
  - eapply idle_step_trans; [apply removeFromQueue_idle_step|apply defer_reject_idle_step].
  - apply finish_idle_step.
  - apply finish_idle_step.
Qed.

Lemma dispatch_idle_step sg cbs : ∀ s, idle_step s (foldl (dispatch_one sg) s cbs).
Proof.
  induction cbs as [|cb cbs IH]; intros s; simpl; [apply idle_step_refl|].
  eapply idle_step_trans; [|apply IH].
  unfold dispatch_one. case_bool_decide; [|apply idle_step_refl].
  eapply idle_step_trans; [|apply invoke_idle_step]. by apply idle_step_frame.
Qed.

Lemma apply_fulfil_step s ev : GateInv s → fulfil_step s (apply s ev).
Proof.
  intros Hg. destruct ev as [o|c o|sg|t|o]; simpl.
  - (* run never touches the idle waiters *)
    assert (waiters (fst (run o s)) = waiters s) as Hw.
    { destruct (run_cases o s) as [[err ->]|[[Hlt ->]|[Hlt H]]]; [done|done|].
      by destruct H as (s' & sg & qt & -> & _ & _ & _ & _ & _ & Hw & _). }
    intros w r' Hw' Hful. left. exists r'. by rewrite <- Hw.
  - unfold complete. destruct (calls s !! c) as [[e| |o']|] eqn:Hc;
      try apply idle_step_refl.
    eapply fulfil_idle_step; [|by apply idle_step_frame]. simpl.
    destruct (queue s) as [|h q] eqn:Hq.
    + rewrite (release_nil _ Hq).
      eapply fulfil_idle_step; [|apply emitIdleIfNeeded_idle_step].
      intros w r' Hw' Hful. left. by exists r'.
    + destruct (gi_queued _ _ _ _ _ Hg h) as (ent & He & Hr & Hse).
      { rewrite Hq. by left. }
      destruct (release_live s h q ent Hq He Hr Hse) as (_ & _ & _ & _ & _ & Hw & _).
      intros w r' Hw' Hful. left. exists r'. by rewrite <- Hw.
  - unfold abort. case_bool_decide; [apply idle_step_refl|].
    eapply idle_step_trans; [|apply dispatch_idle_step]. by apply idle_step_frame.
  - unfold fire. destruct (lookup_timer t (timers s)); [|apply idle_step_refl].
    eapply idle_step_trans; [|apply invoke_idle_step]. by apply idle_step_frame.
  - destruct (onIdle_cases o s) as [[err ->]|[[_ ->]|[Hbusy H]]];
      try apply idle_step_refl.
    destruct H as (s6 & -> & Hgq & Hw & _). simpl.
    eapply fulfil_idle_step; [|apply emitIdleIfNeeded_idle_step].
    intros w r' Hw' Hful. left. rewrite Hw in Hw'.
    apply lookup_snoc_Some in Hw' as [[_ Hw']|[_ <-]]; [by exists r'|done].
Qed.

Lemma reachable_one_running_one_idle_wait : reachable one_running_one_idle_wait.
Proof. apply reachable_exec. by eapply (reachable_new (JNum 1) no_opts). Qed.

(** ** Cleanup closures *)

Lemma concat_fmap_insert {A B} (f : A → list B) (l : list A) i x y :
  l !! i = Some x →
  concat (f <$> <[i := y]> l) ++ f x ≡ₚ concat (f <$> l) ++ f y.
Proof.
  intros Hi. rewrite <- (take_drop_middle l i x Hi) at 2.
  rewrite insert_take_drop by (by eapply lookup_lt_Some).
  rewrite !fmap_app, !fmap_cons, !concat_app, !concat_cons.
  rewrite <- !(assoc (++)).
  apply Permutation_app_head.
  rewrite (comm (++) (f y) _), (comm (++) (f x) (_ ++ f y)).
  rewrite <- !(assoc (++)).
  apply Permutation_app_head, (comm (++)).
Qed.

Lemma fmap_insert_same {A B} (f : A → B) (l : list A) i x y :
  l !! i = Some x → f y = f x → f <$> <[i := y]> l = f <$> l.
Proof.
  intros Hi Hf. rewrite list_fmap_insert, Hf.
  apply list_insert_id. by rewrite list_lookup_fmap, Hi.
Qed.

Lemma elem_of_concat_fmap {A B} (f : A → list B) (l : list A) b :
  b ∈ concat (f <$> l) ↔ ∃ i x, l !! i = Some x ∧ b ∈ f x.
Proof.
  induction l as [|a l IH]; simpl.
  - split; [by intros H%elem_of_nil|]. by intros (i & x & Hi & _).
  - rewrite elem_of_app, IH. split.
    + intros [Hb|(i & x & Hi & Hb)]; [by exists 0, a|by exists (S i), x].
    + intros ([|i] & x & Hi & Hb); simpl in Hi; [left; by simplify_eq|].
      right. by exists i, x.
Qed.

Lemma closure_bounded_mono s s' f :
  length (entries s) ≤ length (entries s') →
  length (waiters s) ≤ length (waiters s') →
  next_timer s ≤ next_timer s' →
  closure_bounded s f → closure_bounded s' f.
Proof. destruct f as [sg [e|e|w|w]|t|w]; simpl; lia. Qed.

Lemma CleanupInv_perm s s' :
  CleanupInv s →
  all_closures s' ≡ₚ all_closures s →
  length (entries s) ≤ length (entries s') →
  length (waiters s) ≤ length (waiters s') →
  next_timer s ≤ next_timer s' →
  (∀ e ent, entries s' !! e = Some ent → removed ent = true → cleanup ent = []) →
  CleanupInv s'.
Proof.
  intros [Hnd Hb Hr] Hp He Hw Ht Hr'. split; [by rewrite Hp| |done].
  intros f Hf. rewrite Hp in Hf. eapply closure_bounded_mono; eauto.
Qed.

Lemma CleanupInv_frame s s' :
  entries s' = entries s → waiters s' = waiters s →
  cleanup_log s' = cleanup_log s → next_timer s ≤ next_timer s' →
  CleanupInv s → CleanupInv s'.
Proof.
  intros He Hw Hl Ht Hinv. eapply CleanupInv_perm; [done| | | |done|].
  - unfold all_closures. by rewrite He, Hw, Hl.
  - by rewrite He.
  - by rewrite Hw.
  - rewrite He. apply Hinv.
Qed.

Lemma entry_remove_cleanup e s : CleanupInv s → CleanupInv (entry_remove e s).
Proof.
  intros Hinv. destruct (entries s !! e) as [ent|] eqn:He.
  - destruct (removed ent) eqn:Hr.
    + by rewrite entry_remove_noop by (intros; congruence).
    + destruct (entry_remove_spec e ent s He Hr)
        as (_ & _ & _ & _ & Hw & Ht & Hes & Hlog & _).
      eapply CleanupInv_perm; [done| | | | |].
      * unfold all_closures. rewrite Hes, Hw, Hlog.
        pose proof (concat_fmap_insert cleanup (entries s) e ent
          (mkEntry (settled ent) (promise ent) (waiter ent) true []) He) as Hp.
        simpl in Hp. rewrite app_nil_r in Hp. rewrite <- Hp. solve_Permutation.
      * by rewrite Hes, length_insert.
      * by rewrite Hw.
      * by rewrite Ht.
      * intros e' ent' He' Hr'. rewrite Hes in He'.
        destruct (decide (e = e')) as [<-|Hne].
        -- rewrite list_lookup_insert_eq in He' by (by eapply lookup_lt_Some).
           by simplify_eq.
        -- rewrite list_lookup_insert_ne in He' by done.
           by eapply (ci_removed _ Hinv).
  - by rewrite entry_remove_noop by (intros; congruence).
Qed.

Lemma finish_cleanup w err s : CleanupInv s → CleanupInv (finish w err s).
Proof.
  intros Hinv. destruct (waiters s !! w) as [r|] eqn:Hw.
  - destruct (w_done r) eqn:Hd.
    + by rewrite finish_noop by (intros; congruence).
    + destruct (finish_spec w r err s Hw Hd) as (Hws & _ & Hlog).
      destruct (finish_frame w err s) as [(_ & _ & Hes & _) Ht].
      eapply CleanupInv_perm; [done| | | | |].
      * unfold all_closures. rewrite Hes, Hws, Hlog.
        pose proof (concat_fmap_insert cleanups (waiters s) w r
          (mkWaiter true []
             (match err with Some x => Rejected x | None => Fulfilled end)) Hw) as Hp.
        simpl in Hp. rewrite app_nil_r in Hp. rewrite <- Hp. solve_Permutation.
      * by rewrite Hes.
      * by rewrite Hws, length_insert.
      * by rewrite Ht.
      * rewrite Hes. apply Hinv.
  - by rewrite finish_noop by (intros; congruence).
Qed.

Lemma emitIdleIfNeeded_cleanup s : CleanupInv s → CleanupInv (emitIdleIfNeeded s).
Proof.
  intros Hinv. unfold emitIdleIfNeeded. destruct (negb _ || negb _); [done|].
  generalize (idleWaiters s). intros ws. revert s Hinv.
  induction ws as [|w ws IH]; intros s Hinv; simpl; [done|].
  by apply IH, finish_cleanup.
Qed.

Lemma settle_cleanup s s' e ent ent' :
  CleanupInv s → entries s !! e = Some ent →
  entries s' = <[e := ent']> (entries s) →
  cleanup ent' = cleanup ent → removed ent' = removed ent →
  waiters s' = waiters s → cleanup_log s' = cleanup_log s →
  next_timer s' = next_timer s →
  CleanupInv s'.
Proof.
  intros Hinv He Hes Hcl Hrm Hw Hlog Ht.
  eapply CleanupInv_perm; [done| | | | |].
  - unfold all_closures. by rewrite Hes, Hw, Hlog, (fmap_insert_same _ _ _ _ _ He Hcl).
  - by rewrite Hes, length_insert.
  - by rewrite Hw.
  - by rewrite Ht.
  - intros e' x He' Hr'. rewrite Hes in He'.
    destruct (decide (e = e')) as [<-|Hne].
    + rewrite list_lookup_insert_eq in He' by (by eapply lookup_lt_Some).
      simplify_eq. rewrite Hcl. eapply (ci_removed _ Hinv); [done|congruence].
    + rewrite list_lookup_insert_ne in He' by done. by eapply (ci_removed _ Hinv).
Qed.

Lemma defer_resolve_cleanup e s : CleanupInv s → CleanupInv (fst (defer_resolve e s)).
Proof.
  intros Hinv. pose proof (defer_resolve_spec e s) as H.
  destruct (entries s !! e) as [ent|] eqn:He; [|by rewrite H].
  destruct (settled ent); [by rewrite H|].
  destruct H as (s' & -> & _ & _ & _ & Hes & _ & Hw & _ & Ht & Hlog). simpl.
  by eapply (settle_cleanup s s' e ent).
Qed.

Lemma defer_reject_cleanup e err s :
  CleanupInv s → CleanupInv (fst (defer_reject e err s)).
Proof.
  intros Hinv. pose proof (defer_reject_spec e err s) as H.
  destruct (entries s !! e) as [ent|] eqn:He; [|by rewrite H].
  destruct (settled ent); [by rewrite H|].
  destruct H as (s' & -> & _ & _ & _ & Hes & _ & Hw & _ & Ht & Hlog). simpl.
  by eapply (settle_cleanup s s' e ent).
Qed.

Lemma removeFromQueue_cleanup e s : CleanupInv s → CleanupInv (removeFromQueue e s).
Proof.
  intros Hinv. destruct (entries s !! e) as [ent|] eqn:He.
  - destruct (removed ent) eqn:Hr.
    + by rewrite removeFromQueue_noop by (intros; congruence).
    + rewrite (removeFromQueue_eq _ _ _ He Hr).
      apply emitIdleIfNeeded_cleanup.
      eapply (CleanupInv_frame (entry_remove e s));
        [done|done|done|simpl; lia|by apply entry_remove_cleanup].
  - by rewrite removeFromQueue_noop by (intros; congruence).
Qed.

Lemma invoke_cleanup cb s : CleanupInv s → CleanupInv (invoke cb s).
Proof.
  intros Hinv. destruct cb as [e|e|w|w]; simpl.
  - by apply defer_reject_cleanup, removeFromQueue_cleanup.
  - by apply defer_reject_cleanup, removeFromQueue_cleanup.
  - by apply finish_cleanup.
  - by apply finish_cleanup.
Qed.

Lemma dispatch_cleanup sg cbs : ∀ s,
  CleanupInv s → CleanupInv (foldl (dispatch_one sg) s cbs).
Proof.
  induction cbs as [|cb cbs IH]; intros s Hinv; simpl; [done|].
  apply IH. unfold dispatch_one. case_bool_decide; [|done].
  apply invoke_cleanup.
  eapply (CleanupInv_frame s); [done|done|done|simpl; lia|done].
Qed.

Lemma release_loop_cleanup n : ∀ s s',
  CleanupInv s → release_loop n s = Some s' → CleanupInv s'.
Proof.
  induction n as [|n IH]; intros s s' Hinv H; [done|]. simpl in H.
  unfold shiftNext in H.
  destruct (shiftNext_from (entries s) (queue s)) as [[next|] q'].
  - pose proof (defer_resolve_cleanup next (entry_remove next (set_queue q' s))) as Hc.
    destruct (defer_resolve next (entry_remove next (set_queue q' s))) as [s3 b].
    simpl in Hc.
    assert (CleanupInv s3) as Hs3.
    { apply Hc, entry_remove_cleanup.
      eapply (CleanupInv_frame s); [done|done|done|simpl; lia|done]. }
    destruct b; [by simplify_eq|]. by eapply IH.
  - simplify_eq. apply emitIdleIfNeeded_cleanup.
    eapply (CleanupInv_frame s); [done|done|done|simpl; lia|done].
Qed.

Lemma release_cleanup s : CleanupInv s → CleanupInv (release s).
Proof.
  intros Hinv. unfold release.
  destruct (release_loop_total s) as [s' Hs']. rewrite Hs'. simpl.
  by eapply release_loop_cleanup.
Qed.

Lemma CleanupInv_extend s s' cl :
  CleanupInv s →
  all_closures s' ≡ₚ cl ++ all_closures s →
  NoDup cl →
  (∀ f, f ∈ cl → ¬ closure_bounded s f ∧ closure_bounded s' f) →
  length (entries s) ≤ length (entries s') →
  length (waiters s) ≤ length (waiters s') →
  next_timer s ≤ next_timer s' →
  (∀ e ent, entries s' !! e = Some ent → removed ent = true → cleanup ent = []) →
  CleanupInv s'.
Proof.
  intros [Hnd Hb Hr] Hp Hcl Hnew He Hw Ht Hr'. split; [| |done].
  - rewrite Hp. apply NoDup_app. split_and!; [done| |done].
    intros f Hf Hin. destruct (Hnew f Hf) as [Hnb _]. by apply Hnb, Hb.
  - intros f Hf. rewrite Hp in Hf. apply elem_of_app in Hf as [Hf|Hf].
    + by apply Hnew.
    + eapply closure_bounded_mono; eauto.
Qed.

Lemma NoDup_entry_cleanups signal qt e t : NoDup (entry_cleanups signal qt e t).
Proof.
  unfold entry_cleanups. destruct signal, qt; simpl;
    repeat (constructor; [rewrite ?elem_of_cons, ?elem_of_nil; intuition discriminate|]);
    constructor.
Qed.

Lemma NoDup_idle_cleanups signal timeout w t : NoDup (idle_cleanups signal timeout w t).
Proof.
  unfold idle_cleanups. destruct signal, timeout; simpl;
    repeat (constructor; [rewrite ?elem_of_cons, ?elem_of_nil; intuition discriminate|]);
    constructor.
Qed.

Lemma run_cleanup o s : CleanupInv s → CleanupInv (fst (run o s)).
Proof.
  intros Hinv. destruct (run_cases o s) as [[err ->]|[[Hlt ->]|[Hlt H]]]; [done| |].
  - eapply (CleanupInv_frame s); [done|done|done|simpl; lia|done].
  - destruct H as (s' & sg & qt & -> & _ & _ & _ & Hes & _ & Hw & _ & Hlog & Ht). simpl.
    eapply (CleanupInv_extend s s' (entry_cleanups sg qt (length (entries s)) (next_timer s)));
      [done| | | | | | |].
    + unfold all_closures. rewrite Hes, Hw, Hlog.
      rewrite fmap_app, concat_app. simpl. rewrite app_nil_r. solve_Permutation.
    + apply NoDup_entry_cleanups.
    + intros f Hf. unfold entry_cleanups in Hf.
      destruct sg, qt; simpl in Hf;
        repeat (apply elem_of_cons in Hf as [->|Hf]);
        try (by apply elem_of_nil in Hf); simpl;
        rewrite ?Hes, ?length_app, ?Ht; simpl; lia.
    + rewrite Hes, length_app. lia.
    + by rewrite Hw.
    + rewrite Ht. destruct qt; lia.
    + intros e ent He Hr. rewrite Hes in He.
      apply lookup_snoc_Some in He as [[_ He]|[_ <-]]; [|done].
      by eapply (ci_removed _ Hinv).
Qed.

Lemma onIdle_cleanup o s : CleanupInv s → CleanupInv (fst (onIdle o s)).
Proof.
  intros Hinv. destruct (onIdle_cases o s) as [[err ->]|[[_ ->]|[Hbusy H]]]; [done|done|].
  destruct H as (s6 & -> & (_ & _ & Hes & _) & Hw & _ & Hlog & Ht). simpl.
  apply emitIdleIfNeeded_cleanup.
  eapply (CleanupInv_extend s s6
    (idle_cleanups (io_signal o) (io_timeoutMs o) (length (waiters s)) (next_timer s)));
    [done| | | | | | |].
  - unfold all_closures. rewrite Hes, Hw, Hlog.
    rewrite fmap_app, concat_app. simpl. rewrite app_nil_r. solve_Permutation.
  - apply NoDup_idle_cleanups.
  - intros f Hf. unfold idle_cleanups in Hf.
    destruct (io_signal o), (io_timeoutMs o); simpl in Hf;
      repeat (apply elem_of_cons in Hf as [->|Hf]);
      try (by apply elem_of_nil in Hf); simpl;
      rewrite ?Hw, ?length_app, ?Ht; simpl; lia.
  - by rewrite Hes.
  - rewrite Hw, length_app. lia.
  - rewrite Ht. destruct (io_timeoutMs o); lia.
  - rewrite Hes. apply Hinv.
Qed.

Lemma CleanupInv_new l o s : new_Limiter l o = inr s → CleanupInv s.
Proof.
  unfold new_Limiter. destruct (assertValidLimit l); [done|].
  destruct (assertValidMaxQueue _); [done|].
  destruct (assertValidTimeoutMs _); [done|]. intros [= <-].
  split; simpl.
  - constructor.
  - intros f Hf. by apply elem_of_nil in Hf.
  - intros e ent He. by rewrite lookup_nil in He.
Qed.

Lemma CleanupInv_apply s ev : CleanupInv s → CleanupInv (apply s ev).
Proof.
  intros Hinv. destruct ev as [o|c o|sg|t|o]; simpl.
  - by apply run_cleanup.
  - unfold complete. destruct (calls s !! c) as [[e| |o']|]; try done.
    eapply (CleanupInv_frame (release s)); [done|done|done|simpl; lia|].
    by apply release_cleanup.
  - unfold abort. case_bool_decide; [done|].
    apply dispatch_cleanup.
    eapply (CleanupInv_frame s); [done|done|done|simpl; lia|done].
  - unfold fire. destruct (lookup_timer t (timers s)); [|done].
    apply invoke_cleanup.
    eapply (CleanupInv_frame s); [done|done|done|simpl; lia|done].
  - by apply onIdle_cleanup.
Qed.

Lemma reachable_CleanupInv s : reachable s → CleanupInv s.
Proof.
  induction 1 as [l o s Hnew|s ev Hr IH].
  - by eapply CleanupInv_new.
  - by apply CleanupInv_apply.
Qed.

(** ** Every closure of a removed entry has been called *)

Lemma cleanup_step_refl s : cleanup_step s s.
Proof.
  split; [exists []; by rewrite app_nil_r|].
  intros e ent He. exists ent. split; [done|]. by left.
Qed.

Lemma cleanup_step_trans s1 s2 s3 :
  cleanup_step s1 s2 → cleanup_step s2 s3 → cleanup_step s1 s3.
Proof.
  intros [[l1 Hl1] H1] [[l2 Hl2] H2]. split.
  - exists (l1 ++ l2). by rewrite Hl2, Hl1, <- app_assoc.
  - intros e ent He. destruct (H1 e ent He) as (ent2 & He2 & Hc2).
    destruct (H2 e ent2 He2) as (ent3 & He3 & Hc3). exists ent3. split; [done|].
    destruct Hc2 as [[Hr2 Hcl2]|(Hr & Hr2 & Hin2)], Hc3 as [[Hr3 Hcl3]|(Hr2' & Hr3 & Hin3)].
    + left. split; congruence.
    + right. split_and!; [congruence|done|]. intros f Hf. apply Hin3. by rewrite Hcl2.
    + right. split_and!; [done|congruence|]. intros f Hf. rewrite Hl2.
      apply elem_of_app. left. by apply Hin2.
    + congruence.
Qed.

Lemma cleanup_step_frame s s' :
  entries s' = entries s → (∃ l, cleanup_log s' = cleanup_log s ++ l) →
  cleanup_step s s'.
Proof.
  intros He Hl. split; [done|]. intros e ent Hx. exists ent. rewrite He.
  split; [done|]. by left.
Qed.

Lemma cleanup_step_same s s' :
  entries s' = entries s → cleanup_log s' = cleanup_log s → cleanup_step s s'.
Proof.
  intros He Hl. apply cleanup_step_frame; [done|]. exists []. by rewrite app_nil_r.
Qed.

Lemma cleanup_step_insert s s' e ent ent' :
  entries s !! e = Some ent → entries s' = <[e := ent']> (entries s) →
  removed ent' = removed ent → cleanup ent' = cleanup ent →
  cleanup_log s' = cleanup_log s → cleanup_step s s'.
Proof.
  intros He Hes Hr Hc Hl. split; [exists []; by rewrite app_nil_r|].
  intros e' x Hx. rewrite Hes. destruct (decide (e = e')) as [<-|Hne].
  - rewrite list_lookup_insert_eq by (by eapply lookup_lt_Some).
    simplify_eq. exists ent'. split; [done|]. by left.
  - rewrite list_lookup_insert_ne by done. exists x. split; [done|]. by left.
Qed.

Lemma entry_remove_cleanup_step e s : cleanup_step s (entry_remove e s).
Proof.
  destruct (entries s !! e) as [ent|] eqn:He.
  - destruct (removed ent) eqn:Hr.
    + rewrite entry_remove_noop by (intros; congruence). apply cleanup_step_refl.
    + destruct (entry_remove_spec e ent s He Hr)
        as (_ & _ & _ & _ & _ & _ & Hes & Hlog & _).
      split; [by eexists|]. intros e' x Hx. rewrite Hes.
      destruct (decide (e = e')) as [<-|Hne].
      * rewrite list_lookup_insert_eq by (by eapply lookup_lt_Some).
        simplify_eq. eexists. split; [done|]. right. split_and!; [done|done|].
        intros f Hf. rewrite Hlog. apply elem_of_app. by right.
      * rewrite list_lookup_insert_ne by done. exists x. split; [done|]. by left.
  - rewrite entry_remove_noop by (intros; congruence). apply cleanup_step_refl.
Qed.

Lemma defer_resolve_cleanup_step e s : cleanup_step s (fst (defer_resolve e s)).
Proof.
  pose proof (defer_resolve_spec e s) as H.
  destruct (entries s !! e) as [ent|] eqn:He; [|rewrite H; apply cleanup_step_refl].
  destruct (settled ent); [rewrite H; apply cleanup_step_refl|].
  destruct H as (s' & -> & _ & _ & _ & Hes & _ & _ & _ & _ & Hlog). simpl.
  by eapply (cleanup_step_insert s s' e ent).
Qed.

Lemma defer_reject_cleanup_step e err s : cleanup_step s (fst (defer_reject e err s)).
Proof.
  pose proof (defer_reject_spec e err s) as H.
  destruct (entries s !! e) as [ent|] eqn:He; [|rewrite H; apply cleanup_step_refl].
  destruct (settled ent); [rewrite H; apply cleanup_step_refl|].
  destruct H as (s' & -> & _ & _ & _ & Hes & _ & _ & _ & _ & Hlog). simpl.
  by eapply (cleanup_step_insert s s' e ent).
Qed.

Lemma finish_cleanup_step w err s : cleanup_step s (finish w err s).
Proof.
  destruct (finish_frame w err s) as [(_ & _ & Hes & _) _].
  apply cleanup_step_frame; [done|].
  destruct (waiters s !! w) as [r|] eqn:Hw.
  - destruct (w_done r) eqn:Hd.
    + rewrite finish_noop by (intros; congruence). exists []. by rewrite app_nil_r.
    + destruct (finish_spec w r err s Hw Hd) as (_ & _ & Hlog). by eexists.
  - rewrite finish_noop by (intros; congruence). exists []. by rewrite app_nil_r.
Qed.

Lemma emitIdleIfNeeded_cleanup_step s : cleanup_step s (emitIdleIfNeeded s).
Proof.
  unfold emitIdleIfNeeded. destruct (negb _ || negb _); [apply cleanup_step_refl|].
  generalize (idleWaiters s). intros ws. revert s.
  induction ws as [|w ws IH]; intros s; simpl; [apply cleanup_step_refl|].
  eapply cleanup_step_trans; [apply finish_cleanup_step|apply IH].
Qed.

Lemma removeFromQueue_cleanup_step e s : cleanup_step s (removeFromQueue e s).
Proof.
  destruct (entries s !! e) as [ent|] eqn:He.
  - destruct (removed ent) eqn:Hr.
    + rewrite removeFromQueue_noop by (intros; congruence). apply cleanup_step_refl.
    + rewrite (removeFromQueue_eq _ _ _ He Hr).
      eapply cleanup_step_trans; [|apply emitIdleIfNeeded_cleanup_step].
      eapply cleanup_step_trans; [apply (entry_remove_cleanup_step e)|].
      by apply cleanup_step_same.
  - rewrite removeFromQueue_noop by (intros; congruence). apply cleanup_step_refl.
Qed.

Lemma invoke_cleanup_step cb s : cleanup_step s (invoke cb s).
Proof.
  destruct cb as [e|e|w|w]; simpl.
  - eapply cleanup_step_trans;
      [apply removeFromQueue_cleanup_step|apply defer_reject_cleanup_step].
  - eapply cleanup_step_trans;
      [apply removeFromQueue_cleanup_step|apply defer_reject_cleanup_step].
  - apply finish_cleanup_step.
  - apply finish_cleanup_step.
Qed.

Lemma dispatch_cleanup_step sg cbs : ∀ s, cleanup_step s (foldl (dispatch_one sg) s cbs).
Proof.
  induction cbs as [|cb cbs IH]; intros s; simpl; [apply cleanup_step_refl|].
  eapply cleanup_step_trans; [|apply IH].
  unfold dispatch_one. case_bool_decide; [|apply cleanup_step_refl].
  eapply cleanup_step_trans; [|apply invoke_cleanup_step]. by apply cleanup_step_same.
Qed.

Lemma release_loop_cleanup_step n : ∀ s s',
  release_loop n s = Some s' → cleanup_step s s'.
Proof.
  induction n as [|n IH]; intros s s' H; [done|]. simpl in H.
  unfold shiftNext in H.
  destruct (shiftNext_from (entries s) (queue s)) as [[next|] q'].
  - pose proof (defer_resolve_cleanup_step next (entry_remove next (set_queue q' s))) as Hc.
    destruct (defer_resolve next (entry_remove next (set_queue q' s))) as [s3 b].
    simpl in Hc.
    assert (cleanup_step s s3) as Hs3.
    { eapply cleanup_step_trans; [|apply Hc].
      eapply cleanup_step_trans; [|apply entry_remove_cleanup_step].
      by apply cleanup_step_same. }
    destruct b; [by simplify_eq|].
    eapply cleanup_step_trans; [exact Hs3|by apply IH].
  - simplify_eq.
    eapply cleanup_step_trans; [|apply emitIdleIfNeeded_cleanup_step].
    by apply cleanup_step_same.
Qed.

Lemma apply_cleanup_step s ev : cleanup_step s (apply s ev).
Proof.
  destruct ev as [o|c o|sg|t|o]; simpl.
  - destruct (run_cases o s) as [[err ->]|[[Hlt ->]|[Hlt H]]];
      [apply cleanup_step_refl|by apply cleanup_step_same|].
    destruct H as (s' & sg & qt & -> & _ & _ & _ & Hes & _ & _ & _ & Hlog & _). simpl.
    split; [exists []; by rewrite app_nil_r|].
    intros e ent He. exists ent. rewrite Hes.
    split; [by apply lookup_app_l_Some|by left].
  - unfold complete. destruct (calls s !! c) as [[e| |o']|];
      try apply cleanup_step_refl.
    eapply (cleanup_step_trans _ (release s)); [|by apply cleanup_step_same].
    unfold release. destruct (release_loop_total s) as [s' Hs']. rewrite Hs'. simpl.
    by eapply release_loop_cleanup_step.
  - unfold abort. case_bool_decide; [apply cleanup_step_refl|].
    eapply cleanup_step_trans; [|apply dispatch_cleanup_step]. by apply cleanup_step_same.
  - unfold fire. destruct (lookup_timer t (timers s)); [|apply cleanup_step_refl].
    eapply cleanup_step_trans; [|apply invoke_cleanup_step]. by apply cleanup_step_same.
  - destruct (onIdle_cases o s) as [[err ->]|[[_ ->]|[Hbusy H]]];
      try apply cleanup_step_refl.
    destruct H as (s6 & -> & (_ & _ & Hes & _) & _ & _ & Hlog & _). simpl.
    eapply cleanup_step_trans; [|apply emitIdleIfNeeded_cleanup_step].
    by apply cleanup_step_same.
Qed.

Lemma NoDup_filter_eq_length (f : Cleanup) (l : list Cleanup) :
  NoDup l → length (filter (λ g, g = f) l) = if decide (f ∈ l) then 1 else 0.
Proof.
  induction 1 as [|g l Hg Hnd IH].
  - rewrite decide_False; [done|]. intros H. by apply elem_of_nil in H.
  - destruct (decide (g = f)) as [->|Hne].
    + rewrite filter_cons_True by done. simpl. rewrite IH.
      rewrite decide_False by done. rewrite decide_True; [done|by left].
    + rewrite filter_cons_False by done. rewrite IH.
      destruct (decide (f ∈ l)) as [Hin|Hni].
      * rewrite decide_True; [done|by right].
      * rewrite decide_False; [done|]. rewrite not_elem_of_cons. split; [congruence|done].
Qed.

Lemma entry_remove_idempotent e s :
  entry_remove e (entry_remove e s) = entry_remove e s.
Proof.
  destruct (entries s !! e) as [ent|] eqn:He.
  - destruct (removed ent) eqn:Hr.
    + by rewrite !(entry_remove_noop e s) by (intros; congruence).
    + destruct (entry_remove_spec e ent s He Hr) as (_ & _ & _ & _ & _ & _ & Hes & _).
      apply entry_remove_noop. intros ent'. rewrite Hes.
      rewrite list_lookup_insert_eq by (by eapply lookup_lt_Some). by intros [= <-].
  - by rewrite !(entry_remove_noop e s) by (intros; congruence).
Qed.

Lemma removeFromQueue_idempotent e s :
  removeFromQueue e (removeFromQueue e s) = removeFromQueue e s.
Proof.
  destruct (entries s !! e) as [ent|] eqn:He.
  - destruct (removed ent) eqn:Hr.
    + by rewrite !(removeFromQueue_noop e s) by (intros; congruence).
    + apply removeFromQueue_noop. intros ent'.
      rewrite (removeFromQueue_eq _ _ _ He Hr).
      match goal with |- context [emitIdleIfNeeded ?m] =>
        destruct (emitIdleIfNeeded_frame m) as ((_ & _ & -> & _) & _)
      end. simpl.
      destruct (entry_remove_spec e ent s He Hr) as (_ & _ & _ & _ & _ & _ & Hes & _).
      rewrite Hes. rewrite list_lookup_insert_eq by (by eapply lookup_lt_Some).
      by intros [= <-].
  - by rewrite !(removeFromQueue_noop e s) by (intros; congruence).
Qed.

(** C7: removing an entry twice, by [entry.remove()] or by
    [removeFromQueue], is removing it once; no cleanup closure is ever
    called twice; a removed entry holds no closure and a queued one holds
    only closures not called yet; and whichever event removes an entry
    (a task finishing and handing it the slot, its signal aborting, its
    timer firing), each closure it held has then been called exactly
    once. *)
Theorem cleanup_exactly_once s :
  reachable s →
  (∀ e, entry_remove e (entry_remove e s) = entry_remove e s) ∧
  (∀ e, removeFromQueue e (removeFromQueue e s) = removeFromQueue e s) ∧
  (∀ f, times_called f s ≤ 1) ∧
  (∀ e ent, entries s !! e = Some ent →
     if removed ent then cleanup ent = []
     else ∀ f, f ∈ cleanup ent → times_called f s = 0) ∧
  (∀ ev e ent ent',
     entries s !! e = Some ent → removed ent = false →
     entries (apply s ev) !! e = Some ent' → removed ent' = true →
     cleanup ent' = [] ∧ ∀ f, f ∈ cleanup ent → times_called f (apply s ev) = 1).
Proof.
  intros Hr. pose proof (reachable_CleanupInv s Hr) as Hinv.
  assert (∀ st f, CleanupInv st →
            times_called f st = if decide (f ∈ cleanup_log st) then 1 else 0) as Hcount.
  { intros st f [Hnd _ _]. apply NoDup_filter_eq_length.
    unfold all_closures in Hnd. by do 2 apply NoDup_app in Hnd as (_ & _ & Hnd). }
  split_and!.
  - intros e. apply entry_remove_idempotent.
  - intros e. apply removeFromQueue_idempotent.
  - intros f. rewrite (Hcount s f Hinv). case_decide; lia.
  - intros e ent He. destruct (removed ent) eqn:Hrm.
    + by eapply (ci_removed _ Hinv).
    + intros f Hf. rewrite (Hcount s f Hinv). rewrite decide_False; [done|].
      intros Hlog. pose proof (ci_nodup _ Hinv) as Hnd. unfold all_closures in Hnd.
      apply NoDup_app in Hnd as (_ & Hdisj & _). apply (Hdisj f).
      * apply elem_of_concat_fmap. by exists e, ent.
      * apply elem_of_app. by right.
  - intros ev e ent ent' He Hrm He' Hrm'.
    pose proof (CleanupInv_apply s ev Hinv) as Hinv'.
    split; [by eapply (ci_removed _ Hinv')|].
    intros f Hf. rewrite (Hcount _ f Hinv').
    destruct (apply_cleanup_step s ev) as [_ Hstep].
    destruct (Hstep e ent He) as (ent2 & He2 & [[Hsame _]|(_ & _ & Hcalled)]).
    + congruence.
    + rewrite decide_True; [done|]. by apply Hcalled.
Qed.

Lemma cleanup_exactly_once_witness :
  reachable one_running_one_timed ∧
  times_called (ClearTimeout 0) (apply one_running_one_timed (EvAbort 7)) = 1 ∧
  times_called (RmAbort 7 (EntryAbort 0)) (apply one_running_one_timed (EvTimer 0)) = 1 ∧
  times_called (ClearTimeout 0)
    (apply one_running_one_timed (EvComplete 0 (Returned 0))) = 1.
Proof.
  pose proof (cleanup_exactly_once one_running_one_timed
                reachable_one_running_one_timed) as (_ & _ & _ & _ & H).
  split; [apply reachable_one_running_one_timed|]. split_and!.
  - eapply (H (EvAbort 7) 0); [reflexivity..|]. right. by left.
  - eapply (H (EvTimer 0) 0); [reflexivity..|]. by left.
  - eapply (H (EvComplete 0 (Returned 0)) 0); [reflexivity..|]. right. by left.
Defined.

(** * Beyond the claims *)

(** ** Validation and construction *)

Lemma assertValidTimeoutMs_ok ms : assertValidTimeoutMs ms = None ↔ timeout_ok ms.
Proof.
  unfold assertValidTimeoutMs, timeout_ok. destruct ms as [[t| | |]|]; simpl; try done.
  destruct (Qlt_bool t 0) eqn:E.
  - apply Qlt_bool_iff in E. split; [done|]. intros H. exfalso. lra.
  - apply Qlt_bool_false in E. done.
Qed.

Lemma assertValidMaxQueue_ok m : assertValidMaxQueue m = None ↔ maxQueue_ok m.
Proof.
  unfold assertValidMaxQueue, maxQueue_ok. destruct m as [x| | |]; simpl; try done.
  destruct (Qlt_bool x 0) eqn:E.
  - apply Qlt_bool_iff in E. split; [done|]. intros H. exfalso. lra.
  - apply Qlt_bool_false in E. done.
Qed.

Lemma assertValidLimit_iff l :
  assertValidLimit l = None ↔ ∃ x, l = JNum x ∧ (0 < x)%Q.
Proof.
  split; [apply assertValidLimit_ok|]. intros (x & -> & Hx).
  unfold assertValidLimit. simpl. destruct (Qle_bool x 0) eqn:E; [|done].
  apply Qle_bool_iff in E. exfalso. lra.
Qed.

(** X1: the constructor succeeds exactly when [limit] is finite and
    positive, [maxQueue] (by default [Infinity]) is [Infinity] or finite
    and not negative, and [queueTimeoutMs] is absent or finite and not
    negative; it fails with [RangeError] and nothing else; and a new
    limiter stores its options as given, with nothing running and
    nothing queued. *)
Theorem constructor_validates l o :
  ((∃ s, new_Limiter l o = inr s) ↔
     (∃ x, l = JNum x ∧ (0 < x)%Q) ∧
     maxQueue_ok (default JInf (lo_maxQueue o)) ∧
     timeout_ok (lo_queueTimeoutMs o)) ∧
  (∀ err, new_Limiter l o = inl err → err = RangeError) ∧
  (∀ s, new_Limiter l o = inr s →
     activeCount s = 0%Z ∧ pendingCount s = 0 ∧ idleWaiters s = [] ∧
     config s = (l, default JInf (lo_maxQueue o), lo_queueTimeoutMs o, lo_signal o)).
Proof.
  unfold new_Limiter.
  pose proof (assertValidLimit_iff l) as Hl.
  pose proof (assertValidMaxQueue_ok (default JInf (lo_maxQueue o))) as Hm.
  pose proof (assertValidTimeoutMs_ok (lo_queueTimeoutMs o)) as Ht.
  assert (∀ v, assertValidLimit l = Some v → v = RangeError) as El.
  { unfold assertValidLimit. intros v. by destruct (_ || _); intros [= <-]. }
  assert (∀ m v, assertValidMaxQueue m = Some v → v = RangeError) as Em.
  { unfold assertValidMaxQueue. intros m v. by destruct (_ || _); intros [= <-]. }
  assert (∀ m v, assertValidTimeoutMs m = Some v → v = RangeError) as Et.
  { unfold assertValidTimeoutMs. intros [x|] v; [|done].
    by destruct (_ || _); intros [= <-]. }
  destruct (assertValidLimit l) as [e1|] eqn:E1.
  { split_and!.
    - split; [by intros [s ?]|]. intros (Hx & _). by apply Hl in Hx.
    - intros err [= <-]. by apply El.
    - done. }
  destruct (assertValidMaxQueue _) as [e2|] eqn:E2.
  { split_and!.
    - split; [by intros [s ?]|]. intros (_ & Hx & _). by apply Hm in Hx.
    - intros err [= <-]. by eapply Em.
    - done. }
  destruct (assertValidTimeoutMs _) as [e3|] eqn:E3.
  { split_and!.
    - split; [by intros [s ?]|]. intros (_ & _ & Hx). by apply Ht in Hx.
    - intros err [= <-]. by eapply Et.
    - done. }
  split_and!.
  - split; [|by eexists]. intros _. split_and!; [by apply Hl|by apply Hm|by apply Ht].
  - done.
  - by intros s [= <-].
Qed.



(** ** [shiftNext] *)

Lemma shiftNext_from_spec es q :
  match shiftNext_from es q with
  | (Some e, q') =>
      ∃ pre, q = pre ++ e :: q' ∧
        (∀ x, x ∈ pre → tombstoned es x = true) ∧ tombstoned es e = false
  | (None, q') => q' = [] ∧ ∀ x, x ∈ q → tombstoned es x = true
  end.
Proof.
  induction q as [|x q IH]; simpl.
  - split; [done|]. intros y Hy. by apply elem_of_nil in Hy.
  - destruct (es !! x) as [ent|] eqn:Hx.
    + destruct (removed ent) eqn:Hr.
      * assert (tombstoned es x = true) as Hts by (unfold tombstoned; by rewrite Hx).
        destruct (shiftNext_from es q) as [[e|] q'].
        -- destruct IH as (pre & -> & Hpre & He). exists (x :: pre).
           split_and!; [done| |done].
           intros y Hy. apply elem_of_cons in Hy as [->|Hy]; [done|by apply Hpre].
        -- destruct IH as [-> Hall]. split; [done|].
           intros y Hy. apply elem_of_cons in Hy as [->|Hy]; [done|by apply Hall].
      * exists []. split_and!; [done| |unfold tombstoned; by rewrite Hx].
        intros y Hy. by apply elem_of_nil in Hy.
    + exists []. split_and!; [done| |unfold tombstoned; by rewrite Hx].
      intros y Hy. by apply elem_of_nil in Hy.
Qed.

(** X3: [shiftNext] drops the removed entries at the head of the queue
    and returns the first entry not marked removed, leaving what follows
    it in the queue; it returns nothing only when every entry was marked
    removed, and then the queue is empty. It changes the queue and
    nothing else. *)
Theorem shiftNext_skips_removed s :
  fst (shiftNext s) = set_queue (queue (fst (shiftNext s))) s ∧
  match snd (shiftNext s) with
  | Some e =>
      ∃ pre, queue s = pre ++ e :: queue (fst (shiftNext s)) ∧
        (∀ x, x ∈ pre → tombstoned (entries s) x = true) ∧
        tombstoned (entries s) e = false
  | None =>
      queue (fst (shiftNext s)) = [] ∧
      ∀ x, x ∈ queue s → tombstoned (entries s) x = true
  end.
Proof.
  unfold shiftNext. pose proof (shiftNext_from_spec (entries s) (queue s)) as H.
  destruct (shiftNext_from (entries s) (queue s)) as [[e|] q']; simpl; by split.
Qed.

Lemma constructor_validates_witness :
  (∃ s, new_Limiter (JNum (5 # 2)) no_opts = inr s) ∧
  new_Limiter JInf no_opts = inl RangeError.
Proof.
  split.
  - apply (proj1 (constructor_validates (JNum (5 # 2)) no_opts)).
    split_and!; [|done|done]. exists (5 # 2)%Q. split; [done|reflexivity].
  - destruct (new_Limiter JInf no_opts) as [err|s] eqn:E; [|discriminate E].
    f_equal. by apply (proj1 (proj2 (constructor_validates JInf no_opts)) err).
Defined.

Lemma shiftNext_skips_removed_witness :
  ∃ pre, queue (entry_remove 0 one_running_two_queued) = pre ++ [1] ∧
    (∀ x, x ∈ pre → tombstoned (entries (entry_remove 0 one_running_two_queued)) x = true) ∧
    tombstoned (entries (entry_remove 0 one_running_two_queued)) 1 = false.
Proof.
  apply (proj2 (shiftNext_skips_removed (entry_remove 0 one_running_two_queued))).
Defined.

(** ** The configuration never changes *)

Lemma call_cleanup_static s f : static (call_cleanup s f) = static s.
Proof. by destruct f. Qed.

Lemma foldl_call_cleanup_static fs : ∀ s, static (foldl call_cleanup s fs) = static s.
Proof.
  induction fs as [|f fs IH]; intros s; simpl; [done|].
  by rewrite IH, call_cleanup_static.
Qed.

Lemma entry_remove_static e s : static (entry_remove e s) = static s.
Proof.
  unfold entry_remove. destruct (entries s !! e) as [ent|]; [|done].
  destruct (removed ent); [done|]. by rewrite foldl_call_cleanup_static.
Qed.

Lemma defer_resolve_static e s : static (fst (defer_resolve e s)) = static s.
Proof.
  unfold defer_resolve. destruct (entries s !! e) as [ent|]; [|done].
  by destruct (settled ent).
Qed.

Lemma defer_reject_static e err s : static (fst (defer_reject e err s)) = static s.
Proof.
  unfold defer_reject. destruct (entries s !! e) as [ent|]; [|done].
  by destruct (settled ent).
Qed.

Lemma finish_static w err s : static (finish w err s) = static s.
Proof.
  unfold finish. destruct (waiters s !! w) as [r|]; [|done].
  destruct (w_done r); [done|]. cbv zeta.
  match goal with |- context [foldl call_cleanup ?s0 ?fs] =>
    pose proof (foldl_call_cleanup_static fs s0) as H;
    generalize dependent (foldl call_cleanup s0 fs)
  end.
  intros s2 H. by destruct (waiters s2 !! w).
Qed.

Lemma emitIdleIfNeeded_static s : static (emitIdleIfNeeded s) = static s.
Proof.
  unfold emitIdleIfNeeded. destruct (negb _ || negb _); [done|].
  generalize (idleWaiters s). intros ws. revert s.
  induction ws as [|w ws IH]; intros s; simpl; [done|].
  by rewrite IH, finish_static.
Qed.

Lemma removeFromQueue_static e s : static (removeFromQueue e s) = static s.
Proof.
  unfold removeFromQueue. destruct (entries s !! e) as [ent|]; [|done].
  destruct (removed ent); [done|]. rewrite emitIdleIfNeeded_static.
  destruct (indexOf e _); simpl; apply entry_remove_static.
Qed.

Lemma invoke_static cb s : static (invoke cb s) = static s.
Proof.
  destruct cb as [e|e|w|w]; simpl;
    by rewrite ?defer_reject_static, ?removeFromQueue_static, ?finish_static.
Qed.

Lemma release_loop_static n : ∀ s s', release_loop n s = Some s' → static s' = static s.
Proof.
  induction n as [|n IH]; intros s s' H; [done|]. simpl in H. unfold shiftNext in H.
  destruct (shiftNext_from (entries s) (queue s)) as [[next|] q'].
  - pose proof (defer_resolve_static next (entry_remove next (set_queue q' s))) as Hd.
    rewrite entry_remove_static in Hd.
    destruct (defer_resolve next (entry_remove next (set_queue q' s))) as [s3 b].
    simpl in Hd. destruct b; [injection H as <-; exact Hd|]. rewrite (IH _ _ H). exact Hd.
  - injection H as <-. by rewrite emitIdleIfNeeded_static.
Qed.

Lemma release_static s : static (release s) = static s.
Proof.
  unfold release. destruct (release_loop_total s) as [s' Hs']. rewrite Hs'. simpl.
  by eapply release_loop_static.
Qed.

Lemma run_static o s : static (fst (run o s)) = static s.
Proof.
  destruct (run_cases o s) as [[err ->]|[[Hlt ->]|[Hlt H]]]; [done|done|].
  unfold run in *.
  destruct (assertValidTimeoutMs _); [by destruct H as (? & ? & ? & [=] & _)|].
  destruct (signal_aborted _ s) eqn:Hab; [by destruct H as (? & ? & ? & [=] & _)|].
  unfold acquire. rewrite Hab, Hlt.
  destruct (js_ge _ _); [done|].
  match goal with |- context [waitForTurn ?sg ?qt ?c s] =>
    unfold waitForTurn; rewrite Hab;
    unfold makeQueueEntry, addAbortHandler, setTimeout, cleanup_push;
    destruct sg, qt; simpl
  end.
  all: repeat match goal with
       | |- context [match ?l !! ?i with _ => _ end] => destruct (l !! i); simpl
       end; done.
Qed.

Lemma onIdle_static o s : static (fst (onIdle o s)) = static s.
Proof.
  destruct (onIdle_cases o s) as [[err ->]|[[_ ->]|[_ H]]]; [done|done|].
  destruct H as (s6 & _). unfold onIdle.
  destruct (assertValidTimeoutMs _); [done|].
  destruct (signal_aborted _ s); [done|]. destruct (_ && _); [done|].
  unfold addAbortHandler, setTimeout, cleanups_push.
  destruct (io_signal o), (io_timeoutMs o); simpl; rewrite emitIdleIfNeeded_static.
  all: repeat match goal with
       | |- context [match ?l !! ?i with _ => _ end] => destruct (l !! i); simpl
       end; done.
Qed.

Lemma dispatch_static sg cbs : ∀ s, static (foldl (dispatch_one sg) s cbs) = static s.
Proof.
  induction cbs as [|cb cbs IH]; intros s; simpl; [done|].
  rewrite IH. unfold dispatch_one. case_bool_decide; [|done].
  by rewrite invoke_static.
Qed.

(** What an event does to the configuration and to the aborted signals. *)
Lemma apply_static s ev :
  config (apply s ev) = config s ∧
  aborted (apply s ev)
  = match ev with
    | EvAbort sg => if bool_decide (sg ∈ aborted s) then aborted s else sg :: aborted s
    | _ => aborted s
    end.
Proof.
  assert (∀ s1 s2, static s1 = static s2 → config s1 = config s2 ∧ aborted s1 = aborted s2)
    as Hsplit by (intros s1 s2 [= ? ? ? ? ?]; unfold config; split; congruence).
  destruct ev as [o|c o|sg|t|o]; simpl.
  - apply Hsplit, run_static.
  - apply Hsplit. unfold complete. destruct (calls s !! c) as [[e| |o']|]; try done.
    simpl. change (static (release s) = static s). apply release_static.
  - unfold abort. case_bool_decide; [done|].
    match goal with |- context [foldl (dispatch_one sg) ?s0 ?cbs] =>
      destruct (Hsplit _ _ (dispatch_static sg cbs s0)) as [-> ->]
    end. done.
  - apply Hsplit. unfold fire. destruct (lookup_timer t (timers s)); [|done].
    by rewrite invoke_static.
  - apply Hsplit, onIdle_static.
Qed.

(** X4: the outcome of the synchronous part of [run] decides, and is
    decided by, the checks in source order: [RangeError] exactly for an
    invalid effective timeout; otherwise [AbortError] ('before start')
    exactly for an aborted effective signal; otherwise admission exactly
    when [active < limit]; otherwise [QueueOverflowError] exactly when
    [queue.length >= maxQueue]; otherwise the call is queued. No other
    error comes out of it. *)
Theorem run_decides o s :
  let signal := nullish (ro_signal o) (defaultSignal s) in
  let ms := nullish (ro_queueTimeoutMs o) (defaultQueueTimeoutMs s) in
  match snd (run o s) with
  | RunRejected RangeError => ¬ timeout_ok ms
  | RunRejected (AbortError BeforeStart) =>
      timeout_ok ms ∧ signal_aborted signal s = true
  | RunRejected QueueOverflowError =>
      timeout_ok ms ∧ signal_aborted signal s = false ∧
      js_lt (js_of_Z (active s)) (limit s) = false ∧
      js_ge (js_of_nat (length (queue s))) (maxQueue s) = true
  | RunRejected _ => False
  | RunAdmitted c =>
      timeout_ok ms ∧ signal_aborted signal s = false ∧
      js_lt (js_of_Z (active s)) (limit s) = true ∧ c = length (calls s)
  | RunQueued c e =>
      timeout_ok ms ∧ signal_aborted signal s = false ∧
      js_lt (js_of_Z (active s)) (limit s) = false ∧
      js_ge (js_of_nat (length (queue s))) (maxQueue s) = false ∧
      c = length (calls s) ∧ e = length (entries s)
  end.
Proof.
  intros signal ms. unfold run. fold signal ms.
  pose proof (assertValidTimeoutMs_ok ms) as Hok.
  destruct (assertValidTimeoutMs ms) as [v|] eqn:Hv.
  { assert (v = RangeError) as ->.
    { unfold assertValidTimeoutMs in Hv. destruct ms; [|done].
      destruct (_ || _); by simplify_eq. }
    simpl. intros H. by apply Hok in H. }
  assert (timeout_ok ms) as Hms by (by apply Hok).
  destruct (signal_aborted signal s) eqn:Hab; [done|].
  unfold acquire. rewrite Hab.
  destruct (js_lt (js_of_Z (active s)) (limit s)) eqn:Hlt; [done|].
  destruct (js_ge _ _) eqn:Hge; [done|].
  destruct (waitForTurn_spec signal ms (length (calls s)) s Hab) as (s' & -> & _).
  done.
Qed.

(** ** The configuration, along an execution *)

Lemma exec_static evs : ∀ s,
  config (exec s evs) = config s ∧ aborted s ⊆ aborted (exec s evs).
Proof.
  induction evs as [|ev evs IH]; intros s; simpl; [done|].
  destruct (IH (apply s ev)) as [Hc Ha]. destruct (apply_static s ev) as [Hc' Ha'].
  split; [congruence|]. etrans; [|exact Ha].
  rewrite Ha'. destruct ev; try done. case_bool_decide; [done|].
  intros x Hx. by right.
Qed.

(** X5: the fields declared [readonly] ([limit], [maxQueue], the default
    queue timeout and the default signal) are the same after any sequence
    of events, and a signal that has aborted stays aborted. *)
Theorem config_is_readonly s evs :
  config (exec s evs) = config s ∧
  ∀ sg, sg ∈ aborted s → sg ∈ aborted (exec s evs).
Proof.
  destruct (exec_static evs s) as [Hc Ha]. split; [done|].
  intros sg Hsg. by apply Ha.
Qed.

Lemma config_is_readonly_witness :
  config (exec (lim 3 no_opts) [EvAbort 4; EvRun plain; EvOnIdle no_idle_opts])
  = (JNum 3, JInf, None, None) ∧
  4 ∈ aborted (exec (exec (lim 3 no_opts) [EvAbort 4]) [EvRun plain; EvAbort 5]).
Proof.
  split.
  - apply (proj1 (config_is_readonly (lim 3 no_opts)
                    [EvAbort 4; EvRun plain; EvOnIdle no_idle_opts])).
  - apply (proj2 (config_is_readonly (exec (lim 3 no_opts) [EvAbort 4])
                    [EvRun plain; EvAbort 5])). by left.
Defined.

(** X6: once the limiter's default signal has aborted, every later [run]
    call that brings no signal of its own (and a valid timeout) is
    rejected with [AbortError] and leaves the state as it was. *)
Theorem default_signal_aborted_rejects s evs o sg :
  defaultSignal s = Some sg → sg ∈ aborted s →
  ro_signal o = None →
  timeout_ok (nullish (ro_queueTimeoutMs o) (defaultQueueTimeoutMs s)) →
  run o (exec s evs) = (exec s evs, RunRejected (AbortError BeforeStart)).
Proof.
  intros Hds Hab Hsig Hok. destruct (exec_static evs s) as [Hc Ha].
  injection Hc as _ _ Hdq Hds'.
  unfold run. rewrite Hsig, Hdq, Hds', Hds. simpl.
  apply assertValidTimeoutMs_ok in Hok. rewrite Hok.
  rewrite bool_decide_true; [done|]. by apply Ha.
Qed.

Lemma default_signal_aborted_rejects_witness :
  run plain
    (exec (exec (lim 2 (mkLimiterOptions None None (Some 9))) [EvRun plain; EvAbort 9])
       [EvComplete 0 (Returned 1)])
  = (exec (exec (lim 2 (mkLimiterOptions None None (Some 9))) [EvRun plain; EvAbort 9])
       [EvComplete 0 (Returned 1)],
     RunRejected (AbortError BeforeStart)).
Proof.
  apply (default_signal_aborted_rejects
           (exec (lim 2 (mkLimiterOptions None None (Some 9))) [EvRun plain; EvAbort 9])
           [EvComplete 0 (Returned 1)] plain 9); try reflexivity.
  by left.
Defined.

Lemma new_Limiter_config l o s :
  new_Limiter l o = inr s →
  config s = (l, default JInf (lo_maxQueue o), lo_queueTimeoutMs o, lo_signal o).
Proof.
  unfold new_Limiter. destruct (assertValidLimit l); [done|].
  destruct (assertValidMaxQueue _); [done|].
  destruct (assertValidTimeoutMs _); [done|]. by intros [= <-].
Qed.

(** X7: a limiter built without [maxQueue] has an unbounded queue: no
    [run] call on it, after any sequence of events, is rejected with
    [QueueOverflowError]. *)
Theorem unbounded_queue_never_overflows l lo s evs o :
  new_Limiter l lo = inr s → lo_maxQueue lo = None →
  snd (run o (exec s evs)) ≠ RunRejected QueueOverflowError.
Proof.
  intros Hnew Hmq Hres.
  pose proof (new_Limiter_config l lo s Hnew) as Hcfg.
  destruct (exec_static evs s) as [Hc _]. rewrite Hcfg, Hmq in Hc.
  injection Hc as _ Hm _ _.
  pose proof (run_decides o (exec s evs)) as H. simpl in H. rewrite Hres in H.
  destruct H as (_ & _ & _ & Hge). rewrite Hm in Hge. done.
Qed.

Lemma unbounded_queue_never_overflows_witness :
  snd (run plain (exec (lim 1 no_opts) [EvRun plain; EvRun plain; EvRun plain]))
  ≠ RunRejected QueueOverflowError.
Proof.
  apply (unbounded_queue_never_overflows (JNum 1) no_opts (lim 1 no_opts)
           [EvRun plain; EvRun plain; EvRun plain] plain); reflexivity.
Defined.

(** ** Consequences of the gate invariant *)

Lemma gate_inv_saturated a q es cs l :
  gate_inv a q es cs l → q ≠ [] → (0 < a)%Z.
Proof.
  intros Hinv Hq. destruct (gi_limit _ _ _ _ _ Hinv) as (x & -> & Hx).
  pose proof (gi_busy _ _ _ _ _ Hinv Hq) as Hb. simpl in Hb.
  apply Qlt_bool_false in Hb.
  assert (inject_Z 0 < inject_Z a)%Q as H by (unfold inject_Z at 1; lra).
  by rewrite <- Zlt_Qlt in H.
Qed.

Lemma count_running_pos cs : 0 < count_running cs → ∃ c, cs !! c = Some CRunning.
Proof.
  unfold count_running. intros H.
  destruct (filter (λ c, c = CRunning) cs) as [|x l] eqn:E; [simpl in H; lia|].
  assert (x ∈ filter (λ c, c = CRunning) cs) as Hx by (rewrite E; by left).
  apply list_elem_of_filter in Hx as [-> Hx]. by apply list_elem_of_lookup in Hx.
Qed.

(** X8: the gate is work-conserving and never lets a newcomer overtake:
    in a reachable state an entry waits in the queue only while
    [active < limit] is false, so a [run] call is admitted at once only
    when the queue is empty. *)
Theorem no_waiting_beside_a_free_slot s :
  reachable s →
  (queue s ≠ [] → js_lt (js_of_Z (active s)) (limit s) = false) ∧
  (∀ o c, snd (run o s) = RunAdmitted c → queue s = []).
Proof.
  intros Hr. pose proof (reachable_GateInv s Hr) as Hinv.
  pose proof (gi_busy _ _ _ _ _ Hinv) as Hb. split; [done|].
  intros o c Hres. destruct (run_cases o s) as [[err H]|[[Hlt H]|[Hlt H]]].
  - rewrite H in Hres. done.
  - destruct (queue s) as [|h q]; [done|]. rewrite Hb in Hlt; done.
  - destruct H as (s' & sg & qt & H & _). rewrite H in Hres. done.
Qed.

Lemma no_waiting_beside_a_free_slot_witness :
  reachable one_running_two_queued ∧
  js_lt (js_of_Z (active one_running_two_queued)) (limit one_running_two_queued) = false.
Proof.
  split; [apply reachable_one_running_two_queued|].
  by apply (proj1 (no_waiting_beside_a_free_slot one_running_two_queued
                     reachable_one_running_two_queued)).
Defined.

(** X9: in a reachable state [activeCount] is the number of [run] calls
    that hold a slot: those admitted, at once or by handoff, whose
    [finally] block has not run yet. *)
Theorem activeCount_counts_running s :
  reachable s → activeCount s = Z.of_nat (count_running (calls s)).
Proof. intros Hr. apply (gi_count _ _ _ _ _ (reachable_GateInv s Hr)). Qed.

Lemma activeCount_counts_running_witness :
  reachable two_and_a_half ∧ activeCount two_and_a_half = 3%Z.
Proof.
  split; [apply reachable_two_and_a_half|].
  apply (activeCount_counts_running two_and_a_half reachable_two_and_a_half).
Defined.

(** The size of the work in the gate. *)
Lemma complete_measure s c o :
  GateInv s → calls s !! c = Some CRunning →
  (active (complete c o s) + Z.of_nat (length (queue (complete c o s)))
   = active s + Z.of_nat (length (queue s)) - 1)%Z.
Proof.
  intros Hinv Hc. unfold complete. rewrite Hc. simpl.
  destruct (queue s) as [|h q] eqn:Hq.
  - rewrite (release_nil _ Hq).
    match goal with |- context [emitIdleIfNeeded ?m] =>
      destruct (emitIdleIfNeeded_frame m) as ((Ha1 & Hq1 & _) & _)
    end.
    rewrite Ha1, Hq1. simpl. rewrite Hq. simpl. lia.
  - destruct (gi_queued _ _ _ _ _ Hinv h) as (ent & He & Hrm & Hst).
    { rewrite Hq. by left. }
    destruct (release_live s h q ent Hq He Hrm Hst) as (Ha & Hq' & _).
    rewrite Ha, Hq'. simpl length. lia.
Qed.

Lemma not_idle_running s :
  GateInv s → ¬ idle s → ∃ c, calls s !! c = Some CRunning.
Proof.
  intros Hinv Hn. apply count_running_pos.
  assert (0 < active s)%Z as Hpos.
  { destruct (queue s) as [|h q] eqn:Hq.
    - pose proof (gi_count _ _ _ _ _ Hinv) as Hc.
      destruct (decide (active s = 0%Z)) as [Ha|Ha]; [|lia].
      exfalso. apply Hn. by split.
    - eapply gate_inv_saturated; [exact Hinv|]. by rewrite Hq. }
  rewrite (gi_count _ _ _ _ _ Hinv) in Hpos. lia.
Qed.

Lemma drain_by_completions n : ∀ s,
  reachable s →
  (active s + Z.of_nat (length (queue s)))%Z = Z.of_nat n →
  ∃ evs, length evs = n ∧ Forall (λ ev, ∃ c o, ev = EvComplete c o) evs ∧
         idle (exec s evs).
Proof.
  induction n as [|n IH]; intros s Hr Hn.
  - exists []. split_and!; [done|constructor|]. simpl.
    pose proof (reachable_GateInv s Hr) as Hinv.
    pose proof (gi_count _ _ _ _ _ Hinv). split; [lia|].
    destruct (queue s); [done|simpl in Hn; lia].
  - pose proof (reachable_GateInv s Hr) as Hinv.
    destruct (not_idle_running s Hinv) as [c Hc].
    { intros [Ha Hq]. rewrite Ha, Hq in Hn. simpl in Hn. lia. }
    pose proof (complete_measure s c (Returned 0) Hinv Hc) as Hm.
    destruct (IH (apply s (EvComplete c (Returned 0)))) as (evs & Hlen & Hall & Hidle).
    + by constructor.
    + simpl. lia.
    + exists (EvComplete c (Returned 0) :: evs). split_and!.
      * simpl. by rewrite Hlen.
      * constructor; [by eexists _, _|done].
      * done.
Qed.

(** X10: the gate cannot get stuck. In a reachable state that is not
    idle some call holds a slot; the completion of a call that holds a
    slot lowers [activeCount + pendingCount] by exactly one; and so
    exactly that many task completions, with no abort and no timeout,
    drain the gate. *)
Theorem gate_drains s :
  reachable s →
  (¬ idle s → ∃ c, calls s !! c = Some CRunning) ∧
  (∀ c o, calls s !! c = Some CRunning →
     (activeCount (complete c o s) + Z.of_nat (pendingCount (complete c o s))
      = activeCount s + Z.of_nat (pendingCount s) - 1)%Z) ∧
  (∃ evs, Z.of_nat (length evs) = (activeCount s + Z.of_nat (pendingCount s))%Z ∧
     Forall (λ ev, ∃ c o, ev = EvComplete c o) evs ∧
     activeCount (exec s evs) = 0%Z ∧ pendingCount (exec s evs) = 0).
Proof.
  intros Hr. pose proof (reachable_GateInv s Hr) as Hinv. split_and!.
  - by apply not_idle_running.
  - intros c o Hc. by apply complete_measure.
  - pose proof (gi_count _ _ _ _ _ Hinv) as Hcount.
    destruct (drain_by_completions
                (count_running (calls s) + length (queue s)) s Hr)
      as (evs & Hlen & Hall & [Ha Hq]).
    { rewrite Hcount. lia. }
    exists evs. unfold activeCount, pendingCount. split_and!; [|done|done|by rewrite Hq].
    rewrite Hlen, Hcount. lia.
Qed.

Lemma gate_drains_witness :
  reachable one_running_two_queued ∧
  (activeCount (complete 0 (Returned 0) one_running_two_queued)
   + Z.of_nat (pendingCount (complete 0 (Returned 0) one_running_two_queued)) = 2)%Z.
Proof.
  split; [apply reachable_one_running_two_queued|].
  apply (proj1 (proj2 (gate_drains one_running_two_queued
                         reachable_one_running_two_queued)) 0 (Returned 0)).
  reflexivity.
Defined.

(** ** What is decided stays decided *)

Lemma quiet_step_refl s : quiet_step s s.
Proof. split_and!; [|done|done]. intros e ent He _. by exists ent. Qed.

Lemma quiet_step_trans s1 s2 s3 : quiet_step s1 s2 → quiet_step s2 s3 → quiet_step s1 s3.
Proof.
  intros (He1 & Hc1 & Hq1) (He2 & Hc2 & Hq2). split_and!; [| |lia].
  - intros e ent He Hp. destruct (He1 e ent He Hp) as (ent2 & He' & Hp2).
    destruct (He2 e ent2 He') as (ent3 & He'' & Hp3); [congruence|].
    exists ent3. split; [done|congruence].
  - intros c st Hc Hst. apply Hc2; [|done]. by apply Hc1.
Qed.

Lemma quiet_step_frame s s' :
  entries s' = entries s → calls s' = calls s → queue s' = queue s → quiet_step s s'.
Proof.
  intros He Hc Hq. split_and!; [| |by rewrite Hq].
  - intros e ent Hx _. exists ent. by rewrite He.
  - intros c st Hx _. by rewrite Hc.
Qed.

Lemma length_spliced e q : length (spliced e q) ≤ length q.
Proof. apply sublist_length, spliced_sublist. Qed.

Lemma invoke_quiet cb s : GateInv s → quiet_step s (invoke cb s).
Proof.
  intros Hinv.
  assert (∀ e err, quiet_step s (fst (defer_reject e err (removeFromQueue e s)))) as Hent.
  { intros e err. destruct (entries s !! e) as [ent|] eqn:He.
    - destruct (removed ent) eqn:Hr.
      + rewrite reject_gone; [apply quiet_step_refl|]. intros ent' He'. simplify_eq.
        split; [done|]. by rewrite (gi_settled _ _ _ _ _ Hinv _ _ He).
      + assert (settled ent = false) as Hst
          by (by rewrite (gi_settled _ _ _ _ _ Hinv _ _ He)).
        destruct (reject_queued e ent err s He Hr Hst) as (_ & Hq & _ & Hes & Hc & _).
        pose proof (gi_waiter _ _ _ _ _ Hinv _ _ He Hst) as Hw.
        pose proof (proj1 (gi_promise _ _ _ _ _ Hinv _ _ He) Hst) as Hp.
        split_and!.
        * intros e' x Hx Hpx. rewrite Hes. exists x. split; [|done].
          rewrite list_lookup_insert_ne; [done|]. intros ->. congruence.
        * intros c st Hx Hne. rewrite Hc. rewrite list_lookup_insert_ne; [done|].
          intros <-. rewrite Hw in Hx. injection Hx as <-. by apply (Hne e).
        * rewrite Hq. apply length_spliced.
    - rewrite reject_gone; [apply quiet_step_refl|]. intros ent' He'. congruence. }
  destruct cb as [e|e|w|w]; simpl; try apply Hent.
  - destruct (finish_frame w (Some (AbortError IdleWait)) s) as [(_ & Hq & He & Hc & _) _].
    by apply quiet_step_frame.
  - destruct (finish_frame w (Some IdleTimeoutError) s) as [(_ & Hq & He & Hc & _) _].
    by apply quiet_step_frame.
Qed.

Lemma dispatch_quiet sg cbs : ∀ s,
  GateInv s → quiet_step s (foldl (dispatch_one sg) s cbs).
Proof.
  induction cbs as [|cb cbs IH]; intros s Hinv; simpl; [apply quiet_step_refl|].
  assert (GateInv (removeEventListener sg cb s)) as Hinv'.
  { eapply gate_eq_inv; [|done]. by repeat split. }
  eapply quiet_step_trans; [|apply IH].
  - unfold dispatch_one. case_bool_decide; [|apply quiet_step_refl].
    eapply quiet_step_trans; [|by apply invoke_quiet]. by apply quiet_step_frame.
  - unfold dispatch_one. case_bool_decide; [|done]. by apply GateInv_invoke.
Qed.

Lemma abort_quiet sg s : GateInv s → quiet_step s (abort sg s).
Proof.
  intros Hinv. unfold abort. case_bool_decide; [apply quiet_step_refl|].
  eapply quiet_step_trans; [|apply dispatch_quiet].
  - by apply quiet_step_frame.
  - eapply gate_eq_inv; [|done]. by repeat split.
Qed.

Lemma fire_quiet t s : GateInv s → quiet_step s (fire t s).
Proof.
  intros Hinv. unfold fire. destruct (lookup_timer t (timers s)); [|apply quiet_step_refl].
  eapply quiet_step_trans; [|apply invoke_quiet].
  - by apply quiet_step_frame.
  - eapply gate_eq_inv; [|done]. by repeat split.
Qed.

Lemma onIdle_quiet o s : quiet_step s (fst (onIdle o s)).
Proof.
  destruct (onIdle_gate_eq o s) as (_ & Hq & He & Hc & _). by apply quiet_step_frame.
Qed.

(** A task finishing settles its own call and may resume the call at the
    head of the queue; nothing else. *)
Lemma complete_quiet c o s :
  GateInv s → calls s !! c = Some CRunning →
  (∀ e ent, entries s !! e = Some ent → promise ent ≠ Pending →
     ∃ ent', entries (complete c o s) !! e = Some ent' ∧ promise ent' = promise ent) ∧
  (∀ c' st, calls s !! c' = Some st → (∀ e, st ≠ CWaiting e) → c' ≠ c →
     calls (complete c o s) !! c' = Some st) ∧
  length (queue (complete c o s)) ≤ length (queue s).
Proof.
  intros Hinv Hc. unfold complete. rewrite Hc. simpl.
  destruct (queue s) as [|h q] eqn:Hq.
  - rewrite (release_nil _ Hq).
    match goal with |- context [emitIdleIfNeeded ?m] =>
      destruct (emitIdleIfNeeded_frame m) as ((_ & Hq1 & Hes1 & Hc1 & _) & _)
    end.
    rewrite Hq1, Hes1, Hc1. simpl. rewrite Hq. split_and!; [| |done].
    + intros e ent He _. by exists ent.
    + intros c' st Hx _ Hne. by rewrite list_lookup_insert_ne.
  - destruct (gi_queued _ _ _ _ _ Hinv h) as (ent & He & Hrm & Hst).
    { rewrite Hq. by left. }
    destruct (release_live s h q ent Hq He Hrm Hst) as (_ & Hq' & _ & Hes & Hcs & _).
    pose proof (gi_waiter _ _ _ _ _ Hinv _ _ He Hst) as Hw.
    pose proof (proj1 (gi_promise _ _ _ _ _ Hinv _ _ He) Hst) as Hp.
    rewrite Hq', Hes, Hcs. split_and!; [| |simpl; lia].
    + intros e x Hx Hpx. exists x. split; [|done].
      rewrite list_lookup_insert_ne; [done|]. intros ->. congruence.
    + intros c' st Hx Hne Hcc. rewrite !list_lookup_insert_ne; [done| |done].
      intros <-. rewrite Hw in Hx. injection Hx as <-. by apply (Hne h).
Qed.

Lemma run_quiet o s :
  (∀ e ent, entries s !! e = Some ent →
     entries (fst (run o s)) !! e = Some ent) ∧
  (∀ c st, calls s !! c = Some st → calls (fst (run o s)) !! c = Some st).
Proof.
  destruct (run_cases o s) as [[err ->]|[[Hlt ->]|[Hlt H]]]; [done| |].
  - simpl. split; [done|]. intros c st Hc. by apply lookup_app_l_Some.
  - destruct H as (s' & sg & qt & -> & _ & _ & _ & Hes & Hcs & _). simpl.
    rewrite Hes, Hcs. split; intros; by apply lookup_app_l_Some.
Qed.

(** X11: what the gate has decided is final. Along any event from a
    reachable state, an entry whose promise is settled keeps it (an
    admission is never revoked, a timeout or abort never turns into an
    admission), a settled call stays settled with the same outcome, and a
    call that holds a slot keeps it until its own task finishes: no abort
    and no timeout touches a running task. *)
Theorem decisions_are_final s ev :
  reachable s →
  (∀ e ent, entries s !! e = Some ent → promise ent ≠ Pending →
     ∃ ent', entries (apply s ev) !! e = Some ent' ∧ promise ent' = promise ent) ∧
  (∀ c o, calls s !! c = Some (CSettled o) →
     calls (apply s ev) !! c = Some (CSettled o)) ∧
  (∀ c, calls s !! c = Some CRunning →
     calls (apply s ev) !! c = Some CRunning ∨ ∃ o, ev = EvComplete c o).
Proof.
  intros Hr. pose proof (reachable_GateInv s Hr) as Hinv.
  assert (∀ s', quiet_step s s' →
    (∀ e ent, entries s !! e = Some ent → promise ent ≠ Pending →
       ∃ ent', entries s' !! e = Some ent' ∧ promise ent' = promise ent) ∧
    (∀ c o, calls s !! c = Some (CSettled o) → calls s' !! c = Some (CSettled o)) ∧
    (∀ c, calls s !! c = Some CRunning → calls s' !! c = Some CRunning)) as Hquiet.
  { intros s' (He & Hc & _). split_and!; [done| |]; intros; by apply Hc. }
  destruct ev as [o|c o|sg|t|o]; simpl.
  - destruct (run_quiet o s) as [He Hc]. split_and!.
    + intros e ent Hx _. exists ent. split; [by apply He|done].
    + intros c o' Hx. by apply Hc.
    + intros c Hx. left. by apply Hc.
  - destruct (calls s !! c) as [[e| |o']|] eqn:Hc.
    1,3,4: unfold complete; rewrite Hc; split_and!;
      [intros e' ent Hx _; by exists ent|done|intros; by left].
    destruct (complete_quiet c o s Hinv Hc) as (He & Hcs & _). split_and!.
    + done.
    + intros c' o' Hx. apply Hcs; [done|done|]. intros ->. congruence.
    + intros c' Hx. destruct (decide (c' = c)) as [->|Hne]; [right; by exists o|].
      left. by apply Hcs.
  - destruct (Hquiet _ (abort_quiet sg s Hinv)) as (? & ? & H). split_and!; [done..|].
    intros c Hc. left. by apply H.
  - destruct (Hquiet _ (fire_quiet t s Hinv)) as (? & ? & H). split_and!; [done..|].
    intros c Hc. left. by apply H.
  - destruct (Hquiet _ (onIdle_quiet o s)) as (? & ? & H). split_and!; [done..|].
    intros c Hc. left. by apply H.
Qed.

Lemma decisions_are_final_witness :
  reachable one_running_one_timed ∧
  (calls (apply one_running_one_timed (EvAbort 7)) !! 0 = Some CRunning ∨
   ∃ o, EvAbort 7 = EvComplete 0 o).
Proof.
  split; [apply reachable_one_running_one_timed|].
  apply (proj2 (proj2 (decisions_are_final one_running_one_timed (EvAbort 7)
                         reachable_one_running_one_timed)) 0).
  reflexivity.
Defined.

(** ** The queue stays within [maxQueue] *)

Lemma queue_bounded_shrink s s' :
  maxQueue s' = maxQueue s → length (queue s') ≤ length (queue s) →
  queue_bounded s → queue_bounded s'.
Proof.
  intros Hm Hlen Hb m Hm'. rewrite Hm in Hm'. specialize (Hb m Hm').
  eapply Qle_lt_trans; [|exact Hb]. rewrite <- Zle_Qle. lia.
Qed.

Lemma queue_bounded_apply s ev : GateInv s → queue_bounded s → queue_bounded (apply s ev).
Proof.
  intros Hinv Hb.
  assert (maxQueue (apply s ev) = maxQueue s) as Hm.
  { destruct (apply_static s ev) as [Hc _]. by injection Hc. }
  destruct ev as [o|c o|sg|t|o]; simpl in *.
  - pose proof (run_decides o s) as Hd. simpl in Hd.
    destruct (run_cases o s) as [[err Hrun]|[[Hlt Hrun]|[Hlt H]]].
    + rewrite Hrun in *. done.
    + rewrite Hrun in *. apply (queue_bounded_shrink s); simpl; done.
    + destruct H as (s' & sg & qt & Hrun & _ & Hq & _).
      rewrite Hrun in *. simpl in *. destruct Hd as (_ & _ & _ & Hge & _).
      intros m Hm'. rewrite Hm in Hm'. rewrite Hm' in Hge.
      unfold js_ge, js_le, js_of_nat in Hge.
      assert (inject_Z (Z.of_nat (length (queue s))) < m)%Q as Hlt'.
      { apply Qnot_le_lt. intros Hle. apply Qle_bool_iff in Hle. congruence. }
      rewrite Hq, length_app. simpl.
      replace (Z.of_nat (length (queue s) + 1)) with (Z.of_nat (length (queue s)) + 1)%Z
        by lia.
      rewrite inject_Z_succ. lra.
  - destruct (calls s !! c) as [[e| |o']|] eqn:Hc.
    1,3,4: unfold complete in *; rewrite Hc in *; done.
    apply (queue_bounded_shrink s); [done| |done].
    by destruct (complete_quiet c o s Hinv Hc) as (_ & _ & ?).
  - apply (queue_bounded_shrink s); [done| |done].
    by destruct (abort_quiet sg s Hinv) as (_ & _ & ?).
  - apply (queue_bounded_shrink s); [done| |done].
    by destruct (fire_quiet t s Hinv) as (_ & _ & ?).
  - apply (queue_bounded_shrink s); [done| |done].
    by destruct (onIdle_quiet o s) as (_ & _ & ?).
Qed.

Lemma reachable_queue_bounded s : reachable s → queue_bounded s ∧ maxQueue_ok (maxQueue s).
Proof.
  induction 1 as [l o s Hnew|s ev Hr [IH Hok]].
  - pose proof (new_Limiter_config l o s Hnew) as Hc. injection Hc as _ Hm _ _.
    assert (queue s = []) as Hq.
    { unfold new_Limiter in Hnew. destruct (assertValidLimit l); [done|].
      destruct (assertValidMaxQueue _); [done|].
      destruct (assertValidTimeoutMs _); [done|]. by injection Hnew as <-. }
    assert (maxQueue_ok (maxQueue s)) as Hok.
    { rewrite Hm. apply assertValidMaxQueue_ok. unfold new_Limiter in Hnew.
      destruct (assertValidLimit l); [done|].
      by destruct (assertValidMaxQueue _). }
    split; [|done]. intros m Hm'. rewrite Hq. simpl.
    rewrite Hm' in Hok. unfold maxQueue_ok in Hok.
    change (Z.of_nat 0) with 0%Z. unfold inject_Z. lra.
  - split; [apply queue_bounded_apply; [by apply reachable_GateInv|done]|].
    destruct (apply_static s ev) as [Hc _]. injection Hc as _ -> _ _. done.
Qed.

(** X12: the queue respects [maxQueue]. In a reachable state
    [pendingCount < maxQueue + 1], so [pendingCount <= maxQueue] whenever
    [maxQueue] is an integer; with [maxQueue: 0] nothing ever waits. *)
Theorem pendingCount_within_maxQueue s :
  reachable s →
  (∀ m, maxQueue s = JNum m →
     (inject_Z (Z.of_nat (pendingCount s)) < m + 1)%Q ∧
     ∀ n : Z, (m == inject_Z n)%Q → (Z.of_nat (pendingCount s) <= n)%Z) ∧
  (maxQueue s = JNum 0 → queue s = []).
Proof.
  intros Hr. destruct (reachable_queue_bounded s Hr) as [Hb _].
  assert (∀ m, maxQueue s = JNum m →
     (inject_Z (Z.of_nat (pendingCount s)) < m + 1)%Q ∧
     ∀ n : Z, (m == inject_Z n)%Q → (Z.of_nat (pendingCount s) <= n)%Z) as H.
  { intros m Hm. specialize (Hb m Hm). split; [done|].
    intros n Hn. unfold pendingCount. rewrite Hn in Hb.
    rewrite <- inject_Z_succ in Hb. rewrite <- Zlt_Qlt in Hb. lia. }
  split; [done|]. intros Hm. destruct (H 0%Q Hm) as [_ Hn].
  specialize (Hn 0%Z ltac:(reflexivity)). unfold pendingCount in Hn.
  destruct (queue s); [done|simpl in Hn; lia].
Qed.

Lemma pendingCount_within_maxQueue_witness :
  reachable no_queue_busy ∧ queue no_queue_busy = [].
Proof.
  assert (reachable no_queue_busy) as Hr.
  { apply reachable_exec.
    by eapply (reachable_new (JNum 1) (mkLimiterOptions (Some (JNum 0)) None None)). }
  split; [done|].
  by apply (proj2 (pendingCount_within_maxQueue no_queue_busy Hr)).
Defined.

(** ** Nothing stays attached to the host *)

Lemma call_cleanup_host s f :
  listeners (call_cleanup s f)
  = filter (λ p, RmAbort p.1 p.2 ≠ f) (listeners s) ∧
  timers (call_cleanup s f) = filter (λ p, ClearTimeout p.1 ≠ f) (timers s).
Proof.
  destruct f as [sg cb|t|w]; simpl; split.
  - apply list_filter_iff. intros [sg' cb']. simpl. split; congruence.
  - symmetry. by apply filter_all.
  - symmetry. by apply filter_all.
  - apply list_filter_iff. intros [t' cb']. simpl. split; congruence.
  - symmetry. by apply filter_all.
  - symmetry. by apply filter_all.
Qed.

Lemma foldl_call_cleanup_host fs : ∀ s,
  listeners (foldl call_cleanup s fs)
  = filter (λ p, RmAbort p.1 p.2 ∉ fs) (listeners s) ∧
  timers (foldl call_cleanup s fs)
  = filter (λ p, ClearTimeout p.1 ∉ fs) (timers s).
Proof.
  induction fs as [|f fs IH]; intros s; simpl.
  - split; symmetry; apply filter_all; intros x _; apply not_elem_of_nil.
  - destruct (IH (call_cleanup s f)) as [Hl Ht].
    destruct (call_cleanup_host s f) as [Hl' Ht']. split.
    + rewrite Hl, Hl', list_filter_filter. apply list_filter_iff.
      intros x. rewrite not_elem_of_cons. tauto.
    + rewrite Ht, Ht', list_filter_filter. apply list_filter_iff.
      intros x. rewrite not_elem_of_cons. tauto.
Qed.

Lemma entry_remove_host e ent s :
  entries s !! e = Some ent → removed ent = false →
  listeners (entry_remove e s)
  = filter (λ p, RmAbort p.1 p.2 ∉ cleanup ent) (listeners s) ∧
  timers (entry_remove e s)
  = filter (λ p, ClearTimeout p.1 ∉ cleanup ent) (timers s).
Proof.
  intros He Hr. unfold entry_remove. rewrite He, Hr.
  match goal with |- context [foldl call_cleanup ?s0 ?fs] =>
    destruct (foldl_call_cleanup_host fs s0) as [Hl Ht]
  end. done.
Qed.

Lemma finish_host w r err s :
  waiters s !! w = Some r → w_done r = false →
  listeners (finish w err s)
  = filter (λ p, RmAbort p.1 p.2 ∉ cleanups r) (listeners s) ∧
  timers (finish w err s)
  = filter (λ p, ClearTimeout p.1 ∉ cleanups r) (timers s).
Proof.
  intros Hw Hd. unfold finish. rewrite Hw, Hd. cbv zeta.
  match goal with |- context [foldl call_cleanup ?s0 ?fs] =>
    destruct (foldl_call_cleanup_host fs s0) as [Hl Ht];
    generalize dependent (foldl call_cleanup s0 fs)
  end.
  simpl. intros s2 Hl Ht. by destruct (waiters s2 !! w).
Qed.

(** Owners survive whatever leaves their flags and lists alone. *)
Lemma HostInv_keep s s' :
  HostInv s →
  listeners s' ⊆ listeners s → timers s' ⊆ timers s →
  (∀ e ent, entries s !! e = Some ent → removed ent = false →
     (∀ sg cb, (sg, cb) ∈ listeners s' → RmAbort sg cb ∈ cleanup ent →
        ∃ ent', entries s' !! e = Some ent' ∧ removed ent' = false ∧
                cleanup ent ⊆ cleanup ent') ∧
     (∀ t cb, (t, cb) ∈ timers s' → ClearTimeout t ∈ cleanup ent →
        ∃ ent', entries s' !! e = Some ent' ∧ removed ent' = false ∧
                cleanup ent ⊆ cleanup ent')) →
  (∀ w r, waiters s !! w = Some r → w_done r = false →
     (∀ sg cb, (sg, cb) ∈ listeners s' → RmAbort sg cb ∈ cleanups r →
        ∃ r', waiters s' !! w = Some r' ∧ w_done r' = false ∧
              cleanups r ⊆ cleanups r') ∧
     (∀ t cb, (t, cb) ∈ timers s' → ClearTimeout t ∈ cleanups r →
        ∃ r', waiters s' !! w = Some r' ∧ w_done r' = false ∧
              cleanups r ⊆ cleanups r')) →
  HostInv s'.
Proof.
  intros [Hl Ht] Hsl Hst He Hw. split.
  - intros sg cb Hin. pose proof (Hl sg cb (Hsl _ Hin)) as Ho.
    destruct cb as [e|e|w|w]; simpl in *; try done.
    + destruct Ho as (ent & Hx & Hr & Hf).
      destruct (proj1 (He e ent Hx Hr) sg _ Hin Hf) as (ent' & ? & ? & Hsub).
      exists ent'. split_and!; [done|done|by apply Hsub].
    + destruct Ho as (r & Hx & Hd & Hf).
      destruct (proj1 (Hw w r Hx Hd) sg _ Hin Hf) as (r' & ? & ? & Hsub).
      exists r'. split_and!; [done|done|by apply Hsub].
  - intros t cb Hin. pose proof (Ht t cb (Hst _ Hin)) as Ho.
    destruct cb as [e|e|w|w]; simpl in *; try done.
    + destruct Ho as (ent & Hx & Hr & Hf).
      destruct (proj2 (He e ent Hx Hr) t _ Hin Hf) as (ent' & ? & ? & Hsub).
      exists ent'. split_and!; [done|done|by apply Hsub].
    + destruct Ho as (r & Hx & Hd & Hf).
      destruct (proj2 (Hw w r Hx Hd) t _ Hin Hf) as (r' & ? & ? & Hsub).
      exists r'. split_and!; [done|done|by apply Hsub].
Qed.

Lemma HostInv_frame s s' :
  HostInv s → listeners s' ⊆ listeners s → timers s' ⊆ timers s →
  entries s' = entries s → waiters s' = waiters s → HostInv s'.
Proof.
  intros Hinv Hl Ht He Hw. apply (HostInv_keep s); [done..| |].
  - intros e ent Hx Hr. rewrite He. split; intros; exists ent; by split_and!.
  - intros w r Hx Hd. rewrite Hw. split; intros; exists r; by split_and!.
Qed.

Lemma filter_subseteq_self {A} (P : A → Prop) `{!∀ x, Decision (P x)} (l : list A) :
  filter P l ⊆ l.
Proof. intros x Hx. by apply list_elem_of_filter in Hx as [_ ?]. Qed.

Lemma entry_remove_HostInv e s : HostInv s → HostInv (entry_remove e s).
Proof.
  intros Hinv. destruct (entries s !! e) as [ent|] eqn:He.
  - destruct (removed ent) eqn:Hr.
    + by rewrite entry_remove_noop by (intros; congruence).
    + destruct (entry_remove_spec e ent s He Hr) as (_ & _ & _ & _ & Hw & _ & Hes & _).
      destruct (entry_remove_host e ent s He Hr) as [Hl Ht].
      apply (HostInv_keep s); [done|..].
      * rewrite Hl. apply filter_subseteq_self.
      * rewrite Ht. apply filter_subseteq_self.
      * intros e' x Hx Hrx. rewrite Hl, Ht, Hes. split.
        -- intros sg cb Hin Hf. apply list_elem_of_filter in Hin as [Hni _]. simpl in Hni.
           exists x. split_and!; [|done|done].
           rewrite list_lookup_insert_ne; [done|]. intros ->. simplify_eq. done.
        -- intros t cb Hin Hf. apply list_elem_of_filter in Hin as [Hni _]. simpl in Hni.
           exists x. split_and!; [|done|done].
           rewrite list_lookup_insert_ne; [done|]. intros ->. simplify_eq. done.
      * intros w r Hx Hd. rewrite Hw. split; intros; exists r; by split_and!.
  - by rewrite entry_remove_noop by (intros; congruence).
Qed.

Lemma finish_HostInv w err s : HostInv s → HostInv (finish w err s).
Proof.
  intros Hinv. destruct (waiters s !! w) as [r|] eqn:Hw.
  - destruct (w_done r) eqn:Hd.
    + by rewrite finish_noop by (intros; congruence).
    + destruct (finish_spec w r err s Hw Hd) as (Hws & _).
      destruct (finish_frame w err s) as [(_ & _ & Hes & _) _].
      destruct (finish_host w r err s Hw Hd) as [Hl Ht].
      apply (HostInv_keep s); [done|..].
      * rewrite Hl. apply filter_subseteq_self.
      * rewrite Ht. apply filter_subseteq_self.
      * intros e x Hx Hrx. rewrite Hes. split; intros; exists x; by split_and!.
      * intros w' x Hx Hdx. rewrite Hl, Ht, Hws. split.
        -- intros sg cb Hin Hf. apply list_elem_of_filter in Hin as [Hni _]. simpl in Hni.
           exists x. split_and!; [|done|done].
           rewrite list_lookup_insert_ne; [done|]. intros ->. simplify_eq. done.
        -- intros t cb Hin Hf. apply list_elem_of_filter in Hin as [Hni _]. simpl in Hni.
           exists x. split_and!; [|done|done].
           rewrite list_lookup_insert_ne; [done|]. intros ->. simplify_eq. done.
  - by rewrite finish_noop by (intros; congruence).
Qed.

Lemma emitIdleIfNeeded_HostInv s : HostInv s → HostInv (emitIdleIfNeeded s).
Proof.
  intros Hinv. unfold emitIdleIfNeeded. destruct (negb _ || negb _); [done|].
  generalize (idleWaiters s). intros ws. revert s Hinv.
  induction ws as [|w ws IH]; intros s Hinv; simpl; [done|].
  by apply IH, finish_HostInv.
Qed.

Lemma settle_HostInv s s' e ent ent' :
  HostInv s → entries s !! e = Some ent →
  entries s' = <[e := ent']> (entries s) →
  cleanup ent' = cleanup ent → removed ent' = removed ent →
  waiters s' = waiters s → listeners s' = listeners s → timers s' = timers s →
  HostInv s'.
Proof.
  intros Hinv He Hes Hcl Hrm Hw Hl Ht.
  apply (HostInv_keep s); [done|by rewrite Hl|by rewrite Ht|..].
  - intros e' x Hx Hrx. rewrite Hes.
    assert (∃ x', <[e:=ent']> (entries s) !! e' = Some x' ∧ removed x' = false ∧
                  cleanup x ⊆ cleanup x') as H.
    { destruct (decide (e = e')) as [<-|Hne].
      - rewrite list_lookup_insert_eq by (by eapply lookup_lt_Some).
        simplify_eq. exists ent'. split_and!; [done|congruence|by rewrite Hcl].
      - rewrite list_lookup_insert_ne by done. by exists x. }
    split; intros; exact H.
  - intros w r Hx Hd. rewrite Hw. split; intros; exists r; by split_and!.
Qed.

Lemma defer_resolve_HostInv e s : HostInv s → HostInv (fst (defer_resolve e s)).
Proof.
  intros Hinv. unfold defer_resolve.
  destruct (entries s !! e) as [ent|] eqn:He; [|done].
  destruct (settled ent); [done|]. simpl.
  by eapply (settle_HostInv s _ e ent).
Qed.

Lemma defer_reject_HostInv e err s : HostInv s → HostInv (fst (defer_reject e err s)).
Proof.
  intros Hinv. unfold defer_reject.
  destruct (entries s !! e) as [ent|] eqn:He; [|done].
  destruct (settled ent); [done|]. simpl.
  by eapply (settle_HostInv s _ e ent).
Qed.

Lemma removeFromQueue_HostInv e s : HostInv s → HostInv (removeFromQueue e s).
Proof.
  intros Hinv. destruct (entries s !! e) as [ent|] eqn:He.
  - destruct (removed ent) eqn:Hr.
    + by rewrite removeFromQueue_noop by (intros; congruence).
    + rewrite (removeFromQueue_eq _ _ _ He Hr). apply emitIdleIfNeeded_HostInv.
      apply (HostInv_frame (entry_remove e s)); [by apply entry_remove_HostInv|done..].
  - by rewrite removeFromQueue_noop by (intros; congruence).
Qed.

Lemma invoke_HostInv cb s : HostInv s → HostInv (invoke cb s).
Proof.
  intros Hinv. destruct cb as [e|e|w|w]; simpl.
  - by apply defer_reject_HostInv, removeFromQueue_HostInv.
  - by apply defer_reject_HostInv, removeFromQueue_HostInv.
  - by apply finish_HostInv.
  - by apply finish_HostInv.
Qed.

Lemma dispatch_HostInv sg cbs : ∀ s,
  HostInv s → HostInv (foldl (dispatch_one sg) s cbs).
Proof.
  induction cbs as [|cb cbs IH]; intros s Hinv; simpl; [done|].
  apply IH. unfold dispatch_one. case_bool_decide; [|done].
  apply invoke_HostInv. apply (HostInv_frame s); [done| |done..].
  apply filter_subseteq_self.
Qed.

Lemma release_loop_HostInv n : ∀ s s',
  HostInv s → release_loop n s = Some s' → HostInv s'.
Proof.
  induction n as [|n IH]; intros s s' Hinv H; [done|]. simpl in H.
  unfold shiftNext in H.
  destruct (shiftNext_from (entries s) (queue s)) as [[next|] q'].
  - pose proof (defer_resolve_HostInv next (entry_remove next (set_queue q' s))) as Hc.
    destruct (defer_resolve next (entry_remove next (set_queue q' s))) as [s3 b].
    simpl in Hc.
    assert (HostInv s3) as Hs3.
    { apply Hc, entry_remove_HostInv. by apply (HostInv_frame s). }
    destruct b; [by simplify_eq|]. by eapply IH.
  - simplify_eq. apply emitIdleIfNeeded_HostInv. by apply (HostInv_frame s).
Qed.
Lemma waitForTurn_host signal qt c s :
  signal_aborted signal s = false →
  listeners (fst (waitForTurn signal qt c s))
  = listeners s ++
    match signal with Some sg => [(sg, EntryAbort (length (entries s)))] | None => [] end ∧
  timers (fst (waitForTurn signal qt c s))
  = timers s ++
    match qt with Some _ => [(next_timer s, EntryTimeout (length (entries s)))] | None => [] end.
Proof.
  intros Hab. unfold waitForTurn. rewrite Hab.
  unfold makeQueueEntry, addAbortHandler, setTimeout.
  destruct signal as [sg|], qt as [ms|]; simpl.
  all: repeat match goal with
       | |- context [cleanup_push (length ?es) ?f ?st] =>
           lazymatch st with
           | context [cleanup_push] => fail
           | _ => rewrite (cleanup_push_last st es _ f eq_refl); simpl
           end
       end.
  all: by rewrite ?app_nil_r.
Qed.

(** Allocation keeps the owners there were. *)
Lemma HostInv_extend s s' es ws :
  HostInv s →
  entries s' = entries s ++ es → waiters s' = waiters s ++ ws →
  (∀ sg cb, (sg, cb) ∈ listeners s' →
     (sg, cb) ∈ listeners s ∨ listener_owned s' sg cb) →
  (∀ t cb, (t, cb) ∈ timers s' → (t, cb) ∈ timers s ∨ timer_owned s' t cb) →
  HostInv s'.
Proof.
  intros [Hl Ht] He Hw Hls Hts. split.
  - intros sg cb Hin. destruct (Hls _ _ Hin) as [Hold|]; [|done].
    pose proof (Hl _ _ Hold) as Ho.
    destruct cb as [e|e|w|w]; simpl in *; try done.
    + destruct Ho as (x & Hx & ? & ?). exists x. rewrite He.
      split_and!; [by apply lookup_app_l_Some|done|done].
    + destruct Ho as (x & Hx & ? & ?). exists x. rewrite Hw.
      split_and!; [by apply lookup_app_l_Some|done|done].
  - intros t cb Hin. destruct (Hts _ _ Hin) as [Hold|]; [|done].
    pose proof (Ht _ _ Hold) as Ho.
    destruct cb as [e|e|w|w]; simpl in *; try done.
    + destruct Ho as (x & Hx & ? & ?). exists x. rewrite He.
      split_and!; [by apply lookup_app_l_Some|done|done].
    + destruct Ho as (x & Hx & ? & ?). exists x. rewrite Hw.
      split_and!; [by apply lookup_app_l_Some|done|done].
Qed.

Lemma waitForTurn_HostInv signal qt c s :
  HostInv s → HostInv (fst (waitForTurn signal qt c s)).
Proof.
  intros Hinv. destruct (signal_aborted signal s) eqn:Hab.
  { unfold waitForTurn. by rewrite Hab. }
  destruct (waitForTurn_host signal qt c s Hab) as [Hl Ht].
  destruct (waitForTurn_spec signal qt c s Hab)
    as (s' & Heq & _ & _ & _ & He & _ & Hw & _).
  rewrite Heq in *. simpl in *.
  eapply (HostInv_extend s s' _ []); [done|done|by rewrite app_nil_r|..].
  - intros sg cb. rewrite Hl, elem_of_app. intros [?|Hnew]; [by left|right].
    destruct signal as [sg'|]; [|by apply elem_of_nil in Hnew].
    apply list_elem_of_singleton in Hnew. simplify_eq. simpl.
    eexists. rewrite He. split_and!; [by apply list_lookup_middle|done|].
    simpl. unfold entry_cleanups. apply elem_of_app. left. apply list_elem_of_singleton. done.
  - intros t cb. rewrite Ht, elem_of_app. intros [?|Hnew]; [by left|right].
    destruct qt as [ms|]; [|by apply elem_of_nil in Hnew].
    apply list_elem_of_singleton in Hnew. simplify_eq. simpl.
    eexists. rewrite He. split_and!; [by apply list_lookup_middle|done|].
    simpl. unfold entry_cleanups. apply elem_of_app. right. apply list_elem_of_singleton. done.
Qed.

Lemma run_HostInv o s : HostInv s → HostInv (fst (run o s)).
Proof.
  intros Hinv. unfold run.
  destruct (assertValidTimeoutMs _); [done|].
  destruct (signal_aborted _ s) eqn:Hab; [done|].
  unfold acquire. rewrite Hab.
  destruct (js_lt _ _).
  { simpl. by apply (HostInv_frame s). }
  destruct (js_ge _ _); [done|].
  match goal with |- context [waitForTurn ?sg ?qt ?c s] =>
    pose proof (waitForTurn_HostInv sg qt c s Hinv) as H;
    destruct (waitForTurn_spec sg qt c s Hab) as (s' & Heq & _)
  end.
  rewrite Heq in *. simpl in *. by apply (HostInv_frame s').
Qed.

Lemma onIdle_host o s :
  ¬ idle s → assertValidTimeoutMs (io_timeoutMs o) = None →
  signal_aborted (io_signal o) s = false →
  ∃ s6, onIdle o s = (emitIdleIfNeeded s6, IdleWaiting (length (waiters s))) ∧
    entries s6 = entries s ∧
    waiters s6 = waiters s ++
       [mkWaiter false
          (idle_cleanups (io_signal o) (io_timeoutMs o) (length (waiters s)) (next_timer s))
          Pending] ∧
    listeners s6 = listeners s ++
      match io_signal o with
      | Some sg => [(sg, IdleAbort (length (waiters s)))] | None => [] end ∧
    timers s6 = timers s ++
      match io_timeoutMs o with
      | Some _ => [(next_timer s, IdleTimeout (length (waiters s)))] | None => [] end.
Proof.
  intros Hbusy Hv Hab. unfold onIdle. rewrite Hv, Hab.
  destruct (_ && _) eqn:Hidle.
  { by apply idle_test_and in Hidle. }
  unfold addAbortHandler, setTimeout, idle_cleanups.
  destruct (io_signal o) as [sg|], (io_timeoutMs o) as [ms|]; simpl.
  all: repeat match goal with
       | |- context [cleanups_push (length ?ws) ?f ?st] =>
           lazymatch st with
           | context [cleanups_push] => fail
           | _ => rewrite (cleanups_push_last st ws _ f eq_refl); simpl
           end
       end.
  all: eexists; split; [reflexivity|]; simpl; by rewrite ?app_nil_r.
Qed.

Lemma onIdle_HostInv o s : HostInv s → HostInv (fst (onIdle o s)).
Proof.
  intros Hinv.
  destruct (assertValidTimeoutMs (io_timeoutMs o)) as [err|] eqn:Hv.
  { unfold onIdle. by rewrite Hv. }
  destruct (signal_aborted (io_signal o) s) eqn:Hab.
  { unfold onIdle. by rewrite Hv, Hab. }
  destruct (decide (idle s)) as [Hi|Hbusy].
  { unfold onIdle. rewrite Hv, Hab. apply idle_test_and in Hi. by rewrite Hi. }
  destruct (onIdle_host o s Hbusy Hv Hab) as (s6 & -> & He & Hw & Hl & Ht).
  simpl. apply emitIdleIfNeeded_HostInv.
  eapply (HostInv_extend s s6 [] _); [done|by rewrite app_nil_r|done|..].
  - intros sg cb. rewrite Hl, elem_of_app. intros [?|Hnew]; [by left|right].
    destruct (io_signal o) as [sg'|]; [|by apply elem_of_nil in Hnew].
    apply list_elem_of_singleton in Hnew. simplify_eq. simpl.
    eexists. rewrite Hw. split_and!; [by apply list_lookup_middle|done|].
    simpl. apply elem_of_cons. right. apply elem_of_app. left.
    by apply list_elem_of_singleton.
  - intros t cb. rewrite Ht, elem_of_app. intros [?|Hnew]; [by left|right].
    destruct (io_timeoutMs o) as [ms|]; [|by apply elem_of_nil in Hnew].
    apply list_elem_of_singleton in Hnew. simplify_eq. simpl.
    eexists. rewrite Hw. split_and!; [by apply list_lookup_middle|done|].
    simpl. apply elem_of_cons. right. apply elem_of_app. right.
    by apply list_elem_of_singleton.
Qed.

Lemma complete_HostInv c o s : HostInv s → HostInv (complete c o s).
Proof.
  intros Hinv. unfold complete.
  destruct (calls s !! c) as [[| |]|]; try done.
  apply (HostInv_frame (release s)); [|done..].
  unfold release. destruct (release_loop_total s) as [s' Hs']. rewrite Hs'. simpl.
  by eapply release_loop_HostInv.
Qed.

Lemma abort_HostInv sg s : HostInv s → HostInv (abort sg s).
Proof.
  intros Hinv. unfold abort. case_bool_decide; [done|].
  apply dispatch_HostInv. by apply (HostInv_frame s).
Qed.

Lemma fire_HostInv t s : HostInv s → HostInv (fire t s).
Proof.
  intros Hinv. unfold fire. destruct (lookup_timer t (timers s)); [|done].
  apply invoke_HostInv. apply (HostInv_frame s); [done|done| |done..].
  apply filter_subseteq_self.
Qed.

Lemma reachable_HostInv s : reachable s → HostInv s.
Proof.
  induction 1 as [l o s Hnew|s ev _ IH].
  - unfold new_Limiter in Hnew.
    destruct (assertValidLimit l); [done|].
    destruct (assertValidMaxQueue _); [done|].
    destruct (assertValidTimeoutMs _); [done|].
    simplify_eq. split; simpl; intros ? ? Hin; by apply elem_of_nil in Hin.
  - destruct ev; simpl.
    + by apply run_HostInv.
    + by apply complete_HostInv.
    + by apply abort_HostInv.
    + by apply fire_HostInv.
    + by apply onIdle_HostInv.
Qed.
(** X13. In a reachable state nothing stale is attached to the host:
    every abort listener registered on a signal is the handler of an
    entry still in the queue or of an [onIdle] call still registered,
    every pending timer likewise, and an idle limiter has no listener and
    no timer left. *)
Theorem host_callbacks_have_owners s :
  reachable s →
  (∀ sg cb, (sg, cb) ∈ listeners s →
     (∃ e, cb = EntryAbort e ∧ e ∈ queue s) ∨
     (∃ w, cb = IdleAbort w ∧ w ∈ idleWaiters s)) ∧
  (∀ t cb, (t, cb) ∈ timers s →
     (∃ e, cb = EntryTimeout e ∧ e ∈ queue s) ∨
     (∃ w, cb = IdleTimeout w ∧ w ∈ idleWaiters s)) ∧
  (idle s → listeners s = [] ∧ timers s = []).
Proof.
  intros Hr.
  pose proof (reachable_GateInv s Hr) as Hg.
  pose proof (reachable_IdleInv s Hr) as (Hreg & _ & Hidle).
  pose proof (reachable_HostInv s Hr) as [Hl Ht].
  assert (∀ e ent, entries s !! e = Some ent → removed ent = false → e ∈ queue s) as Hq.
  { intros e ent He Hrm. destruct (decide (e ∈ queue s)) as [|Hni]; [done|].
    pose proof (gi_gone _ _ _ _ _ Hg e ent He Hni). congruence. }
  assert (∀ sg cb, (sg, cb) ∈ listeners s →
     (∃ e, cb = EntryAbort e ∧ e ∈ queue s) ∨
     (∃ w, cb = IdleAbort w ∧ w ∈ idleWaiters s)) as Hls.
  { intros sg cb Hin. pose proof (Hl _ _ Hin) as Ho.
    destruct cb as [e|e|w|w]; simpl in Ho; try done.
    - destruct Ho as (ent & He & Hrm & _). left. exists e. split; [done|by eapply Hq].
    - destruct Ho as (r & Hw & Hd & _). right. exists w. split; [done|].
      by eapply (ir_pending _ _ Hreg). }
  assert (∀ t cb, (t, cb) ∈ timers s →
     (∃ e, cb = EntryTimeout e ∧ e ∈ queue s) ∨
     (∃ w, cb = IdleTimeout w ∧ w ∈ idleWaiters s)) as Hts.
  { intros t cb Hin. pose proof (Ht _ _ Hin) as Ho.
    destruct cb as [e|e|w|w]; simpl in Ho; try done.
    - destruct Ho as (ent & He & Hrm & _). left. exists e. split; [done|by eapply Hq].
    - destruct Ho as (r & Hw & Hd & _). right. exists w. split; [done|].
      by eapply (ir_pending _ _ Hreg). }
  split_and!; [done|done|].
  intros Hi. pose proof (Hidle Hi) as Hiw. destruct Hi as [_ Hqe]. split.
  - destruct (listeners s) as [|[sg cb] l]; [done|]. exfalso.
    destruct (Hls sg cb) as [(e & _ & Hin)|(w & _ & Hin)]; [by left|..].
    + rewrite Hqe in Hin. by apply elem_of_nil in Hin.
    + rewrite Hiw in Hin. by apply elem_of_nil in Hin.
  - destruct (timers s) as [|[t cb] l]; [done|]. exfalso.
    destruct (Hts t cb) as [(e & _ & Hin)|(w & _ & Hin)]; [by left|..].
    + rewrite Hqe in Hin. by apply elem_of_nil in Hin.
    + rewrite Hiw in Hin. by apply elem_of_nil in Hin.
Qed.

Lemma reachable_busy_with_timers : reachable busy_with_timers.
Proof. apply reachable_exec. by eapply (reachable_new (JNum 1) no_opts). Qed.

Lemma host_callbacks_have_owners_witness :
  (7, EntryAbort 0) ∈ listeners busy_with_timers ∧
  ((∃ e, EntryAbort 0 = EntryAbort e ∧ e ∈ queue busy_with_timers) ∨
   (∃ w, EntryAbort 0 = IdleAbort w ∧ w ∈ idleWaiters busy_with_timers)).
Proof.
  assert ((7, EntryAbort 0) ∈ listeners busy_with_timers) as Hin.
  { vm_compute. by left. }
  split; [done|].
  exact (proj1 (host_callbacks_have_owners busy_with_timers
                  reachable_busy_with_timers) 7 (EntryAbort 0) Hin).
Defined.

(** ** Timers that fire *)

Lemma lookup_timer_elem_of t l cb : lookup_timer t l = Some cb → (t, cb) ∈ l.
Proof.
  induction l as [|[t' cb'] l IH]; simpl; [done|].
  destruct (decide (t' = t)) as [->|_].
  - intros [= ->]. by left.
  - intros H. right. by apply IH.
Qed.

Lemma length_spliced_elem_of e q : e ∈ q → S (length (spliced e q)) = length q.
Proof.
  intros Hin. unfold spliced. destruct (indexOf e q) as [i|] eqn:Hi.
  - apply indexOf_Some in Hi. apply lookup_lt_Some in Hi as Hlt.
    rewrite length_delete by (by eexists). lia.
  - by apply indexOf_None in Hi.
Qed.

(** X14. The queue timeout of a waiting call fires: in a reachable state
    the timer belongs to an entry that is still queued; the entry leaves
    the queue, its call fails with [QueueTimeoutError], [pendingCount]
    drops by one and [activeCount] stays. *)
Theorem queue_timeout_rejects s t e :
  reachable s →
  lookup_timer t (timers s) = Some (EntryTimeout e) →
  ∃ ent, entries s !! e = Some ent ∧ e ∈ queue s ∧
    calls s !! waiter ent = Some (CWaiting e) ∧
    (let s' := fire t s in
     entries s' !! e
       = Some (mkEntry true (Rejected QueueTimeoutError) (waiter ent) true []) ∧
     calls s' !! waiter ent = Some (CSettled (Threw QueueTimeoutError)) ∧
     queue s' = spliced e (queue s) ∧ (e ∉ queue s') ∧
     S (pendingCount s') = pendingCount s ∧
     activeCount s' = activeCount s).
Proof.
  intros Hr Hlk.
  pose proof (reachable_GateInv s Hr) as Hg.
  pose proof (reachable_HostInv s Hr) as [_ Ht].
  pose proof (Ht _ _ (lookup_timer_elem_of _ _ _ Hlk)) as (ent & He & Hrm & _).
  assert (settled ent = false) as Hst by (by rewrite (gi_settled _ _ _ _ _ Hg _ _ He)).
  assert (e ∈ queue s) as Hin.
  { destruct (decide (e ∈ queue s)) as [|Hni]; [done|].
    pose proof (gi_gone _ _ _ _ _ Hg e ent He Hni). congruence. }
  pose proof (gi_waiter _ _ _ _ _ Hg _ _ He Hst) as Hw.
  exists ent. split_and!; [done..|].
  unfold fire. rewrite Hlk. simpl.
  destruct (reject_queued e ent QueueTimeoutError (clearTimeout t s) He Hrm Hst)
    as (Ha & Hq & _ & Hes & Hc & _).
  simpl in Ha, Hq, Hes, Hc.
  assert (NoDup (queue s)) as Hnd.
  { apply (StronglySorted_lt_NoDup). apply (gi_sorted _ _ _ _ _ Hg). }
  split_and!.
  - rewrite Hes. apply list_lookup_insert_eq. by eapply lookup_lt_Some.
  - rewrite Hc. apply list_lookup_insert_eq. by eapply lookup_lt_Some.
  - done.
  - rewrite Hq. rewrite elem_of_spliced by done. tauto.
  - unfold pendingCount. rewrite Hq. by apply length_spliced_elem_of.
  - done.
Qed.

Lemma queue_timeout_rejects_witness :
  calls (fire 0 busy_with_timers) !! 1 = Some (CSettled (Threw QueueTimeoutError)).
Proof.
  destruct (queue_timeout_rejects busy_with_timers 0 0 reachable_busy_with_timers eq_refl)
    as (ent & He & _ & _ & _ & Hc & _).
  vm_compute in He. injection He as <-. exact Hc.
Defined.

(** X15. The timeout of an [onIdle] call fires: in a reachable state the
    call is still waiting; its promise is rejected with
    [IdleTimeoutError], it is no longer registered, and the gate (counter,
    queue, entries, calls) is as it was. *)
Theorem idle_timeout_rejects s t w :
  reachable s →
  lookup_timer t (timers s) = Some (IdleTimeout w) →
  ∃ r, waiters s !! w = Some r ∧ w_promise r = Pending ∧ w ∈ idleWaiters s ∧
    (let s' := fire t s in
     waiters s' !! w = Some (mkWaiter true [] (Rejected IdleTimeoutError)) ∧
     (w ∉ idleWaiters s') ∧ gate_eq s s').
Proof.
  intros Hr Hlk.
  pose proof (reachable_IdleInv s Hr) as (Hreg & _ & _).
  pose proof (reachable_HostInv s Hr) as [_ Ht].
  pose proof (Ht _ _ (lookup_timer_elem_of _ _ _ Hlk)) as (r & Hw & Hd & _).
  exists r. split_and!.
  - done.
  - by apply (ir_promise _ _ Hreg w r Hw).
  - by apply (ir_pending _ _ Hreg w r).
  - unfold fire. rewrite Hlk. simpl.
    destruct (finish_spec w r (Some IdleTimeoutError) (clearTimeout t s) Hw Hd)
      as (Hws & _).
    destruct (finish_idle w (Some IdleTimeoutError) (clearTimeout t s) Hreg) as [_ Hiw].
    destruct (finish_frame w (Some IdleTimeoutError) (clearTimeout t s)) as [Hge _].
    split_and!.
    + rewrite Hws. apply list_lookup_insert_eq. by eapply lookup_lt_Some.
    + rewrite Hiw. intros Hin. apply list_elem_of_filter in Hin as [Hne _]. done.
    + exact Hge.
Qed.

Lemma idle_timeout_rejects_witness :
  waiters (fire 1 busy_with_timers) !! 0
  = Some (mkWaiter true [] (Rejected IdleTimeoutError)).
Proof.
  destruct (idle_timeout_rejects busy_with_timers 1 0 reachable_busy_with_timers eq_refl)
    as (r & _ & _ & _ & Hw & _).
  exact Hw.
Defined.

(** ** Signals that abort *)

Lemma concat_owner_unique {A B} (f : A → list B) (l : list A) :
  NoDup (concat (f <$> l)) →
  ∀ i j x y a, l !! i = Some x → l !! j = Some y → a ∈ f x → a ∈ f y → i = j.
Proof.
  induction l as [|x0 l IH]; simpl; intros Hnd i j x y a Hi Hj Hx Hy.
  { by rewrite lookup_nil in Hi. }
  apply NoDup_app in Hnd as (_ & Hdis & Hnd).
  destruct i as [|i], j as [|j]; simpl in *; simplify_eq.
  - done.
  - exfalso. apply (Hdis a Hx). apply elem_of_concat_fmap. by exists j, y.
  - exfalso. apply (Hdis a Hy). apply elem_of_concat_fmap. by exists i, x.
  - f_equal. by eapply IH.
Qed.









Lemma invoke_active cb st : GateInv st → active (invoke cb st) = active st.
Proof.
  intros Hinv.
  assert (∀ e err, active (fst (defer_reject e err (removeFromQueue e st))) = active st)
    as Hent.
  { intros e err. destruct (entries st !! e) as [ent|] eqn:He.
    - destruct (removed ent) eqn:Hr.
      + rewrite reject_gone; [done|]. intros ent' He'. simplify_eq.
        split; [done|]. by rewrite (gi_settled _ _ _ _ _ Hinv _ _ He).
      + assert (settled ent = false) as Hst
          by (by rewrite (gi_settled _ _ _ _ _ Hinv _ _ He)).
        by destruct (reject_queued e ent err st He Hr Hst) as (Ha & _).
    - rewrite reject_gone; [done|]. intros ent' He'. congruence. }
  destruct cb as [e|e|w|w]; simpl; try apply Hent.
  - apply finish_frame.
  - apply finish_frame.
Qed.

Lemma dispatch_active sg cbs : ∀ st,
  GateInv st → active (foldl (dispatch_one sg) st cbs) = active st.
Proof.
  induction cbs as [|cb cbs IH]; intros st Hinv; simpl; [done|].
  rewrite IH by (by apply (GateInv_dispatch sg [cb])).
  unfold dispatch_one. case_bool_decide; [|done].
  rewrite invoke_active; [done|]. eapply gate_eq_inv; [|done]. by repeat split.
Qed.




(** ** Becoming idle *)

Lemma idle_host_empty s :
  GateInv s → IdleInv s → HostInv s → idle s → listeners s = [] ∧ timers s = [].
Proof.
  intros Hg (Hreg & _ & Hidle) [Hl Ht] Hi.
  pose proof (Hidle Hi) as Hiw. destruct Hi as [_ Hq].
  assert (∀ e ent, entries s !! e = Some ent → removed ent = true) as Hgone.
  { intros e ent He. apply (gi_gone _ _ _ _ _ Hg e ent He). rewrite Hq.
    apply not_elem_of_nil. }
  assert (∀ w r, waiters s !! w = Some r → w_done r = true) as Hdone.
  { intros w r Hw. destruct (w_done r) eqn:Hd; [done|].
    pose proof (ir_pending _ _ Hreg w r Hw Hd) as Hin. rewrite Hiw in Hin.
    by apply elem_of_nil in Hin. }
  split.
  - destruct (listeners s) as [|[sg cb] l]; [done|]. exfalso.
    pose proof (Hl sg cb) as Ho. destruct cb as [e|e|w|w]; simpl in Ho.
    + destruct Ho as (ent & He & Hrm & _); [by left|]. rewrite (Hgone _ _ He) in Hrm. done.
    + apply Ho. by left.
    + destruct Ho as (r & Hw & Hd & _); [by left|]. rewrite (Hdone _ _ Hw) in Hd. done.
    + apply Ho. by left.
  - destruct (timers s) as [|[t cb] l]; [done|]. exfalso.
    pose proof (Ht t cb) as Ho. destruct cb as [e|e|w|w]; simpl in Ho.
    + apply Ho. by left.
    + destruct Ho as (ent & He & Hrm & _); [by left|]. rewrite (Hgone _ _ He) in Hrm. done.
    + apply Ho. by left.
    + destruct Ho as (r & Hw & Hd & _); [by left|]. rewrite (Hdone _ _ Hw) in Hd. done.
Qed.

Lemma abort_active sg s : GateInv s → active (abort sg s) = active s.
Proof.
  intros Hg. unfold abort. case_bool_decide; [done|].
  rewrite dispatch_active; [done|]. apply (gate_eq_inv s); [by repeat split|done].
Qed.

Lemma fire_active t s : GateInv s → active (fire t s) = active s.
Proof.
  intros Hg. unfold fire. destruct (lookup_timer t (timers s)); [|done].
  rewrite invoke_active; [done|]. apply (gate_eq_inv s); [by repeat split|done].
Qed.

(** With no task running the queue is empty. *)
Lemma idle_of_active s : GateInv s → active s = 0%Z → idle s.
Proof.
  intros Hg Ha. split; [done|]. destruct (queue s) as [|h q] eqn:Hq; [done|].
  assert (0 < active s)%Z; [|lia].
  eapply gate_inv_saturated; [exact Hg|]. by rewrite Hq.
Qed.

(** X17. Only the completion of a running task makes a limiter idle: no
    [run] call, [onIdle] call, abort or timer takes a reachable state
    that is not idle to an idle one; in particular the
    [emitIdleIfNeeded] call of [removeFromQueue] fulfils nothing: an
    abort or a timer never fulfils an [onIdle] promise. *)
Theorem idle_only_by_completion s ev :
  reachable s →
  (¬ idle s → idle (apply s ev) →
     ∃ c o, ev = EvComplete c o ∧ calls s !! c = Some CRunning) ∧
  ((∀ c o, ev ≠ EvComplete c o) →
     ∀ w r', waiters (apply s ev) !! w = Some r' → w_promise r' = Fulfilled →
       ∃ r, waiters s !! w = Some r ∧ w_promise r = Fulfilled).
Proof.
  intros Hr.
  pose proof (reachable_GateInv s Hr) as Hg.
  pose proof (reachable_IdleInv s Hr) as Hi.
  pose proof (reachable_HostInv s Hr) as Hh.
  assert (¬ idle s → idle (apply s ev) →
     ∃ c o, ev = EvComplete c o ∧ calls s !! c = Some CRunning) as Hfirst.
  { intros Hbusy Hidle. destruct ev as [o|c o|sg|t|o]; simpl in Hidle.
    - exfalso. destruct (run_cases o s) as [[err H]|[[Hlt H]|[Hlt H]]].
      + rewrite H in Hidle. done.
      + rewrite H in Hidle. destruct Hidle as [Ha _]. simpl in Ha.
        pose proof (gi_count _ _ _ _ _ Hg). lia.
      + destruct H as (s' & sg & qt & H & _ & Hq & _). rewrite H in Hidle.
        destruct Hidle as [_ Hq']. simpl in Hq'. rewrite Hq in Hq'.
        by destruct (queue s).
    - destruct (calls s !! c) as [[e| |o']|] eqn:Hc.
      2: by exists c, o.
      all: exfalso; unfold complete in Hidle; rewrite Hc in Hidle; done.
    - exfalso. apply Hbusy, idle_of_active; [done|].
      rewrite <- (abort_active sg s Hg). apply Hidle.
    - exfalso. apply Hbusy, idle_of_active; [done|].
      rewrite <- (fire_active t s Hg). apply Hidle.
    - exfalso. apply Hbusy. destruct (onIdle_gate_eq o s) as (Ha & Hq & _).
      destruct Hidle as [Ha' Hq']. split; congruence. }
  split; [done|].
  intros Hev w r' Hw Hf.
  destruct (apply_fulfil_step s ev Hg w r' Hw Hf) as [?|Hidle]; [done|].
  destruct (decide (idle s)) as [Hs|Hbusy].
  - destruct (idle_host_empty s Hg Hi Hh Hs) as [Hl Ht].
    destruct Hi as (Hreg & _ & Hiw). specialize (Hiw Hs).
    assert (waiters (apply s ev) = waiters s) as Heq.
    { destruct ev as [o|c o|sg|t|o]; simpl.
      - destruct (run_cases o s) as [[err ->]|[[Hlt ->]|[Hlt H]]]; [done|done|].
        by destruct H as (s' & sg & qt & -> & _ & _ & _ & _ & _ & ? & _).
      - by destruct (Hev c o).
      - unfold abort. case_bool_decide; [done|]. by rewrite Hl.
      - unfold fire. by rewrite Ht.
      - destruct (onIdle_cases o s) as [[err ->]|[[_ ->]|[Hbusy _]]]; done. }
    rewrite Heq in Hw. by exists r'.
  - destruct (Hfirst Hbusy Hidle) as (c & o & -> & _). by destruct (Hev c o).
Qed.

Lemma idle_only_by_completion_witness :
  ∃ c o, EvComplete 0 (Returned 0) = EvComplete c o ∧
         calls no_queue_busy !! c = Some CRunning.
Proof.
  assert (reachable no_queue_busy) as Hr.
  { apply reachable_exec.
    by eapply (reachable_new (JNum 1) (mkLimiterOptions (Some (JNum 0)) None None)). }
  assert (¬ idle no_queue_busy) as Hbusy.
  { intros [Ha _]. vm_compute in Ha. done. }
  assert (idle (apply no_queue_busy (EvComplete 0 (Returned 0)))) as Hidle.
  { by vm_compute. }
  exact (proj1 (idle_only_by_completion no_queue_busy (EvComplete 0 (Returned 0)) Hr)
           Hbusy Hidle).
Defined.

(** ** [onIdle] promises settle once *)

Lemma waiters_kept_refl s : waiters_kept s s.
Proof. by intros w r Hw Hd. Qed.

Lemma waiters_kept_trans s1 s2 s3 :
  waiters_kept s1 s2 → waiters_kept s2 s3 → waiters_kept s1 s3.
Proof. intros H1 H2 w r Hw Hd. apply H2; [|done]. by apply H1. Qed.

Lemma waiters_kept_frame s s' : waiters s' = waiters s → waiters_kept s s'.
Proof. intros Heq w r Hw Hd. by rewrite Heq. Qed.

Lemma finish_kept w err s : waiters_kept s (finish w err s).
Proof.
  destruct (waiters s !! w) as [r|] eqn:Hw.
  - destruct (w_done r) eqn:Hd.
    + rewrite finish_noop by (intros; congruence). apply waiters_kept_refl.
    + destruct (finish_spec w r err s Hw Hd) as (Hws & _).
      intros w0 r0 Hw0 Hd0. rewrite Hws. rewrite list_lookup_insert_ne; [done|].
      intros ->. congruence.
  - rewrite finish_noop by (intros; congruence). apply waiters_kept_refl.
Qed.

Lemma emitIdleIfNeeded_kept s : waiters_kept s (emitIdleIfNeeded s).
Proof.
  unfold emitIdleIfNeeded. destruct (negb _ || negb _); [apply waiters_kept_refl|].
  generalize (idleWaiters s). intros ws. revert s.
  induction ws as [|w ws IH]; intros s; simpl; [apply waiters_kept_refl|].
  eapply waiters_kept_trans; [apply finish_kept|apply IH].
Qed.

Lemma defer_reject_waiters e err s : waiters (fst (defer_reject e err s)) = waiters s.
Proof.
  unfold defer_reject. destruct (entries s !! e) as [ent|]; [|done].
  by destruct (settled ent).
Qed.

Lemma defer_resolve_waiters e s : waiters (fst (defer_resolve e s)) = waiters s.
Proof.
  unfold defer_resolve. destruct (entries s !! e) as [ent|]; [|done].
  by destruct (settled ent).
Qed.

Lemma removeFromQueue_kept e s : waiters_kept s (removeFromQueue e s).
Proof.
  destruct (entries s !! e) as [ent|] eqn:He.
  - destruct (removed ent) eqn:Hr.
    + rewrite removeFromQueue_noop by (intros; congruence). apply waiters_kept_refl.
    + rewrite (removeFromQueue_eq _ _ _ He Hr).
      eapply waiters_kept_trans; [|apply emitIdleIfNeeded_kept].
      apply waiters_kept_frame. simpl. apply entry_remove_waiters.
  - rewrite removeFromQueue_noop by (intros; congruence). apply waiters_kept_refl.
Qed.

Lemma invoke_kept cb s : waiters_kept s (invoke cb s).
Proof.
  destruct cb as [e|e|w|w]; simpl; try apply finish_kept.
  all: eapply waiters_kept_trans; [apply removeFromQueue_kept|];
    apply waiters_kept_frame, defer_reject_waiters.
Qed.

Lemma dispatch_kept sg cbs : ∀ s, waiters_kept s (foldl (dispatch_one sg) s cbs).
Proof.
  induction cbs as [|cb cbs IH]; intros s; simpl; [apply waiters_kept_refl|].
  eapply waiters_kept_trans; [|apply IH].
  unfold dispatch_one. case_bool_decide; [|apply waiters_kept_refl].
  eapply waiters_kept_trans; [|apply invoke_kept]. by apply waiters_kept_frame.
Qed.

Lemma release_loop_kept n : ∀ s s',
  release_loop n s = Some s' → waiters_kept s s'.
Proof.
  induction n as [|n IH]; intros s s' H; [done|]. simpl in H.
  unfold shiftNext in H.
  destruct (shiftNext_from (entries s) (queue s)) as [[next|] q'].
  - pose proof (defer_resolve_waiters next (entry_remove next (set_queue q' s))) as Hw.
    destruct (defer_resolve next (entry_remove next (set_queue q' s))) as [s3 b].
    simpl in Hw. rewrite entry_remove_waiters in Hw. simpl in Hw.
    destruct b.
    + simplify_eq. by apply waiters_kept_frame.
    + eapply waiters_kept_trans; [by apply waiters_kept_frame|by apply IH].
  - simplify_eq. eapply waiters_kept_trans; [|apply emitIdleIfNeeded_kept].
    by apply waiters_kept_frame.
Qed.

Lemma apply_kept s ev : waiters_kept s (apply s ev).
Proof.
  destruct ev as [o|c o|sg|t|o]; simpl.
  - apply waiters_kept_frame.
    destruct (run_cases o s) as [[err ->]|[[Hlt ->]|[Hlt H]]]; [done|done|].
    by destruct H as (s' & sg & qt & -> & _ & _ & _ & _ & _ & ? & _).
  - unfold complete. destruct (calls s !! c) as [[e| |o']|]; try apply waiters_kept_refl.
    apply (waiters_kept_trans _ (release s)); [|by apply waiters_kept_frame].
    unfold release. destruct (release_loop_total s) as [s' Hs']. rewrite Hs'. simpl.
    by eapply release_loop_kept.
  - unfold abort. case_bool_decide; [apply waiters_kept_refl|].
    eapply waiters_kept_trans; [|apply dispatch_kept]. by apply waiters_kept_frame.
  - unfold fire. destruct (lookup_timer t (timers s)); [|apply waiters_kept_refl].
    eapply waiters_kept_trans; [|apply invoke_kept]. by apply waiters_kept_frame.
  - destruct (onIdle_cases o s) as [[err ->]|[[_ ->]|[Hbusy H]]];
      [apply waiters_kept_refl|apply waiters_kept_refl|].
    destruct H as (s6 & -> & _ & Hw & _). simpl.
    eapply waiters_kept_trans; [|apply emitIdleIfNeeded_kept].
    intros w r Hx _. rewrite Hw. by apply lookup_app_l_Some.
Qed.

(** X18. An [onIdle] promise settles once: in a reachable state a promise
    that is fulfilled or rejected stays exactly so along every later
    execution; [finish] does nothing the second time. *)
Theorem onIdle_settles_once s w r evs :
  reachable s → waiters s !! w = Some r → w_promise r ≠ Pending →
  waiters (exec s evs) !! w = Some r.
Proof.
  intros Hr Hw Hp.
  pose proof (reachable_IdleInv s Hr) as (Hreg & _ & _).
  assert (w_done r = true) as Hd.
  { destruct (w_done r) eqn:Hd; [done|].
    by apply (ir_promise _ _ Hreg w r Hw) in Hd. }
  clear Hr Hreg Hp. revert s Hw. unfold exec.
  induction evs as [|ev evs IH]; intros s Hw; simpl; [done|].
  apply IH. by apply apply_kept.
Qed.

Lemma onIdle_settles_once_witness :
  waiters (exec (apply busy_with_timers (EvTimer 1))
             [EvComplete 0 (Returned 0); EvAbort 7]) !! 0
  = Some (mkWaiter true [] (Rejected IdleTimeoutError)).
Proof.
  apply onIdle_settles_once.
  - apply reachable_step, reachable_busy_with_timers.
  - by vm_compute.
  - discriminate.
Defined.

(** ** A signal aborts an [onIdle] call *)

(** A closure held by an [onIdle] call is held by no other call and by no
    queue entry. *)
Lemma closure_owner_waiter s w r f :
  CleanupInv s → waiters s !! w = Some r → f ∈ cleanups r →
  (∀ w' r', waiters s !! w' = Some r' → f ∈ cleanups r' → w' = w) ∧
  (∀ e ent, entries s !! e = Some ent → f ∉ cleanup ent).
Proof.
  intros [Hnd _ _] Hw Hf. unfold all_closures in Hnd.
  apply NoDup_app in Hnd as (_ & Hdis & Hnd).
  apply NoDup_app in Hnd as (Hnd & _ & _). split.
  - intros w' r' Hw' Hf'. by eapply (concat_owner_unique cleanups (waiters s)).
  - intros e ent He Hin. eapply Hdis.
    + apply elem_of_concat_fmap. by exists e, ent.
    + apply elem_of_app. left. apply elem_of_concat_fmap. by exists w, r.
Qed.

Lemma finish_keeps_idle sg w w' err st :
  HostInv st → CleanupInv st → (sg, IdleAbort w) ∈ listeners st → w' ≠ w →
  (sg, IdleAbort w) ∈ listeners (finish w' err st) ∧
  waiters (finish w' err st) !! w = waiters st !! w.
Proof.
  intros Hh Hc Hin Hne.
  destruct (waiters st !! w') as [r'|] eqn:Hw'.
  - destruct (w_done r') eqn:Hd.
    + by rewrite finish_noop by (intros; congruence).
    + destruct (finish_host w' r' err st Hw' Hd) as [-> _].
      destruct (finish_spec w' r' err st Hw' Hd) as (-> & _).
      split; [|by apply list_lookup_insert_ne].
      apply list_elem_of_filter. split; [|done]. simpl. intros Hf'.
      destruct (hi_listeners _ Hh _ _ Hin) as (r & Hw & _ & Hf).
      by apply Hne, (proj1 (closure_owner_waiter st w r _ Hc Hw Hf) w' r').
  - by rewrite finish_noop by (intros; congruence).
Qed.

(** Removing a queued entry leaves a task running, so the
    [emitIdleIfNeeded] call of [removeFromQueue] does nothing. *)
Lemma removeFromQueue_keeps_idle sg w e st :
  GateInv st → HostInv st → CleanupInv st → (sg, IdleAbort w) ∈ listeners st →
  (sg, IdleAbort w) ∈ listeners (removeFromQueue e st) ∧
  waiters (removeFromQueue e st) = waiters st.
Proof.
  intros Hg Hh Hc Hin.
  destruct (entries st !! e) as [ent|] eqn:He.
  - destruct (removed ent) eqn:Hr.
    + by rewrite removeFromQueue_noop by (intros; congruence).
    + rewrite (removeFromQueue_eq _ _ _ He Hr).
      destruct (entry_remove_spec e ent st He Hr) as (Ha & _).
      destruct (entry_remove_host e ent st He Hr) as [Hl _].
      assert (0 < active st)%Z as Hpos.
      { eapply gate_inv_saturated; [exact Hg|]. intros Hq.
        assert (e ∉ queue st) as Hni by (rewrite Hq; apply not_elem_of_nil).
        pose proof (gi_gone _ _ _ _ _ Hg e ent He Hni). congruence. }
      rewrite emitIdleIfNeeded_busy.
      2: { intros [Ha' _]. simpl in Ha'. lia. }
      simpl. split; [|apply entry_remove_waiters].
      rewrite Hl. apply list_elem_of_filter. split; [|done]. simpl.
      destruct (hi_listeners _ Hh _ _ Hin) as (r & Hw & _ & Hf).
      by apply (proj2 (closure_owner_waiter st w r _ Hc Hw Hf) e ent).
  - by rewrite removeFromQueue_noop by (intros; congruence).
Qed.

Lemma defer_reject_listeners e err st :
  listeners (fst (defer_reject e err st)) = listeners st.
Proof.
  unfold defer_reject. destruct (entries st !! e) as [ent|]; [|done].
  by destruct (settled ent).
Qed.

Lemma invoke_keeps_idle sg w cb st :
  GateInv st → HostInv st → CleanupInv st → (sg, IdleAbort w) ∈ listeners st →
  cb ≠ IdleAbort w → cb ≠ IdleTimeout w →
  (sg, IdleAbort w) ∈ listeners (invoke cb st) ∧
  waiters (invoke cb st) !! w = waiters st !! w.
Proof.
  intros Hg Hh Hc Hin Hna Hnt.
  assert (∀ e err,
    (sg, IdleAbort w) ∈ listeners (fst (defer_reject e err (removeFromQueue e st))) ∧
    waiters (fst (defer_reject e err (removeFromQueue e st))) !! w = waiters st !! w)
    as Hent.
  { intros e err.
    destruct (removeFromQueue_keeps_idle sg w e st Hg Hh Hc Hin) as [Hin1 Hw1].
    by rewrite defer_reject_listeners, defer_reject_waiters, Hw1. }
  destruct cb as [e|e|w'|w']; simpl; try apply Hent.
  - apply finish_keeps_idle; [done..|congruence].
  - apply finish_keeps_idle; [done..|congruence].
Qed.

Lemma dispatch_one_keeps_idle sg w cb st :
  GateInv st → HostInv st → CleanupInv st → (sg, IdleAbort w) ∈ listeners st →
  cb ≠ IdleAbort w →
  (sg, IdleAbort w) ∈ listeners (dispatch_one sg st cb) ∧
  waiters (dispatch_one sg st cb) !! w = waiters st !! w.
Proof.
  intros Hg Hh Hc Hin Hne. unfold dispatch_one. case_bool_decide as Hreg; [|done].
  assert (cb ≠ IdleTimeout w) as Hnt.
  { intros ->. by apply (hi_listeners _ Hh) in Hreg. }
  destruct (invoke_keeps_idle sg w cb (removeEventListener sg cb st)) as [H1 H2];
    [| | | |done|done|by split].
  - apply (gate_eq_inv st); [by repeat split|done].
  - apply (HostInv_frame st); [done| |done..]. apply filter_subseteq_self.
  - eapply (CleanupInv_frame st); [done|done|done|simpl; lia|done].
  - simpl. apply list_elem_of_filter. split; [|done]. congruence.
Qed.

Lemma dispatch_rejects_idle sg w cbs : ∀ st,
  GateInv st → HostInv st → CleanupInv st →
  IdleAbort w ∈ cbs → (sg, IdleAbort w) ∈ listeners st →
  waiters (foldl (dispatch_one sg) st cbs) !! w
  = Some (mkWaiter true [] (Rejected (AbortError IdleWait))).
Proof.
  induction cbs as [|cb cbs IH]; intros st Hg Hh Hc Hcb Hin; simpl.
  { by apply elem_of_nil in Hcb. }
  destruct (decide (cb = IdleAbort w)) as [->|Hne].
  - destruct (hi_listeners _ Hh _ _ Hin) as (r & Hw & Hd & _).
    assert (dispatch_one sg st (IdleAbort w)
            = finish w (Some (AbortError IdleWait))
                (removeEventListener sg (IdleAbort w) st)) as ->.
    { unfold dispatch_one. by rewrite bool_decide_eq_true_2. }
    destruct (finish_spec w r (Some (AbortError IdleWait))
                (removeEventListener sg (IdleAbort w) st) Hw Hd) as (Hws & _).
    apply dispatch_kept; [|done].
    rewrite Hws. apply list_lookup_insert_eq. by eapply lookup_lt_Some.
  - destruct (dispatch_one_keeps_idle sg w cb st Hg Hh Hc Hin Hne) as [Hin' _].
    apply IH.
    + by apply (GateInv_dispatch sg [cb]).
    + by apply (dispatch_HostInv sg [cb]).
    + by apply (dispatch_cleanup sg [cb]).
    + apply elem_of_cons in Hcb as [Heq|Hcb]; [by destruct Hne|done].
    + done.
Qed.

(** X19. A signal aborts while an [onIdle] call made with it is waiting:
    in a reachable state the call is still registered, and after the
    event, whatever the other listeners of the signal do, its promise is
    rejected with the abort error of an idle wait, it is no longer
    registered, and [activeCount] is as it was. *)
Theorem abort_rejects_idle_wait s sg w :
  reachable s → sg ∉ aborted s → (sg, IdleAbort w) ∈ listeners s →
  ∃ r, waiters s !! w = Some r ∧ w_promise r = Pending ∧ w ∈ idleWaiters s ∧
    (let s' := abort sg s in
     waiters s' !! w = Some (mkWaiter true [] (Rejected (AbortError IdleWait))) ∧
     (w ∉ idleWaiters s') ∧
     activeCount s' = activeCount s).
Proof.
  intros Hr Hna Hin.
  pose proof (reachable_GateInv s Hr) as Hg.
  pose proof (reachable_HostInv s Hr) as Hh.
  pose proof (reachable_CleanupInv s Hr) as Hc.
  pose proof (reachable_IdleInv s Hr) as (Hreg & _ & _).
  pose proof (reachable_IdleInv _ (reachable_step s (EvAbort sg) Hr)) as (Hreg' & _ & _).
  simpl in Hreg'.
  destruct (hi_listeners _ Hh _ _ Hin) as (r & Hw & Hd & _).
  exists r. split_and!.
  - done.
  - by apply (ir_promise _ _ Hreg w r Hw).
  - by apply (ir_pending _ _ Hreg w r).
  - assert (waiters (abort sg s) !! w
            = Some (mkWaiter true [] (Rejected (AbortError IdleWait)))) as Hw'.
    { unfold abort. rewrite bool_decide_eq_false_2 by done.
      apply dispatch_rejects_idle.
      - apply (gate_eq_inv s); [by repeat split|done].
      - by apply (HostInv_frame s).
      - eapply (CleanupInv_frame s); [done|done|done|simpl; lia|done].
      - apply list_elem_of_fmap. exists (sg, IdleAbort w). split; [done|].
        by apply list_elem_of_filter.
      - done. }
    split_and!.
    + done.
    + intros Hiw. destruct (ir_registered _ _ Hreg' w Hiw) as (r' & Hr' & Hd' & _).
      rewrite Hw' in Hr'. by simplify_eq.
    + apply abort_active, Hg.
Qed.

Lemma abort_rejects_idle_wait_witness :
  waiters (abort 3 idle_wait_with_signal) !! 0
  = Some (mkWaiter true [] (Rejected (AbortError IdleWait))).
Proof.
  assert (reachable idle_wait_with_signal) as Hr.
  { apply reachable_exec. by eapply (reachable_new (JNum 1) no_opts). }
  assert (3 ∉ aborted idle_wait_with_signal) as Hna.
  { vm_compute. apply not_elem_of_nil. }
  assert ((3, IdleAbort 0) ∈ listeners idle_wait_with_signal) as Hin.
  { vm_compute. by left. }
  destruct (abort_rejects_idle_wait idle_wait_with_signal 3 0 Hr Hna Hin)
    as (r & _ & _ & _ & Hw & _).
  exact Hw.
Defined.

(** * [onIdle] resolves exactly when the gate is idle *)

Lemma becomes_idle_by_completion s ev :
  GateInv s → ¬ idle s → idle (apply s ev) →
  ∃ c o, ev = EvComplete c o ∧ calls s !! c = Some CRunning.
Proof.
  intros Hg Hbusy Hidle. destruct ev as [o|c o|sg|t|o]; simpl in Hidle.
  - exfalso. destruct (run_cases o s) as [[err H]|[[Hlt H]|[Hlt H]]].
    + rewrite H in Hidle. done.
    + rewrite H in Hidle. destruct Hidle as [Ha _]. simpl in Ha.
      pose proof (gi_count _ _ _ _ _ Hg). lia.
    + destruct H as (s' & sg & qt & H & _ & Hq & _). rewrite H in Hidle.
      destruct Hidle as [_ Hq']. simpl in Hq'. rewrite Hq in Hq'.
      by destruct (queue s).
  - destruct (calls s !! c) as [[e| |o']|] eqn:Hc.
    2: by exists c, o.
    all: exfalso; unfold complete in Hidle; rewrite Hc in Hidle; done.
  - exfalso. apply Hbusy, idle_of_active; [done|].
    rewrite <- (abort_active sg s Hg). apply Hidle.
  - exfalso. apply Hbusy, idle_of_active; [done|].
    rewrite <- (fire_active t s Hg). apply Hidle.
  - exfalso. apply Hbusy. destruct (onIdle_gate_eq o s) as (Ha & Hq & _).
    destruct Hidle as [Ha' Hq']. split; congruence.
Qed.

Lemma foldl_finish_kept ws err : ∀ s,
  waiters_kept s (foldl (λ st w, finish w err st) s ws).
Proof.
  induction ws as [|w ws IH]; intros s; simpl; [apply waiters_kept_refl|].
  eapply waiters_kept_trans; [apply finish_kept|apply IH].
Qed.

(** [emitIdleIfNeeded] on an idle gate fulfils every waiter it finds. *)
Lemma foldl_finish_fulfils w ws : ∀ s r,
  w ∈ ws → waiters s !! w = Some r → w_done r = false →
  waiters (foldl (λ st w, finish w None st) s ws) !! w
  = Some (mkWaiter true [] Fulfilled).
Proof.
  induction ws as [|w0 ws IH]; intros s r Hin Hw Hd; simpl.
  { by apply elem_of_nil in Hin. }
  destruct (decide (w0 = w)) as [->|Hne].
  - destruct (finish_spec w r None s Hw Hd) as (Hws & _).
    apply foldl_finish_kept; [|done].
    rewrite Hws. apply list_lookup_insert_eq. by eapply lookup_lt_Some.
  - apply elem_of_cons in Hin as [Heq|Hin]; [by destruct Hne|].
    apply (IH _ r); [done| |done].
    destruct (waiters s !! w0) as [r0|] eqn:Hw0.
    + destruct (w_done r0) eqn:Hd0.
      * by rewrite finish_noop by (intros; congruence).
      * destruct (finish_spec w0 r0 None s Hw0 Hd0) as (-> & _).
        by rewrite list_lookup_insert_ne.
    + by rewrite finish_noop by (intros; congruence).
Qed.

(** The completion that leaves the gate idle fulfils every [onIdle] call
    that was waiting. *)
Lemma complete_drains s c o w r :
  GateInv s → IdleInv s →
  waiters s !! w = Some r → w_done r = false →
  idle (complete c o s) →
  waiters (complete c o s) !! w = Some (mkWaiter true [] Fulfilled).
Proof.
  intros Hg (Hreg & _ & Hiw) Hw Hd Hidle.
  pose proof (ir_pending _ _ Hreg w r Hw Hd) as Hin.
  assert (¬ idle s) as Hbusy.
  { intros Hi. rewrite (Hiw Hi) in Hin. by apply elem_of_nil in Hin. }
  unfold complete in *. destruct (calls s !! c) as [[e| |o']|] eqn:Hc; try done.
  simpl. destruct Hidle as [Ha Hq]. simpl in Ha, Hq.
  destruct (queue s) as [|h q] eqn:Hqs.
  - rewrite (release_nil _ Hqs) in Ha, Hq |- *.
    match goal with |- context [emitIdleIfNeeded ?m] =>
      destruct (emitIdleIfNeeded_frame m) as ((Ha1 & Hq1 & _) & _);
      rewrite (emitIdleIfNeeded_idle m) by (split; congruence)
    end.
    by apply (foldl_finish_fulfils w _ _ r).
  - exfalso. destruct (gi_queued _ _ _ _ _ Hg h) as (ent & He & Hr & Hst).
    { rewrite Hqs. by left. }
    destruct (release_live s h q ent Hqs He Hr Hst) as (Ha' & _).
    assert (0 < active s)%Z; [|lia].
    eapply gate_inv_saturated; [exact Hg|]. by rewrite Hqs.
Qed.

(** C5, as stated, fails: [onIdle] validates [timeoutMs] before it looks
    at the gate, so a call made while the limiter is idle, with no
    signal at all, is rejected with [RangeError] when [timeoutMs] is
    [-1]; it does not resolve. *)
Lemma onIdle_idle_invalid_timeout :
  let s := lim 1 no_opts in
  let o := mkIdleOptions None (Some (JNum (-1))) in
  reachable s ∧ activeCount s = 0%Z ∧ pendingCount s = 0 ∧
  signal_aborted (io_signal o) s = false ∧
  onIdle o s = (s, IdleRejected RangeError) ∧
  snd (onIdle o s) ≠ IdleResolved.
Proof.
  cbv zeta. split_and!; [|by vm_compute..].
  by eapply (reachable_new (JNum 1) no_opts).
Qed.

(** C5, amended: in a reachable state, (1) an [onIdle] call with a valid
    [timeoutMs] and a signal not aborted resolves at once exactly when
    the gate is idle, and then the state is untouched: no waiter,
    listener or timer is registered; when the gate is not idle the call
    is registered as a pending waiter and the gate is left as it was;
    (2) whatever happens next, a waiting [onIdle] promise is fulfilled
    only into a state where [active = 0] and the queue is empty; (3) an
    event that leaves the gate idle fulfils every [onIdle] promise that
    was pending; (4) whenever the gate is idle no [onIdle] call is left
    pending. *)
Theorem onIdle_resolves_iff_idle s :
  reachable s →
  (∀ o, assertValidTimeoutMs (io_timeoutMs o) = None →
        signal_aborted (io_signal o) s = false →
        (snd (onIdle o s) = IdleResolved ↔ activeCount s = 0%Z ∧ pendingCount s = 0) ∧
        (activeCount s = 0%Z ∧ pendingCount s = 0 → onIdle o s = (s, IdleResolved)) ∧
        (¬ (activeCount s = 0%Z ∧ pendingCount s = 0) →
           snd (onIdle o s) = IdleWaiting (length (waiters s)) ∧
           waiters (fst (onIdle o s)) !! length (waiters s)
           = Some (mkWaiter false
                     (idle_cleanups (io_signal o) (io_timeoutMs o)
                        (length (waiters s)) (next_timer s))
                     Pending) ∧
           length (waiters s) ∈ idleWaiters (fst (onIdle o s)) ∧
           gate_eq s (fst (onIdle o s)))) ∧
  (∀ ev w r', waiters (apply s ev) !! w = Some r' → w_promise r' = Fulfilled →
        (∃ r, waiters s !! w = Some r ∧ w_promise r = Fulfilled) ∨
        (activeCount (apply s ev) = 0%Z ∧ pendingCount (apply s ev) = 0)) ∧
  (∀ ev w r, waiters s !! w = Some r → w_promise r = Pending →
        activeCount (apply s ev) = 0%Z ∧ pendingCount (apply s ev) = 0 →
        waiters (apply s ev) !! w = Some (mkWaiter true [] Fulfilled)) ∧
  (activeCount s = 0%Z ∧ pendingCount s = 0 →
        idleWaiters s = [] ∧
        ∀ w r, waiters s !! w = Some r → w_promise r ≠ Pending).
Proof.
  intros Hr. pose proof (reachable_GateInv s Hr) as Hg.
  pose proof (reachable_IdleInv s Hr) as Hi.
  pose proof Hi as (Hreg & _ & Hdr).
  assert (∀ st, activeCount st = 0%Z ∧ pendingCount st = 0 ↔ idle st) as Hidle.
  { intros st. unfold idle, activeCount, pendingCount. split; intros [Ha Hq]; (split; [done|]).
    - by destruct (queue st).
    - by rewrite Hq. }
  split_and!.
  - intros o Hvalid Hab. rewrite Hidle.
    assert (idle s → onIdle o s = (s, IdleResolved)) as Hnow.
    { intros Hs. unfold onIdle. rewrite Hvalid, Hab.
      apply idle_test_and in Hs. by rewrite Hs. }
    split_and!; [split| |].
    + intros Hres. destruct (onIdle_cases o s) as [[err H]|[[Hs _]|[_ H]]]; [|done|].
      * rewrite H in Hres. done.
      * destruct H as (s6 & H & _). rewrite H in Hres. done.
    + intros Hs. by rewrite (Hnow Hs).
    + done.
    + intros Hbusy.
      destruct (onIdle_cases o s) as [[err H]|[[Hs _]|[_ H]]]; [|done|].
      { exfalso. unfold onIdle in H. rewrite Hvalid, Hab in H.
        destruct (_ && _) eqn:Ht; [by apply idle_test_and in Ht|].
        unfold addAbortHandler, setTimeout in H.
        destruct (io_signal o), (io_timeoutMs o); simpl in H; discriminate. }
      destruct H as (s6 & Heq & Hge & Hw & Hiw & _).
      assert (¬ idle s6) as Hbusy6.
      { intros [Ha Hq]. apply Hbusy. destruct Hge as (Ha' & Hq' & _).
        split; congruence. }
      rewrite Heq, (emitIdleIfNeeded_busy _ Hbusy6). simpl. split_and!.
      * done.
      * rewrite Hw. by apply list_lookup_middle.
      * rewrite Hiw. apply elem_of_app. right. by apply list_elem_of_singleton.
      * done.
  - intros ev w r' Hw Hful. rewrite Hidle. by eapply apply_fulfil_step.
  - intros ev w r Hw Hp. rewrite Hidle. intros Hs'.
    apply (ir_promise _ _ Hreg _ _ Hw) in Hp.
    assert (¬ idle s) as Hbusy.
    { intros Hs. pose proof (ir_pending _ _ Hreg _ _ Hw Hp) as Hin.
      rewrite (Hdr Hs) in Hin. by apply elem_of_nil in Hin. }
    destruct (becomes_idle_by_completion s ev Hg Hbusy Hs') as (c & o & -> & _).
    simpl in *. by apply (complete_drains s c o w r).
  - rewrite Hidle. intros Hs. specialize (Hdr Hs). split; [done|].
    intros w r Hw Hp. apply (ir_promise _ _ Hreg _ _ Hw) in Hp.
    pose proof (ir_pending _ _ Hreg _ _ Hw Hp) as Hin. rewrite Hdr in Hin.
    by apply elem_of_nil in Hin.
Qed.

Lemma onIdle_resolves_iff_idle_witness :
  waiters (apply one_running_one_idle_wait (EvComplete 0 (Returned 0))) !! 0
  = Some (mkWaiter true [] Fulfilled).
Proof.
  apply (proj1 (proj2 (proj2 (onIdle_resolves_iff_idle one_running_one_idle_wait
                                reachable_one_running_one_idle_wait)))
           (EvComplete 0 (Returned 0)) 0 (mkWaiter false [DeleteWaiter 0] Pending)).
  - by vm_compute.
  - by vm_compute.
  - split; by vm_compute.
Defined.
